(** * mkdown live preview: the HTML normalizer and the decoration builder

    A shallow embedding of [src/slate-plugins/livePreview.ts].

    - Strings are JavaScript strings: sequences of UTF-16 code units,
      modelled as [list N].
    - The regular expressions of the source are kept as data ([Regex]) and
      run by a backtracking matcher with the priorities of the ECMAScript
      matcher (leftmost start, alternatives in order, greedy quantifiers
      longest first, lazy quantifiers shortest first).
    - The editor objects the plugin receives from CodeMirror (document,
      selection, syntax tree, visible ranges, range-set builder) are plain
      records; [lineAt] and the builder's [add] can raise as the library's
      do. *)

From Stdlib Require Import List String Ascii NArith Arith Lia Bool.
Import ListNotations.

Set Warnings "-register-all".

(* ================================================================== *)
(** ** JavaScript strings *)

Module JS.

Definition char := N.
Definition jsstring := list char.

(** An ASCII literal as a JavaScript string. *)
Definition str (s : string) : jsstring :=
  map N_of_ascii (list_ascii_of_string s).

Definition QUOT : char := 34%N.   (* the double quote *)
Definition APOS : char := 39%N.   (* the single quote *)
Definition TAB : char := 9%N.
Definition LF : char := 10%N.
Definition CR : char := 13%N.
Definition SPACE : char := 32%N.

(** [s.substring(b, e)] for [b <= e]; clipped to the string. *)
Definition substring (s : jsstring) (b e : nat) : jsstring :=
  firstn (e - b) (skipn b s).

(** The class [\s] (WhiteSpace and LineTerminator code points), which is
    also what [String.prototype.trim] strips. *)
Definition isSpace (c : char) : bool :=
  ((c =? 9) || (c =? 10) || (c =? 11) || (c =? 12) || (c =? 13) || (c =? 32)
   || (c =? 160) || (c =? 5760) || ((8192 <=? c) && (c <=? 8202))
   || (c =? 8232) || (c =? 8233) || (c =? 8239) || (c =? 8287)
   || (c =? 12288) || (c =? 65279))%N.

Fixpoint trimStart (s : jsstring) : jsstring :=
  match s with
  | c :: s' => if isSpace c then trimStart s' else s
  | [] => []
  end.

Definition trimEnd (s : jsstring) : jsstring := rev (trimStart (rev s)).

Definition trim (s : jsstring) : jsstring := trimEnd (trimStart s).

End JS.
Import JS.

(* ================================================================== *)
(** ** Regular expressions *)

Module RegExp.

(** The patterns of the source only quantify single-character classes, so a
    pattern is a sequence of such atoms, and a regex a list of alternatives. *)
Inductive Atom :=
| Chr (p : char -> bool)                              (* one character of a class *)
| Rep (p : char -> bool) (min : nat) (greedy : bool)  (* p{min,} or p{min,}? *)
| Bos                                                 (* ^ (no m flag) *)
| Eos                                                 (* $ (no m flag) *)
| GroupOpen                                           (* ( *)
| GroupClose.                                         (* ) *)

Definition Seq := list Atom.
Definition Regex := list Seq.

(** Character classes. *)
Definition only (c : char) : char -> bool := N.eqb c.
Definition oneOf (cs : list char) : char -> bool :=
  fun c => existsb (N.eqb c) cs.
Definition noneOf (cs : list char) : char -> bool :=
  fun c => negb (oneOf cs c).
Definition anyChar : char -> bool := fun _ => true.            (* [\s\S] *)
Definition dot : char -> bool := noneOf [10; 13; 8232; 8233]%N. (* . *)
Definition between (lo hi : char) : char -> bool :=
  fun c => ((lo <=? c) && (c <=? hi))%N.

(** A letter under the [i] flag matches both of its ASCII cases; no code
    unit outside ASCII canonicalizes to an ASCII letter. *)
Definition isNoCase (c : char) : char -> bool :=
  fun x =>
    if between 97%N 122%N c then ((x =? c) || (x =? c - 32))%N
    else if between 65%N 90%N c then ((x =? c) || (x =? c + 32))%N
    else (x =? c)%N.

Definition lit (s : string) : Seq := map (fun c => Chr (only c)) (str s).
Definition litNoCase (s : string) : Seq := map (fun c => Chr (isNoCase c)) (str s).

(** The result of a successful match attempt: end offset and the offsets
    recorded at the group parentheses, in pattern order. *)
Definition Outcome := option (nat * list nat).

(** [p{min,}] followed by the continuation [k], at offset [i] of the input
    whose remainder is [s]. *)
Fixpoint rep (p : char -> bool) (greedy : bool) (k : jsstring -> nat -> Outcome)
         (s : jsstring) (i : nat) (min : nat) {struct s} : Outcome :=
  match min with
  | S m =>
      match s with
      | c :: s' => if p c then rep p greedy k s' (S i) m else None
      | [] => None
      end
  | O =>
      if greedy then
        match s with
        | c :: s' =>
            if p c then
              match rep p greedy k s' (S i) 0 with
              | Some r => Some r
              | None => k s i
              end
            else k s i
        | [] => k s i
        end
      else
        match k s i with
        | Some r => Some r
        | None =>
            match s with
            | c :: s' => if p c then rep p greedy k s' (S i) 0 else None
            | [] => None
            end
        end
  end.

(** Match the sequence [atoms] at offset [i]; [caps] are the group offsets
    recorded so far. *)
Fixpoint run (atoms : Seq) (s : jsstring) (i : nat) (caps : list nat)
         {struct atoms} : Outcome :=
  match atoms with
  | [] => Some (i, caps)
  | Chr p :: k =>
      match s with
      | c :: s' => if p c then run k s' (S i) caps else None
      | [] => None
      end
  | Rep p min greedy :: k =>
      rep p greedy (fun s' i' => run k s' i' caps) s i min
  | Bos :: k => if i =? 0 then run k s i caps else None
  | Eos :: k => match s with [] => run k s i caps | _ :: _ => None end
  | GroupOpen :: k => run k s i (caps ++ [i])
  | GroupClose :: k => run k s i (caps ++ [i])
  end.

(** The alternatives in order, all at offset [i]. *)
Fixpoint matchAt (re : Regex) (s : jsstring) (i : nat) : Outcome :=
  match re with
  | [] => None
  | a :: re' =>
      match run a s i [] with
      | Some r => Some r
      | None => matchAt re' s i
      end
  end.

(** The captured groups of a match that started at offset [i], where the
    remainder of the input was [s]. *)
Fixpoint groups (s : jsstring) (i : nat) (caps : list nat) : list jsstring :=
  match caps with
  | b :: e :: caps' => substring s (b - i) (e - i) :: groups s i caps'
  | _ => []
  end.

(** [RegExp.prototype.exec] from offset [i]: the leftmost match, as
    (start, matched text, groups). *)
Fixpoint exec (re : Regex) (s : jsstring) (i : nat)
  : option (nat * jsstring * list jsstring) :=
  match matchAt re s i with
  | Some (e, caps) => Some (i, substring s 0 (e - i), groups s i caps)
  | None =>
      match s with
      | [] => None
      | _ :: s' => exec re s' (S i)
      end
  end.

(** A replacement: a function of the matched text and its groups. *)
Definition Replacer := jsstring -> list jsstring -> jsstring.

Definition const (r : string) : Replacer := fun _ _ => str r.

(** The loop of [String.prototype.replace] for a regex with the [g] flag.
    [skip] counts the characters of the last match still to be passed over;
    after an empty match the search resumes one character further. *)
Fixpoint replaceFrom (re : Regex) (f : Replacer) (s : jsstring) (i skip : nat)
         {struct s} : jsstring :=
  match skip with
  | S k =>
      match s with
      | [] => []
      | _ :: s' => replaceFrom re f s' (S i) k
      end
  | O =>
      match matchAt re s i with
      | Some (e, caps) =>
          f (substring s 0 (e - i)) (groups s i caps) ++
          match s with
          | [] => []
          | c :: s' =>
              if e <=? i then c :: replaceFrom re f s' (S i) 0
              else replaceFrom re f s' (S i) (e - i - 1)
          end
      | None =>
          match s with
          | [] => []
          | c :: s' => c :: replaceFrom re f s' (S i) 0
          end
      end
  end.

Definition replaceAll (re : Regex) (f : Replacer) (s : jsstring) : jsstring :=
  replaceFrom re f s 0 0.

(** [String.prototype.replace] for a regex without the [g] flag: the first
    match only. *)
Fixpoint replaceFirstFrom (re : Regex) (f : Replacer) (s : jsstring) (i : nat)
  : jsstring :=
  match matchAt re s i with
  | Some (e, caps) =>
      f (substring s 0 (e - i)) (groups s i caps) ++ skipn (e - i) s
  | None =>
      match s with
      | [] => []
      | c :: s' => c :: replaceFirstFrom re f s' (S i)
      end
  end.

Definition replaceFirst (re : Regex) (f : Replacer) (s : jsstring) : jsstring :=
  replaceFirstFrom re f s 0.

End RegExp.
Import RegExp.

(* ================================================================== *)
(** ** The HTML normalizer *)

(** [\s*c\s*] for a single character [c]. *)
Definition spacesAround (c : string) : Regex :=
  [ [Rep isSpace 0 true] ++ lit c ++ [Rep isSpace 0 true] ].

Definition reComment : Regex :=           (* /<!--[\s\S]*?-->/g *)
  [ lit "<!--" ++ [Rep anyChar 0 false] ++ lit "-->" ].
Definition reNewlines : Regex :=          (* /[\r\n]+/g *)
  [ [Rep (oneOf [CR; LF]) 1 true] ].
Definition reTab : Regex :=               (* /\t/g *)
  [ [Chr (only TAB)] ].
Definition reBetweenTags : Regex :=       (* />\s+</g *)
  [ lit ">" ++ [Rep isSpace 1 true] ++ lit "<" ].
Definition reEdges : Regex :=             (* /^\s+|\s+$/g *)
  [ [Bos; Rep isSpace 1 true]; [Rep isSpace 1 true; Eos] ].
Definition reSpaces : Regex :=            (* /\s{2,}/g *)
  [ [Rep isSpace 2 true] ].
Definition reStyleTag : Regex :=          (* /<style[^>]*>([\s\S]*?)<\/style>/gi *)
  [ litNoCase "<style" ++ [Rep (noneOf [62%N]) 0 true] ++ litNoCase ">"
    ++ [GroupOpen; Rep anyChar 0 false; GroupClose] ++ litNoCase "</style>" ].
Definition reCssComment : Regex :=        (* /\/\*[\s\S]*?\*\//g *)
  [ lit "/*" ++ [Rep anyChar 0 false] ++ lit "*/" ].
Definition reSemiBrace : Regex :=         (* /;\s*}/g *)
  [ lit ";" ++ [Rep isSpace 0 true] ++ lit "}" ].
Definition reCtl : Regex :=               (* /[\r\n\t]/g *)
  [ [Chr (oneOf [CR; LF; TAB])] ].
Definition reStyleAttr : Regex :=         (* /style\s*=\s*[Q]([^Q]*?)[Q]/gi, Q both quotes *)
  [ litNoCase "style" ++ [Rep isSpace 0 true] ++ litNoCase "="
    ++ [Rep isSpace 0 true; Chr (oneOf [QUOT; APOS]);
        GroupOpen; Rep (noneOf [QUOT; APOS]) 0 false; GroupClose;
        Chr (oneOf [QUOT; APOS])] ].
Definition reSemiEnd : Regex :=           (* /;\s*$/ *)
  [ lit ";" ++ [Rep isSpace 0 true; Eos] ].
Definition isSimple (c : char) : bool :=  (* [a-zA-Z0-9\-_] *)
  between 97%N 122%N c || between 65%N 90%N c || between 48%N 57%N c
  || only 45%N c || only 95%N c.
Definition reQuoted : Regex :=            (* /=[Q]([a-zA-Z0-9\-_]+)[Q]/g, Q both quotes *)
  [ lit "=" ++ [Chr (oneOf [QUOT; APOS]);
                GroupOpen; Rep isSimple 1 true; GroupClose;
                Chr (oneOf [QUOT; APOS])] ].
Definition reSelfClose : Regex :=         (* /\s*\/\s*>/g *)
  [ [Rep isSpace 0 true] ++ lit "/" ++ [Rep isSpace 0 true] ++ lit ">" ].

(** The first group of a match ([undefined] does not arise: every pattern
    that is given a callback has one group, which always participates). *)
Definition group1 (gs : list jsstring) : jsstring := nth 0 gs [].

(** The callback of the [<style>] replacement (lines 27-40). *)
Definition minifyCSS (css : jsstring) : jsstring :=
  let s := replaceAll reCssComment (const "") css in
  let s := replaceAll (spacesAround "{") (const "{") s in
  let s := replaceAll (spacesAround "}") (const "}") s in
  let s := replaceAll (spacesAround ";") (const ";") s in
  let s := replaceAll (spacesAround ":") (const ":") s in
  let s := replaceAll (spacesAround ",") (const ",") s in
  let s := replaceAll reSemiBrace (const "}") s in
  let s := replaceAll reCtl (const "") s in
  let s := replaceAll reSpaces (const " ") s in
  trim s.

Definition styleTagReplacer : Replacer :=
  fun _ gs => str "<style>" ++ minifyCSS (group1 gs) ++ str "</style>".

(** The callback of the inline [style] attribute replacement (lines 42-50). *)
Definition minifyStyle (style : jsstring) : jsstring :=
  let s := replaceAll (spacesAround ";") (const ";") style in
  let s := replaceAll (spacesAround ":") (const ":") s in
  let s := replaceFirst reSemiEnd (const "") s in
  let s := replaceAll reSpaces (const " ") s in
  trim s.

Definition styleAttrReplacer : Replacer :=
  fun _ gs => str "style=" ++ [QUOT] ++ minifyStyle (group1 gs) ++ [QUOT].

Definition unquoteReplacer : Replacer :=   (* the replacement =$1 *)
  fun _ gs => str "=" ++ group1 gs.

(** [minifyHTML] (lines 6-58), one [let] per [.replace]. *)
Definition minifyHTML (html : jsstring) : jsstring :=
  let s := replaceAll reComment (const "") html in
  let s := replaceAll reNewlines (const "") s in
  let s := replaceAll reTab (const "") s in
  let s := replaceAll reBetweenTags (const "><") s in
  let s := replaceAll reEdges (const "") s in
  let s := replaceAll reSpaces (const " ") s in
  let s := replaceAll (spacesAround "=") (const "=") s in
  let s := replaceAll (spacesAround "<") (const "<") s in
  let s := replaceAll (spacesAround ">") (const ">") s in
  let s := replaceAll reStyleTag styleTagReplacer s in
  let s := replaceAll reStyleAttr styleAttrReplacer s in
  let s := replaceAll reQuoted unquoteReplacer s in
  let s := replaceAll reSelfClose (const "/>") s in
  trim s.

(* ================================================================== *)
(** ** The editor objects the plugin reads *)

Module CM.

(** A line of the document: [from] its first offset, [to] the offset just
    after its last character (before the line break). *)
Record Line := { lineFrom : nat; lineTo : nat }.

(** Start of the line around [pos]: [start] is the start of the line that
    holds offset [i], the offset of the head of [doc]. *)
Fixpoint lineStart (doc : jsstring) (pos start i : nat) : nat :=
  match pos, doc with
  | S p, c :: d => lineStart d p (if (c =? LF)%N then S i else start) (S i)
  | _, _ => start
  end.

(** Number of characters before the next line break. *)
Fixpoint untilBreak (s : jsstring) : nat :=
  match s with
  | c :: s' => if (c =? LF)%N then 0 else S (untilBreak s')
  | [] => 0
  end.

(** [doc.lineAt(pos)]: the library raises a RangeError when [pos] lies
    outside the document. *)
Definition lineAt (doc : jsstring) (pos : nat) : option Line :=
  if pos <=? List.length doc then
    Some {| lineFrom := lineStart doc pos 0 0;
            lineTo := pos + untilBreak (skipn pos doc) |}
  else None.

(** [selection.main], with [from <= to]. *)
Record SelectionRange := { selFrom : nat; selTo : nat }.

(** A node of the syntax tree as the [enter] callback sees it. *)
Record SyntaxNode := { name : string; from : nat; to : nat }.

Inductive Tree := Node (n : SyntaxNode) (children : list Tree).

Record EditorState :=
  { doc : jsstring; selection : SelectionRange; syntaxTree : Tree }.

(** [state.sliceDoc(from, to)]: the library clips the offsets to the
    document. *)
Definition sliceDoc (state : EditorState) (from to : nat) : jsstring :=
  substring (doc state) from to.

Record EditorView :=
  { state : EditorState; visibleRanges : list (nat * nat) }.

(** [tree.iterate({from, to, enter})]: pre-order; a node is entered when it
    touches [from, to], and its children are visited only then.  The
    callback of the plugin never returns [false], so children of an entered
    node are always visited.  [B] is the state the callback updates; [None]
    is an exception raised by the callback. *)
Fixpoint iterate {B : Type} (t : Tree) (rfrom rto : nat)
         (enter : SyntaxNode -> B -> option B) (b : B) : option B :=
  match t with
  | Node n children =>
      if (from n <=? rto) && (rfrom <=? to n) then
        match enter n b with
        | Some b1 =>
            (fix each (ts : list Tree) (b : B) : option B :=
               match ts with
               | [] => Some b
               | t' :: ts' =>
                   match iterate t' rfrom rto enter b with
                   | Some b2 => each ts' b2
                   | None => None
                   end
               end) children b1
        | None => None
        end
      else Some b
  end.

End CM.
Import CM.

(* ================================================================== *)
(** ** Widgets and decorations *)

(** The four widget classes (lines 60-121); each holds its constructor
    argument. *)
Inductive WidgetType :=
| HTMLWidget (html : jsstring)
| ImageWidget (url : jsstring)
| TextWidget (text : jsstring)
| BulletWidget.

(** [Decoration.replace({widget})]; [replace None] is [Decoration.replace({})]. *)
Inductive Decoration := replace (widget : option WidgetType).

(** One [builder.add(from, to, value)]. *)
Record Range := { rangeFrom : nat; rangeTo : nat; value : Decoration }.

(** The builder ([RangeSetBuilder] of the editor library).  It files the
    ranges in layers and remembers, for each layer, the range that layer got
    last.  [ranges] holds every range added, in the order of the calls;
    [layers] holds [(lastFrom, lastTo)] for each layer that has a range, the
    first layer first. *)
Record RangeSetBuilder :=
  { ranges : list Range; layers : list (nat * nat) }.
Definition DecorationSet := list Range.

(** [new RangeSetBuilder()]. *)
Definition newBuilder : RangeSetBuilder := {| ranges := []; layers := [] |}.

(** [addInner] of the library, with the call of [add] on the next layer
    when it returns [false].  Every decoration of the plugin is a
    [Decoration.replace] without [inclusive] and [block], so all values
    have the same [startSide] and the same [endSide], and
    [startSide > endSide].  The library computes
    [diff = from - lastTo || startSide - last.endSide], which is negative
    when [from < lastTo] and positive otherwise; it raises when [diff <= 0]
    and [from - lastFrom || startSide - last.startSide] is negative, that
    is when [from < lastTo] and [from < lastFrom]; it hands the range to
    the next layer when [diff < 0]; else the layer takes the range.  A layer
    without a range takes any range.  [None] is the exception. *)
Fixpoint addInner (ls : list (nat * nat)) (rfrom rto : nat)
  : option (list (nat * nat)) :=
  match ls with
  | [] => Some [(rfrom, rto)]
  | (lastFrom, lastTo) :: nextLayer =>
      if rfrom <? lastTo then
        if rfrom <? lastFrom then None
        else match addInner nextLayer rfrom rto with
             | Some next => Some ((lastFrom, lastTo) :: next)
             | None => None
             end
      else Some ((rfrom, rto) :: nextLayer)
  end.

(** [builder.add(from, to, value)]. *)
Definition add (builder : RangeSetBuilder) (rfrom rto : nat) (v : Decoration)
  : option RangeSetBuilder :=
  match addInner (layers builder) rfrom rto with
  | Some ls =>
      Some {| ranges := ranges builder
                        ++ [ {| rangeFrom := rfrom; rangeTo := rto; value := v |} ];
              layers := ls |}
  | None => None
  end.

(** [builder.finish()]: the set of the ranges added. *)
Definition finish (builder : RangeSetBuilder) : DecorationSet := ranges builder.

(* ================================================================== *)
(** ** The decoration builder *)

Definition reImage : Regex :=             (* /^!\[(.*?)\]\((.*?)\)$/ *)
  [ [Bos] ++ lit "![" ++ [GroupOpen; Rep dot 0 false; GroupClose] ++ lit "]("
    ++ [GroupOpen; Rep dot 0 false; GroupClose] ++ lit ")" ++ [Eos] ].

(** [text.match(re)] for a regex without the [g] flag: the groups of the
    first match, or [None] for [null]. *)
Definition matchGroups (re : Regex) (text : jsstring) : option (list jsstring) :=
  match exec re text 0 with
  | Some (_, _, gs) => Some gs
  | None => None
  end.

Definition jsEq (a b : jsstring) : bool :=
  if list_eq_dec N.eq_dec a b then true else false.

(** The reveal test of lines 150-161. *)
Definition revealed (selection : SelectionRange) (nodeLine : Line)
           (node : SyntaxNode) (isHTML : bool) : bool :=
  if isHTML then (selFrom selection <=? to node) && (from node <=? selTo selection)
  else (selFrom selection <=? lineTo nodeLine) && (lineFrom nodeLine <=? selTo selection).

(** The [enter] callback (lines 146-220), as a function of the builder it
    adds to; [None] when [lineAt] or [builder.add] raises. *)
Definition enter (state : EditorState) (selection : SelectionRange)
           (node : SyntaxNode) (builder : RangeSetBuilder)
  : option RangeSetBuilder :=
  match lineAt (doc state) (from node) with
  | None => None
  | Some nodeLine =>
    let isHTML := (name node =? "HTMLTag")%string || (name node =? "HTMLBlock")%string in
    if revealed selection nodeLine node isHTML then Some builder
    else if (name node =? "HeaderMark")%string then
      let afterMark := sliceDoc state (to node) (to node + 1) in
      let replacementEnd := if jsEq afterMark (str " ") then to node + 1 else to node in
      add builder (from node) replacementEnd (replace None)
    else if (name node =? "EmphasisMark")%string then
      add builder (from node) (to node) (replace None)
    else if (name node =? "CodeMark")%string then
      add builder (from node) (to node) (replace None)
    else if (name node =? "ListMark")%string then
      add builder (from node) (to node) (replace (Some BulletWidget))
    else if (name node =? "Image")%string then
      let text := sliceDoc state (from node) (to node) in
      match matchGroups reImage text with
      | Some m =>
          let alt := nth 0 m [] in
          let url := nth 1 m [] in
          if jsEq alt [] then
            add builder (from node) (to node) (replace (Some (ImageWidget url)))
          else
            add builder (from node) (to node) (replace (Some (TextWidget alt)))
      | None => Some builder
      end
    else if isHTML then
      let text := sliceDoc state (from node) (to node) in
      let minified := minifyHTML text in
      add builder (from node) (to node) (replace (Some (HTMLWidget minified)))
    else Some builder
  end.

(** The loop over [view.visibleRanges] (line 142). *)
Fixpoint forEachRange (st : EditorState) (sel : SelectionRange)
         (rs : list (nat * nat)) (builder : RangeSetBuilder)
  : option RangeSetBuilder :=
  match rs with
  | [] => Some builder
  | (rfrom, rto) :: rs' =>
      match iterate (syntaxTree st) rfrom rto (enter st sel) builder with
      | Some b => forEachRange st sel rs' b
      | None => None
      end
  end.

(** [buildDecorations] (lines 137-224): one traversal per visible range, all
    adding to the same builder. *)
Definition buildDecorations (view : EditorView) : option DecorationSet :=
  let st := state view in
  let sel := selection st in
  match forEachRange st sel (visibleRanges view) newBuilder with
  | Some builder => Some (finish builder)
  | None => None
  end.

(* ================================================================== *)
(** ** The plugin instance *)

(** The fields of a [ViewUpdate] the plugin reads (line 132). *)
Record ViewUpdate :=
  { docChanged : bool; viewportChanged : bool; selectionSet : bool;
    view : EditorView }.

(** The plugin value (lines 124-135): the decorations it holds. *)
Record LivePreview := { decorations : DecorationSet }.

(** The constructor (lines 127-129); [None] when the build raises. *)
Definition construct (v : EditorView) : option LivePreview :=
  match buildDecorations v with
  | Some ds => Some {| decorations := ds |}
  | None => None
  end.

(** [update] (lines 131-135): rebuild when the document, the viewport or
    the selection changed, else keep what is held. *)
Definition update (this : LivePreview) (u : ViewUpdate) : option LivePreview :=
  if docChanged u || viewportChanged u || selectionSet u then
    match buildDecorations (view u) with
    | Some ds => Some {| decorations := ds |}
    | None => None
    end
  else Some this.

(* ================================================================== *)
(** ** Vocabulary of the properties *)

(** The node kinds the builder decorates. *)
Definition lineKinds : list string :=
  ["HeaderMark"; "EmphasisMark"; "CodeMark"; "ListMark"; "Image"]%string.
Definition htmlKinds : list string := ["HTMLTag"; "HTMLBlock"]%string.

Definition decorated (n : SyntaxNode) : bool :=
  existsb (String.eqb (name n)) (lineKinds ++ htmlKinds).

(** The selection touches the closed interval [a, b]. *)
Definition touches (sel : SelectionRange) (a b : nat) : Prop :=
  selFrom sel <= b /\ a <= selTo sel.

(** The nodes [iterate] enters for a range, in the order it enters them. *)
Fixpoint visit (t : Tree) (rfrom rto : nat) : list SyntaxNode :=
  match t with
  | Node n children =>
      if (from n <=? rto) && (rfrom <=? to n)
      then n :: flat_map (fun c => visit c rfrom rto) children
      else []
  end.

(** All nodes of the tree, parents before children. *)
Fixpoint preorder (t : Tree) : list SyntaxNode :=
  match t with
  | Node n children => n :: flat_map preorder children
  end.

(** The callback run over a sequence of nodes. *)
Fixpoint enterAll (st : EditorState) (sel : SelectionRange)
         (ns : list SyntaxNode) (b : RangeSetBuilder) : option RangeSetBuilder :=
  match ns with
  | [] => Some b
  | n :: ns' =>
      match enter st sel n b with
      | Some b' => enterAll st sel ns' b'
      | None => None
      end
  end.

(** Every node entered during a build, over all visible ranges. *)
Definition entered (view : EditorView) : list SyntaxNode :=
  flat_map (fun r => visit (syntaxTree (state view)) (fst r) (snd r))
           (visibleRanges view).

(** The end of the range hidden for a node: a Header Mark takes the space
    after it along. *)
Definition hiddenTo (d : jsstring) (n : SyntaxNode) : nat :=
  match nth_error d (to n) with
  | Some c => if (name n =? "HeaderMark")%string && (c =? SPACE)%N
              then to n + 1 else to n
  | None => to n
  end.

(** Two ranges [from, to) share an offset. *)
Definition overlap (x y : Range) : Prop :=
  rangeFrom x < rangeTo y /\ rangeFrom y < rangeTo x.

Definition sortedByFrom (ds : list Range) : Prop :=
  ForallOrdPairs (fun x y => rangeFrom x <= rangeFrom y) ds.

Definition nonOverlapping (ds : list Range) : Prop :=
  ForallOrdPairs (fun x y => ~ overlap x y) ds.

(** Node ranges that do not nest: in traversal order, each ends at or
    before the start of every later one. *)
Definition disjointInOrder (ns : list SyntaxNode) : Prop :=
  ForallOrdPairs (fun a b => to a <= from b) ns.

(** No later node starts on the space a Header Mark takes along. *)
Definition spaceAfterMarkFree (d : jsstring) (ns : list SyntaxNode) : Prop :=
  ForallOrdPairs
    (fun a b => name a = "HeaderMark"%string ->
                nth_error d (to a) = Some SPACE -> from b <> to a) ns.

(** [es] holds, in order, one range [from, hiddenTo) for some of the
    decorated nodes of [ns]. *)
Inductive Picks (d : jsstring) : list SyntaxNode -> list Range -> Prop :=
| Picks_nil : Picks d [] []
| Picks_skip (n : SyntaxNode) (ns : list SyntaxNode) (es : list Range) :
    Picks d ns es -> Picks d (n :: ns) es
| Picks_take (n : SyntaxNode) (ns : list SyntaxNode) (e : Range) (es : list Range) :
    decorated n = true ->
    rangeFrom e = from n -> rangeTo e = hiddenTo d n ->
    Picks d ns es -> Picks d (n :: ns) (e :: es).

(** [l1] is [l2] with some elements left out. *)
Inductive Subseq {A : Type} : list A -> list A -> Prop :=
| Subseq_nil (l : list A) : Subseq [] l
| Subseq_drop (x : A) (l1 l2 : list A) : Subseq l1 l2 -> Subseq l1 (x :: l2)
| Subseq_keep (x : A) (l1 l2 : list A) : Subseq l1 l2 -> Subseq (x :: l1) (x :: l2).

(** *** Vocabulary for the normalizer *)

(** Length of the longest prefix of [s] inside the class [p]. *)
Fixpoint span (p : char -> bool) (s : jsstring) : nat :=
  match s with
  | c :: s' => if p c then S (span p s') else 0
  | [] => 0
  end.

Definition startsSpace (s : jsstring) : bool :=
  match s with
  | c :: _ => isSpace c
  | [] => false
  end.

Fixpoint endsSpace (s : jsstring) : bool :=
  match s with
  | [] => false
  | [c] => isSpace c
  | _ :: s' => endsSpace s'
  end.

(** No two adjacent whitespace characters. *)
Fixpoint packed (s : jsstring) : Prop :=
  match s with
  | [] => True
  | c :: s' => (isSpace c = true -> startsSpace s' = false) /\ packed s'
  end.

(** A replacement text that can be put anywhere in a packed text. *)
Definition solid (r : jsstring) : Prop :=
  r <> [] /\ packed r /\ startsSpace r = false /\ endsSpace r = false.

(** No newline, carriage return or tab. *)
Definition noCtl (c : char) : Prop := c <> LF /\ c <> CR /\ c <> TAB.
Definition singleLine (s : jsstring) : Prop := Forall noCtl s.

(** A replacement that yields characters of [P] from a match and groups
    made of characters of [P]. *)
Definition Keeps (P : char -> Prop) (f : Replacer) : Prop :=
  forall m gs, Forall P m -> Forall (Forall P) gs -> Forall P (f m gs).

(** No leading and no trailing whitespace. *)
Definition trimmed (s : jsstring) : Prop :=
  startsSpace s = false /\ endsSpace s = false.

(** No two consecutive space characters. *)
Definition noSpaceRun (s : jsstring) : Prop :=
  forall a b : jsstring, s <> a ++ SPACE :: SPACE :: b.

(** None of the characters [<], [>] and [=]. *)
Definition isMarkup (c : char) : bool := oneOf [60; 62; 61]%N c.
Definition plainText (s : jsstring) : Prop :=
  Forall (fun c => isMarkup c = false) s.

(** The output of the replace loop, as a relation: [Replaced re f i s out]
    when the loop, at offset [i] with [s] left to read, produces [out]. *)
Inductive Replaced (re : Regex) (f : Replacer) : nat -> jsstring -> jsstring -> Prop :=
| Replaced_end (i : nat) :
    matchAt re [] i = None -> Replaced re f i [] []
| Replaced_end_match (i e : nat) (caps : list nat) :
    matchAt re [] i = Some (e, caps) ->
    Replaced re f i [] (f [] (groups [] i caps))
| Replaced_copy (i : nat) (c : char) (s out : jsstring) :
    matchAt re (c :: s) i = None ->
    Replaced re f (S i) s out ->
    Replaced re f i (c :: s) (c :: out)
| Replaced_empty (i e : nat) (caps : list nat) (c : char) (s out : jsstring) :
    matchAt re (c :: s) i = Some (e, caps) -> e <= i ->
    Replaced re f (S i) s out ->
    Replaced re f i (c :: s) (f [] (groups (c :: s) i caps) ++ c :: out)
| Replaced_match (i e : nat) (caps : list nat) (c : char) (s out : jsstring) :
    matchAt re (c :: s) i = Some (e, caps) -> i < e ->
    Replaced re f e (skipn (e - i) (c :: s)) out ->
    Replaced re f i (c :: s)
             (f (firstn (e - i) (c :: s)) (groups (c :: s) i caps) ++ out).

(** An atom that cannot match inside [s]: it needs a character of a class no
    character of [s] belongs to. *)
Definition rejects (s : jsstring) (a : Atom) : Prop :=
  match a with
  | Chr p => Forall (fun c => p c = false) s
  | Rep p (S _) _ => Forall (fun c => p c = false) s
  | _ => False
  end.

(** *** Vocabulary for the size and the content of the normalized text *)

(** The least number of characters a sequence of atoms consumes. *)
Fixpoint minLen (atoms : Seq) : nat :=
  match atoms with
  | [] => 0
  | Chr _ :: k => S (minLen k)
  | Rep _ min _ :: k => min + minLen k
  | _ :: k => minLen k
  end.

(** A sequence without group parentheses. *)
Fixpoint groupFree (atoms : Seq) : Prop :=
  match atoms with
  | [] => True
  | GroupOpen :: _ => False
  | GroupClose :: _ => False
  | _ :: k => groupFree k
  end.

(** The characters that are not whitespace, in order. *)
Definition ink (s : jsstring) : jsstring :=
  filter (fun c => negb (isSpace c)) s.

(** The text without its newlines, carriage returns and tabs. *)
Definition withoutBreaks (s : jsstring) : jsstring :=
  filter (fun c => negb (oneOf [CR; LF; TAB] c)) s.

(** The first character belongs to the class [P]. *)
Definition startsWith (P : char -> bool) (s : jsstring) : bool :=
  match s with
  | c :: _ => P c
  | [] => false
  end.

(** No whitespace character next to a character of the class [P]. *)
Fixpoint clearOf (P : char -> bool) (s : jsstring) : Prop :=
  match s with
  | [] => True
  | c :: s' =>
      (P c = true -> startsSpace s' = false) /\
      (isSpace c = true -> startsWith P s' = false) /\
      clearOf P s'
  end.

(** The punctuation the CSS steps close up: [{], [}], [;], [:] and [,]. *)
Definition cssPunct : char -> bool := oneOf [123; 125; 59; 58; 44]%N.
(** The punctuation the inline style steps close up: [;] and [:]. *)
Definition stylePunct : char -> bool := oneOf [59; 58]%N.

(** What a replacement step keeps of a clear text: the output is clear, and
    it starts with whitespace or with a character of the class only if the
    input does. *)
Definition keepsClear (P : char -> bool) (s out : jsstring) : Prop :=
  clearOf P out /\
  (startsSpace out = true -> startsSpace s = true) /\
  (startsWith P out = true -> startsWith P s = true).

(** *** Vocabulary for the fixed points of the normalizer *)

(** The text starts with characters of the classes [ps], one after the
    other. *)
Fixpoint startsLike (ps : list (char -> bool)) (s : jsstring) : bool :=
  match ps, s with
  | [], _ => true
  | p :: ps', c :: s' => p c && startsLike ps' s'
  | _ :: _, [] => false
  end.

(** Some part of the text is a sequence of characters of the classes [ps]. *)
Fixpoint occurs (ps : list (char -> bool)) (s : jsstring) : bool :=
  startsLike ps s ||
  match s with
  | _ :: s' => occurs ps s'
  | [] => false
  end.


(** The text holds the word [style], in any letter case. *)
Definition hasStyleWord (s : jsstring) : bool :=
  occurs (map isNoCase (str "style")) s.

(** [P] holds of no suffix of the text. *)
Fixpoint nowhere (P : jsstring -> bool) (s : jsstring) : Prop :=
  P s = false /\
  match s with
  | _ :: s' => nowhere P s'
  | [] => True
  end.

Definition isQuote : char -> bool := oneOf [QUOT; APOS].

(** The text starts with [[a-zA-Z0-9\-_]*] and a quote; with
    [[a-zA-Z0-9\-_]+] and a quote; with a quote, [[a-zA-Z0-9\-_]+] and a
    quote; with [=], a quote, [[a-zA-Z0-9\-_]+] and a quote. *)
Fixpoint closesQuote (s : jsstring) : bool :=
  match s with
  | c :: s' => isQuote c || (isSimple c && closesQuote s')
  | [] => false
  end.
Definition simpleQuote (s : jsstring) : bool :=
  match s with
  | c :: s' => isSimple c && closesQuote s'
  | [] => false
  end.
Definition quoteSimpleQuote (s : jsstring) : bool :=
  match s with
  | c :: s' => isQuote c && simpleQuote s'
  | [] => false
  end.
Definition quotedAt (s : jsstring) : bool :=
  match s with
  | c :: s' => only 61%N c && quoteSimpleQuote s'
  | [] => false
  end.

(** The text starts with [/>]; with [\s*>]; with [\s*/\s*>]. *)
Definition selfClosed (s : jsstring) : bool :=
  match s with
  | c :: s' => only 47%N c && startsWith (only 62%N) s'
  | [] => false
  end.
Definition closeAhead (s : jsstring) : bool :=
  startsWith (only 62%N) (skipn (span isSpace s) s).
Definition selfCloseAt (s : jsstring) : bool :=
  match skipn (span isSpace s) s with
  | c :: t => only 47%N c && closeAhead t
  | [] => false
  end.

(** No whitespace character directly before a [/>]. *)
Fixpoint gapFree (s : jsstring) : Prop :=
  match s with
  | [] => True
  | c :: s' => (isSpace c = true -> selfClosed s' = false) /\ gapFree s'
  end.

(** [out] is [s] with some characters of the class [D] left out. *)
Inductive Dropped (D : char -> bool) : jsstring -> jsstring -> Prop :=
| Dropped_nil : Dropped D [] []
| Dropped_keep (c : char) (s out : jsstring) :
    Dropped D s out -> Dropped D (c :: s) (c :: out)
| Dropped_drop (c : char) (s out : jsstring) :
    D c = true -> Dropped D s out -> Dropped D (c :: s) out.

(** *** Vocabulary for the builder *)

Definition mkRange (rfrom rto : nat) (v : Decoration) : Range :=
  {| rangeFrom := rfrom; rangeTo := rto; value := v |}.

(** The layers take a range that starts at [rfrom]: in no layer the call
    reaches does it start before both ends of the range added last. *)
Fixpoint admits (ls : list (nat * nat)) (rfrom : nat) : bool :=
  match ls with
  | [] => true
  | (lastFrom, lastTo) :: next =>
      if rfrom <? lastTo then (lastFrom <=? rfrom) && admits next rfrom
      else true
  end.

(** The outcome [r] of a call on the builder [b] is that of adding exactly
    the range [e]: when [b] takes a range that starts where [e] does, the
    call returns a builder that holds the ranges of [b] followed by [e];
    otherwise the call raises. *)
Definition addsTo (r : option RangeSetBuilder) (b : RangeSetBuilder) (e : Range)
  : Prop :=
  if admits (layers b) (rangeFrom e)
  then exists b', r = Some b' /\ ranges b' = ranges b ++ [e]
  else r = None.

(** A sequence of [add] calls. *)
Fixpoint addAll (b : RangeSetBuilder) (es : list Range) : option RangeSetBuilder :=
  match es with
  | [] => Some b
  | e :: es' =>
      match add b (rangeFrom e) (rangeTo e) (value e) with
      | Some b' => addAll b' es'
      | None => None
      end
  end.

(** The range added last starts at [f]: some layer has [lastFrom = f] and
    [f <= lastTo], and the layers before it have [f < lastTo]. *)
Fixpoint behind (ls : list (nat * nat)) (f : nat) : Prop :=
  match ls with
  | [] => False
  | (lastFrom, lastTo) :: next =>
      (lastFrom = f /\ f <= lastTo) \/ (f < lastTo /\ behind next f)
  end.

(** Nodes in non-decreasing order of start. *)
Definition sortedStarts (ns : list SyntaxNode) : Prop :=
  ForallOrdPairs (fun a b => from a <= from b) ns.

(** *** Vocabulary for the properties of a whole build *)

Definition isHTMLNode (n : SyntaxNode) : bool :=
  (name n =? "HTMLTag")%string || (name n =? "HTMLBlock")%string.

(** The node is inside the document and the reveal test fails for it. *)
Definition hiddenNode (st : EditorState) (sel : SelectionRange) (n : SyntaxNode) : Prop :=
  exists l, lineAt (doc st) (from n) = Some l /\
            revealed sel l n (isHTMLNode n) = false.

(** The range the callback adds for a node, by kind. *)
Inductive Emitted (st : EditorState) (n : SyntaxNode) : Range -> Prop :=
| Emitted_mark :
    In (name n) ["HeaderMark"; "EmphasisMark"; "CodeMark"]%string ->
    Emitted st n {| rangeFrom := from n; rangeTo := hiddenTo (doc st) n;
                    value := replace None |}
| Emitted_bullet :
    name n = "ListMark"%string ->
    Emitted st n {| rangeFrom := from n; rangeTo := to n;
                    value := replace (Some BulletWidget) |}
| Emitted_image (url : jsstring) :
    name n = "Image"%string ->
    matchGroups reImage (sliceDoc st (from n) (to n)) = Some [[]; url] ->
    Emitted st n {| rangeFrom := from n; rangeTo := to n;
                    value := replace (Some (ImageWidget url)) |}
| Emitted_text (alt url : jsstring) :
    name n = "Image"%string ->
    matchGroups reImage (sliceDoc st (from n) (to n)) = Some [alt; url] ->
    alt <> [] ->
    Emitted st n {| rangeFrom := from n; rangeTo := to n;
                    value := replace (Some (TextWidget alt)) |}
| Emitted_html :
    In (name n) htmlKinds ->
    Emitted st n {| rangeFrom := from n; rangeTo := to n;
                    value := replace (Some (HTMLWidget
                                              (minifyHTML (sliceDoc st (from n) (to n))))) |}.

(** [es] holds, in order, the ranges added for some of the nodes of [ns]:
    each for a node that is not revealed. *)
Inductive EmittedAll (st : EditorState) (sel : SelectionRange)
  : list SyntaxNode -> list Range -> Prop :=
| EmittedAll_nil : EmittedAll st sel [] []
| EmittedAll_skip (n : SyntaxNode) (ns : list SyntaxNode) (es : list Range) :
    EmittedAll st sel ns es -> EmittedAll st sel (n :: ns) es
| EmittedAll_take (n : SyntaxNode) (ns : list SyntaxNode) (e : Range) (es : list Range) :
    hiddenNode st sel n -> Emitted st n e ->
    EmittedAll st sel ns es -> EmittedAll st sel (n :: ns) (e :: es).

(** The view with another selection. *)
Definition withSelection (v : EditorView) (sel : SelectionRange) : EditorView :=
  {| state := {| doc := doc (state v); selection := sel;
                 syntaxTree := syntaxTree (state v) |};
     visibleRanges := visibleRanges v |}.

(** A run of updates from the plugin value [this]. *)
Fixpoint updates (this : LivePreview) (us : list ViewUpdate) : option LivePreview :=
  match us with
  | [] => Some this
  | u :: us' =>
      match update this u with
      | Some next => updates next us'
      | None => None
      end
  end.

(** The view of the last update, [v0] when there is none. *)
Fixpoint lastView (v0 : EditorView) (us : list ViewUpdate) : EditorView :=
  match us with
  | [] => v0
  | u :: us' => lastView (view u) us'
  end.

(** Every update that sets none of the three flags carries the view of the
    update before it. *)
Fixpoint flagged (v0 : EditorView) (us : list ViewUpdate) : Prop :=
  match us with
  | [] => True
  | u :: us' =>
      (docChanged u || viewportChanged u || selectionSet u = false -> view u = v0)
      /\ flagged (view u) us'
  end.

(** *** Sample documents *)

Definition mkNode (k : string) (a b : nat) : SyntaxNode :=
  {| name := k; from := a; to := b |}.
Definition mkState (d : jsstring) (a b : nat) (t : Tree) : EditorState :=
  {| doc := d; selection := {| selFrom := a; selTo := b |}; syntaxTree := t |}.
Definition cursor (p : nat) : SelectionRange := {| selFrom := p; selTo := p |}.

(** [# Title] on the first line, [body] on the second. *)
Definition headingDoc : jsstring := str "# Title" ++ [LF] ++ str "body".
(** [#Title], without the space. *)
Definition tightHeadingDoc : jsstring := str "#Title" ++ [LF] ++ str "body".
(** A 30-character HTML block at offsets 10 to 40, over three lines. *)
Definition htmlDoc : jsstring :=
  str "line zero" ++ [LF] ++ str "<div>" ++ [LF] ++ str "hello, preview!!!" ++ [LF]
      ++ str "</div>" ++ [LF] ++ str "tail".

(** [![](http://x/y.png)], [![caption](http://x/y.png)], a malformed image
    and the empty image, each on the first line of a two-line document. *)
Definition imageDoc : jsstring := str "![](http://x/y.png)" ++ [LF] ++ str "body".
Definition captionDoc : jsstring := str "![caption](http://x/y.png)" ++ [LF] ++ str "body".
Definition brokenImageDoc : jsstring := str "![oops(missing-paren" ++ [LF] ++ str "body".
Definition emptyImageDoc : jsstring := str "![]()" ++ [LF] ++ str "body".

(** A heading, a paragraph with emphasis and an HTML block, seen through one
    visible range, with the cursor at [p]. *)
Definition sampleDoc : jsstring :=
  str "# Title" ++ [LF] ++ str "some *text*" ++ [LF] ++ str "<b>x</b>".
Definition sampleTree : Tree :=
  Node (mkNode "Document" 0 28)
       [ Node (mkNode "ATXHeading1" 0 7) [Node (mkNode "HeaderMark" 0 1) []];
         Node (mkNode "Paragraph" 8 19)
              [Node (mkNode "Emphasis" 13 19)
                    [Node (mkNode "EmphasisMark" 13 14) [];
                     Node (mkNode "EmphasisMark" 18 19) []]];
         Node (mkNode "HTMLBlock" 20 28) [] ].
Definition sampleView (a b : nat) : EditorView :=
  {| state := mkState sampleDoc a b sampleTree; visibleRanges := [(0, 28)] |}.


(* ================================================================== *)
(** * Properties of the matcher *)

Section Matcher.

(** A successful quantifier consumed [n >= min] characters of the class and
    then ran its continuation. *)
Lemma rep_sound (p : char -> bool) (greedy : bool) (k : jsstring -> nat -> Outcome) :
  forall (s : jsstring) (i min : nat) (r : nat * list nat),
    rep p greedy k s i min = Some r ->
    exists n, min <= n /\ n <= List.length s /\
              Forall (fun c => p c = true) (firstn n s) /\
              k (skipn n s) (i + n) = Some r.
Proof.
  induction s as [|c s IH]; intros i min r H.
  - destruct min; simpl in H; [|discriminate].
    exists 0. rewrite Nat.add_0_r. simpl.
    repeat split; auto.
    revert H. destruct greedy; [auto|]. destruct (k [] i); [auto | discriminate].
  - destruct min as [|m]; simpl in H.
    + assert (Hzero : k (c :: s) i = Some r ->
                      exists n, 0 <= n /\ n <= List.length (c :: s) /\
                                Forall (fun c => p c = true) (firstn n (c :: s)) /\
                                k (skipn n (c :: s)) (i + n) = Some r).
      { intros Hk. exists 0. rewrite Nat.add_0_r. simpl. repeat split; auto. lia. }
      assert (Hmore : p c = true -> rep p greedy k s (S i) 0 = Some r ->
                      exists n, 0 <= n /\ n <= List.length (c :: s) /\
                                Forall (fun c => p c = true) (firstn n (c :: s)) /\
                                k (skipn n (c :: s)) (i + n) = Some r).
      { intros Hp Hr. destruct (IH _ _ _ Hr) as [n [_ [Hn [Hall Hk]]]].
        exists (S n). simpl. repeat split; [lia | lia | constructor; assumption |].
        replace (i + S n) with (S i + n) by lia. exact Hk. }
      revert H. destruct greedy.
      * destruct (p c) eqn:Hp; [|auto].
        destruct (rep p true k s (S i) 0) eqn:Hr; [|auto].
        intros H. injection H as ->. auto.
      * destruct (k (c :: s) i) eqn:Hk; [intros H; injection H as ->; auto|].
        destruct (p c) eqn:Hp; [auto | discriminate].
    + revert H. destruct (p c) eqn:Hp; [|discriminate]. intros H.
      destruct (IH _ _ _ H) as [n [Hm [Hn [Hall Hk]]]].
      exists (S n). simpl. repeat split; [lia | lia | constructor; assumption |].
      replace (i + S n) with (S i + n) by lia. exact Hk.
Qed.

(** A quantifier fails when its continuation fails on every remainder; [Q]
    is any property of the input that its tails inherit. *)
Lemma rep_none (p : char -> bool) (greedy : bool) (k : jsstring -> nat -> Outcome)
      (Q : jsstring -> Prop) :
  (forall c s, Q (c :: s) -> Q s) ->
  (forall s i, Q s -> k s i = None) ->
  forall (s : jsstring) (i min : nat), Q s -> rep p greedy k s i min = None.
Proof.
  intros Htl Hk. induction s as [|c s IH]; intros i min HQ.
  - destruct min; simpl; [|reflexivity].
    rewrite (Hk _ _ HQ). destruct greedy; reflexivity.
  - pose proof (Htl _ _ HQ) as HQ'.
    destruct min; simpl.
    + rewrite (Hk _ _ HQ), (IH _ _ HQ').
      destruct greedy; destruct (p c); reflexivity.
    + rewrite (IH _ _ HQ'). destruct (p c); reflexivity.
Qed.

(** A greedy quantifier whose continuation accepts anything takes the whole
    run of the class. *)
Lemma rep_greedy_all (p : char -> bool) (caps : list nat) :
  forall (s : jsstring) (i min : nat),
    rep p true (fun _ i' => Some (i', caps)) s i min =
    if min <=? span p s then Some (i + span p s, caps) else None.
Proof.
  induction s as [|c s IH]; intros i min.
  - destruct min; simpl; [rewrite Nat.add_0_r|]; reflexivity.
  - destruct min as [|m]; simpl.
    + destruct (p c); [|rewrite Nat.add_0_r; reflexivity].
      rewrite IH. simpl. f_equal. f_equal. lia.
    + destruct (p c); [|reflexivity].
      rewrite IH. change (S m <=? S (span p s)) with (m <=? span p s).
      destruct (m <=? span p s); [|reflexivity]. f_equal. f_equal. lia.
Qed.

(** A match ends inside the input. *)
Lemma run_bounds :
  forall (atoms : Seq) (s : jsstring) (i : nat) (caps : list nat) (e : nat) (caps' : list nat),
    run atoms s i caps = Some (e, caps') -> i <= e <= i + List.length s.
Proof.
  induction atoms as [|a atoms IH]; intros s i caps e caps' H.
  - simpl in H. injection H as -> _. lia.
  - destruct a as [p | p min greedy | | | | ]; simpl in H.
    + destruct s as [|c s]; [discriminate|].
      destruct (p c); [|discriminate].
      apply IH in H. simpl. lia.
    + apply rep_sound in H. destruct H as [n [_ [Hn [_ Hk]]]].
      apply IH in Hk. rewrite length_skipn in Hk. lia.
    + destruct (i =? 0); [|discriminate]. eapply IH; eassumption.
    + destruct s; [|discriminate]. eapply IH; eassumption.
    + eapply IH; eassumption.
    + eapply IH; eassumption.
Qed.

Lemma matchAt_bounds :
  forall (re : Regex) (s : jsstring) (i e : nat) (caps : list nat),
    matchAt re s i = Some (e, caps) -> i <= e <= i + List.length s.
Proof.
  induction re as [|a re IH]; intros s i e caps H; simpl in H; [discriminate|].
  destruct (run a s i []) as [[e' caps']|] eqn:Hr.
  - injection H as -> ->. eapply run_bounds; eassumption.
  - eapply IH; eassumption.
Qed.

Lemma rejects_tail (c : char) (s : jsstring) (a : Atom) :
  rejects (c :: s) a -> rejects s a.
Proof.
  destruct a as [p | p [|m] g | | | |]; simpl; auto;
    intros H; inversion H; assumption.
Qed.

(** A sequence with an atom that no character of the input can satisfy does
    not match. *)
Lemma run_absent :
  forall (atoms : Seq) (s : jsstring) (i : nat) (caps : list nat),
    Exists (rejects s) atoms -> run atoms s i caps = None.
Proof.
  induction atoms as [|a atoms IH]; intros s i caps H.
  - inversion H.
  - assert (Htl : forall c s', Exists (rejects (c :: s')) atoms -> Exists (rejects s') atoms).
    { intros c s' Hx. eapply Exists_impl; [|exact Hx]. apply rejects_tail. }
    inversion H as [? ? Ha | ? ? Hk]; subst.
    + destruct a as [p | p [|m] g | | | |]; simpl in Ha; try contradiction.
      * destruct s as [|c s]; [reflexivity|].
        inversion Ha as [|? ? Hc _]; subst. simpl. rewrite Hc. reflexivity.
      * destruct s as [|c s]; [reflexivity|].
        inversion Ha as [|? ? Hc _]; subst. simpl. rewrite Hc. reflexivity.
    + destruct a as [p | p min g | | | |]; simpl.
      * destruct s as [|c s]; [reflexivity|].
        destruct (p c); [|reflexivity]. apply IH. eapply Htl; eassumption.
      * apply (rep_none p g _ (fun s' => Exists (rejects s') atoms)); auto.
      * destruct (i =? 0); [apply IH; assumption | reflexivity].
      * destruct s; [apply IH; assumption | reflexivity].
      * apply IH; assumption.
      * apply IH; assumption.
Qed.

Lemma matchAt_absent :
  forall (re : Regex) (s : jsstring) (i : nat),
    Forall (fun atoms => Exists (rejects s) atoms) re -> matchAt re s i = None.
Proof.
  induction re as [|a re IH]; intros s i H; simpl; [reflexivity|].
  inversion H; subst. rewrite run_absent by assumption. apply IH. assumption.
Qed.

End Matcher.

(* ================================================================== *)
(** * Properties of the replace loop *)

Section ReplaceLoop.

Variable re : Regex.
Variable f : Replacer.

Lemma substring_0 (s : jsstring) (n : nat) : substring s 0 n = firstn n s.
Proof. unfold substring. rewrite Nat.sub_0_r. reflexivity. Qed.

(** Passing over [k] characters of a match resumes the loop after them. *)
Lemma replaceFrom_skip :
  forall (k : nat) (s : jsstring) (i : nat),
    k <= List.length s ->
    replaceFrom re f s i k = replaceFrom re f (skipn k s) (i + k) 0.
Proof.
  induction k as [|k IH]; intros s i Hk.
  - rewrite Nat.add_0_r. reflexivity.
  - destruct s as [|c s]; simpl in Hk; [lia|].
    simpl. rewrite IH by lia. f_equal. lia.
Qed.

(** The loop computes the relation [Replaced]. *)
Lemma replaceFrom_Replaced :
  forall (n : nat) (s : jsstring) (i : nat),
    List.length s <= n -> Replaced re f i s (replaceFrom re f s i 0).
Proof.
  induction n as [|n IH]; intros s i Hn.
  - destruct s as [|c s]; [|simpl in Hn; lia].
    simpl. destruct (matchAt re [] i) as [[e caps]|] eqn:Hm.
    + rewrite app_nil_r. unfold substring. rewrite firstn_nil.
      eapply Replaced_end_match; eassumption.
    + apply Replaced_end; assumption.
  - destruct s as [|c s].
    + simpl. destruct (matchAt re [] i) as [[e caps]|] eqn:Hm.
      * rewrite app_nil_r. unfold substring. rewrite firstn_nil.
        eapply Replaced_end_match; eassumption.
      * apply Replaced_end; assumption.
    + simpl in Hn. cbn [replaceFrom].
      destruct (matchAt re (c :: s) i) as [[e caps]|] eqn:Hm.
      * pose proof (matchAt_bounds _ _ _ _ _ Hm) as Hb. simpl in Hb.
        destruct (Nat.leb_spec e i) as [Hle | Hlt].
        -- replace (e - i) with 0 by lia. unfold substring. simpl.
           eapply Replaced_empty; [eassumption | lia | apply IH; lia].
        -- rewrite substring_0.
           eapply Replaced_match; [eassumption | lia |].
           rewrite replaceFrom_skip by lia.
           assert (E : skipn (e - i) (c :: s) = skipn (e - i - 1) s).
           { destruct (e - i) as [|k] eqn:Ek; [lia|].
             simpl. rewrite Nat.sub_0_r. reflexivity. }
           rewrite E.
           replace (S i + (e - i - 1)) with e by lia.
           apply IH. rewrite length_skipn. lia.
      * apply Replaced_copy; [assumption | apply IH; lia].
Qed.

Lemma replaceAll_Replaced (s : jsstring) :
  Replaced re f 0 s (replaceAll re f s).
Proof.
  unfold replaceAll. apply (replaceFrom_Replaced (List.length s)). lia.
Qed.

(** Where nothing matches the loop copies its input; [Q] is a property of
    (offset, remainder) that the loop keeps while it advances. *)
Lemma replaceFrom_nomatch (Q : nat -> jsstring -> Prop) :
  (forall i s, Q i s -> matchAt re s i = None) ->
  (forall i c s, Q i (c :: s) -> Q (S i) s) ->
  forall (s : jsstring) (i : nat), Q i s -> replaceFrom re f s i 0 = s.
Proof.
  intros Hnone Hstep. induction s as [|c s IH]; intros i HQ; simpl.
  - rewrite (Hnone _ _ HQ). reflexivity.
  - rewrite (Hnone _ _ HQ). f_equal. apply IH. eapply Hstep. eassumption.
Qed.

End ReplaceLoop.

(** *** Characters of the output *)

Lemma Forall_substring (P : char -> Prop) (s : jsstring) (b e : nat) :
  Forall P s -> Forall P (substring s b e).
Proof.
  intros H. unfold substring.
  rewrite <- (firstn_skipn b s) in H. apply Forall_app in H. destruct H as [_ H].
  rewrite <- (firstn_skipn (e - b) (skipn b s)) in H. apply Forall_app in H. tauto.
Qed.

Lemma Forall_firstn_js (P : char -> Prop) (s : jsstring) (n : nat) :
  Forall P s -> Forall P (firstn n s).
Proof.
  intros H. rewrite <- (firstn_skipn n s) in H. apply Forall_app in H. tauto.
Qed.

Lemma Forall_skipn_js (P : char -> Prop) (s : jsstring) (n : nat) :
  Forall P s -> Forall P (skipn n s).
Proof.
  intros H. rewrite <- (firstn_skipn n s) in H. apply Forall_app in H. tauto.
Qed.

Lemma Forall_groups (P : char -> Prop) (s : jsstring) (i : nat) :
  Forall P s -> forall caps, Forall (Forall P) (groups s i caps).
Proof.
  intros H.
  assert (Hboth : forall caps,
             Forall (Forall P) (groups s i caps) /\
             forall b, Forall (Forall P) (groups s i (b :: caps))).
  { induction caps as [|e caps [IH1 IH2]]; simpl.
    - split; constructor.
    - split; [apply IH2|]. intros b. constructor; [|exact IH1].
      apply Forall_substring. exact H. }
  intros caps. apply Hboth.
Qed.

Section ReplaceChars.

Variable P : char -> Prop.
Variable re : Regex.
Variable f : Replacer.
Hypothesis f_keeps :
  forall m gs, Forall P m -> Forall (Forall P) gs -> Forall P (f m gs).

(** The output holds characters of the input and of the replacements only. *)
Lemma Replaced_Forall (i : nat) (s out : jsstring) :
  Replaced re f i s out -> Forall P s -> Forall P out.
Proof.
  induction 1 as [ i | i e caps Hm | i c s out Hm _ IH
                 | i e caps c s out Hm Hle _ IH
                 | i e caps c s out Hm Hlt _ IH ]; intros Hs.
  - constructor.
  - apply f_keeps; [constructor | apply Forall_groups; constructor].
  - inversion Hs; subst. constructor; auto.
  - apply Forall_app. split.
    + apply f_keeps; [constructor | apply Forall_groups; exact Hs].
    + inversion Hs; subst. constructor; auto.
  - apply Forall_app. split.
    + apply f_keeps; [apply Forall_firstn_js; exact Hs | apply Forall_groups; exact Hs].
    + apply IH. apply Forall_skipn_js. exact Hs.
Qed.

Lemma replaceAll_Forall (s : jsstring) :
  Forall P s -> Forall P (replaceAll re f s).
Proof. apply (Replaced_Forall 0). apply replaceAll_Replaced. Qed.

Lemma replaceFirstFrom_Forall :
  forall (s : jsstring) (i : nat), Forall P s -> Forall P (replaceFirstFrom re f s i).
Proof.
  induction s as [|c s IH]; intros i Hs; simpl.
  - destruct (matchAt re [] i) as [[e caps]|]; [|constructor].
    rewrite skipn_nil, app_nil_r.
    apply f_keeps; [apply Forall_substring; constructor | apply Forall_groups; constructor].
  - destruct (matchAt re (c :: s) i) as [[e caps]|].
    + apply Forall_app. split.
      * apply f_keeps; [apply Forall_substring; exact Hs | apply Forall_groups; exact Hs].
      * apply Forall_skipn_js. exact Hs.
    + inversion Hs; subst. constructor; auto.
Qed.

End ReplaceChars.

(* ================================================================== *)
(** * Whitespace *)

Lemma startsSpace_app (r x : jsstring) :
  r <> [] -> startsSpace (r ++ x) = startsSpace r.
Proof. destruct r; [contradiction | reflexivity]. Qed.

Lemma endsSpace_cons (c : char) (s : jsstring) :
  s <> [] -> endsSpace (c :: s) = endsSpace s.
Proof. destruct s; [contradiction | reflexivity]. Qed.

Lemma endsSpace_app (a b : jsstring) :
  b <> [] -> endsSpace (a ++ b) = endsSpace b.
Proof.
  intros Hb. induction a as [|c a IH]; [reflexivity|].
  simpl app. rewrite endsSpace_cons; [exact IH|].
  destruct a; simpl; [exact Hb | discriminate].
Qed.

Lemma endsSpace_rev (s : jsstring) : endsSpace s = startsSpace (rev s).
Proof.
  induction s as [|c s IH]; [reflexivity|].
  destruct s as [|c' s].
  - reflexivity.
  - rewrite endsSpace_cons by discriminate. rewrite IH.
    change (rev (c :: c' :: s)) with (rev (c' :: s) ++ [c]).
    rewrite startsSpace_app; [reflexivity|].
    simpl. destruct (rev s); discriminate.
Qed.

Lemma packed_tail (c : char) (s : jsstring) : packed (c :: s) -> packed s.
Proof. simpl. tauto. Qed.

Lemma packed_skipn (n : nat) : forall s : jsstring, packed s -> packed (skipn n s).
Proof.
  induction n as [|n IH]; intros [|c s] H; simpl; auto.
  apply IH. eapply packed_tail. eassumption.
Qed.

Lemma packed_firstn (n : nat) : forall s : jsstring, packed s -> packed (firstn n s).
Proof.
  induction n as [|n IH]; intros [|c s] H; simpl; auto.
  destruct H as [H1 H2]. split; [|apply IH; exact H2].
  intros Hc. specialize (H1 Hc).
  destruct s as [|c' s]; [destruct n; reflexivity|].
  destruct n; [reflexivity | exact H1].
Qed.

Lemma packed_app (a b : jsstring) :
  packed a -> packed b -> endsSpace a = false \/ startsSpace b = false ->
  packed (a ++ b).
Proof.
  intros Ha Hb Hj. induction a as [|c a IH]; [exact Hb|].
  destruct Ha as [Hc Ha]. simpl app. split.
  - intros Hsp. destruct a as [|c' a].
    + simpl. destruct Hj as [Hj | Hj]; [simpl in Hj; congruence | exact Hj].
    + exact (Hc Hsp).
  - apply IH; [exact Ha|].
    destruct a as [|c' a]; [|rewrite endsSpace_cons in Hj by discriminate; exact Hj].
    left. reflexivity.
Qed.

(** [trimStart] drops a prefix and [trimEnd] a suffix. *)
Lemma trimStart_skipn (s : jsstring) : exists k, trimStart s = skipn k s.
Proof.
  induction s as [|c s [k IH]]; [exists 0; reflexivity|].
  simpl. destruct (isSpace c); [exists (S k); exact IH | exists 0; reflexivity].
Qed.

Lemma trimEnd_firstn (s : jsstring) : exists k, trimEnd s = firstn k s.
Proof.
  unfold trimEnd. destruct (trimStart_skipn (rev s)) as [k Hk].
  exists (List.length s - k).
  rewrite Hk, skipn_rev, rev_involutive. reflexivity.
Qed.

Lemma startsSpace_trimStart (s : jsstring) : startsSpace (trimStart s) = false.
Proof.
  induction s as [|c s IH]; [reflexivity|].
  simpl. destruct (isSpace c) eqn:E; [exact IH | simpl; exact E].
Qed.

Lemma trimStart_id (s : jsstring) : startsSpace s = false -> trimStart s = s.
Proof. destruct s as [|c s]; simpl; [reflexivity|]. intros ->. reflexivity. Qed.

Lemma startsSpace_firstn (k : nat) (s : jsstring) :
  startsSpace s = false -> startsSpace (firstn k s) = false.
Proof. destruct k, s; simpl; auto. Qed.

Lemma trim_trimmed (s : jsstring) : trimmed (trim s).
Proof.
  unfold trimmed, trim. split.
  - destruct (trimEnd_firstn (trimStart s)) as [k ->].
    apply startsSpace_firstn. apply startsSpace_trimStart.
  - unfold trimEnd. rewrite endsSpace_rev, rev_involutive.
    apply startsSpace_trimStart.
Qed.

Lemma trim_id (s : jsstring) : trimmed s -> trim s = s.
Proof.
  intros [H1 H2]. unfold trim, trimEnd.
  rewrite (trimStart_id s H1).
  rewrite trimStart_id by (rewrite <- endsSpace_rev; exact H2).
  apply rev_involutive.
Qed.

Lemma trim_packed (s : jsstring) : packed s -> packed (trim s).
Proof.
  intros H. unfold trim.
  destruct (trimEnd_firstn (trimStart s)) as [k ->].
  destruct (trimStart_skipn s) as [j ->].
  apply packed_firstn, packed_skipn, H.
Qed.

Lemma trim_Forall (P : char -> Prop) (s : jsstring) :
  Forall P s -> Forall P (trim s).
Proof.
  intros H. unfold trim.
  destruct (trimEnd_firstn (trimStart s)) as [k ->].
  destruct (trimStart_skipn s) as [j ->].
  apply Forall_firstn_js, Forall_skipn_js, H.
Qed.

(** Two adjacent spaces are two adjacent whitespace characters. *)
Lemma packed_noSpaceRun (s : jsstring) : packed s -> noSpaceRun s.
Proof.
  intros H a b E. subst s.
  induction a as [|c a IH]; simpl in H.
  - destruct H as [H _]. specialize (H eq_refl). discriminate.
  - apply IH. tauto.
Qed.

(* ================================================================== *)
(** * The steps of the normalizer *)

(** *** Patterns that are one quantified class *)

Lemma matchAt_run_of (p : char -> bool) (min : nat) (s : jsstring) (i : nat) :
  matchAt [[Rep p min true]] s i =
  if min <=? span p s then Some (i + span p s, []) else None.
Proof.
  simpl. rewrite (rep_greedy_all p [] s i min).
  destruct (min <=? span p s); reflexivity.
Qed.

Lemma matchAt_one_of (p : char -> bool) (c : char) (s : jsstring) (i : nat) :
  matchAt [[Chr p]] (c :: s) i = if p c then Some (S i, []) else None.
Proof. simpl. destruct (p c); reflexivity. Qed.

Lemma span_skipn (s : jsstring) :
  startsSpace (skipn (span isSpace s) s) = false.
Proof.
  induction s as [|c s IH]; [reflexivity|].
  simpl. destruct (isSpace c) eqn:E; [exact IH | simpl; exact E].
Qed.

Lemma span_two (c : char) (s : jsstring) :
  2 <= span isSpace (c :: s) <-> isSpace c = true /\ startsSpace s = true.
Proof.
  simpl. destruct (isSpace c) eqn:Ec.
  - destruct s as [|c' s]; simpl.
    + split; [lia | intros [_ H]; discriminate].
    + destruct (isSpace c') eqn:Ec'; split.
      * auto.
      * lia.
      * lia.
      * intros [_ H]; discriminate.
  - split; [lia | intros [H _]; discriminate].
Qed.

(** Removing every match of a pattern that covers the class [p] leaves no
    character of [p]. *)
Lemma Replaced_removes (p : char -> bool) (re : Regex) :
  (forall c s i, matchAt re (c :: s) i = None -> p c = false) ->
  (forall s i e caps, matchAt re s i = Some (e, caps) -> i < e) ->
  forall i s out,
    Replaced re (const "") i s out -> Forall (fun c => p c = false) out.
Proof.
  intros Hcov Hne. induction 1 as [ i | i e caps Hm | i c s out Hm _ IH
                                   | i e caps c s out Hm Hle _ IH
                                   | i e caps c s out Hm Hlt _ IH ].
  - constructor.
  - constructor.
  - constructor; [eapply Hcov; eassumption | exact IH].
  - apply Hne in Hm. lia.
  - exact IH.
Qed.

Lemma strip_runs (p : char -> bool) (s : jsstring) :
  Forall (fun c => p c = false) (replaceAll [[Rep p 1 true]] (const "") s).
Proof.
  apply (Replaced_removes p [[Rep p 1 true]]) with (i := 0) (s := s).
  - intros c s' i. rewrite matchAt_run_of. simpl.
    destruct (p c); simpl; [discriminate | reflexivity].
  - intros s' i e caps. rewrite matchAt_run_of.
    destruct (Nat.leb_spec 1 (span p s')) as [Hsp | Hsp]; [|discriminate].
    intros Hm. injection Hm as <- _. lia.
  - apply replaceAll_Replaced.
Qed.

Lemma strip_chars (p : char -> bool) (s : jsstring) :
  Forall (fun c => p c = false) (replaceAll [[Chr p]] (const "") s).
Proof.
  apply (Replaced_removes p [[Chr p]]) with (i := 0) (s := s).
  - intros c s' i. rewrite matchAt_one_of.
    destruct (p c); [discriminate | reflexivity].
  - intros [|c s'] i e caps; [discriminate|].
    rewrite matchAt_one_of.
    destruct (p c); [|discriminate].
    intros H. injection H as <- _. lia.
  - apply replaceAll_Replaced.
Qed.

(** Replacing every run of two or more whitespace characters by one space
    leaves no two adjacent whitespace characters. *)
Lemma Replaced_collapse :
  forall i s out,
    Replaced reSpaces (const " ") i s out ->
    packed out /\ (startsSpace out = true -> startsSpace s = true).
Proof.
  induction 1 as [ i | i e caps Hm | i c s out Hm _ IH
                 | i e caps c s out Hm Hle _ IH
                 | i e caps c s out Hm Hlt _ IH ].
  - split; [exact I | discriminate].
  - discriminate.
  - unfold reSpaces in Hm. rewrite matchAt_run_of in Hm.
    destruct IH as [IH1 IH2]. split; [|auto].
    split; [|exact IH1].
    intros Hc. destruct (startsSpace out) eqn:Eo; [|reflexivity].
    exfalso. specialize (IH2 eq_refl).
    revert Hm. destruct (2 <=? span isSpace (c :: s)) eqn:E; [discriminate|].
    intros _. apply Nat.leb_gt in E.
    apply (proj1 (Nat.lt_nge _ _) E). apply span_two. auto.
  - unfold reSpaces in Hm. rewrite matchAt_run_of in Hm.
    revert Hm. destruct (2 <=? span isSpace (c :: s)) eqn:E; [|discriminate].
    apply Nat.leb_le in E.
    intros Hm. assert (He : e = i + span isSpace (c :: s)) by congruence. lia.
  - unfold reSpaces in Hm. rewrite matchAt_run_of in Hm.
    revert Hm. destruct (2 <=? span isSpace (c :: s)) eqn:Hsp; [|discriminate].
    apply Nat.leb_le in Hsp.
    intros Hm. assert (He : e - i = span isSpace (c :: s)).
    { assert (e = i + span isSpace (c :: s)) by congruence. lia. }
    rewrite He in *.
    destruct IH as [IH1 IH2].
    assert (Ho : startsSpace out = false).
    { destruct (startsSpace out); [|reflexivity].
      rewrite span_skipn in IH2. symmetry. exact (IH2 eq_refl). }
    change (const " " _ _ ++ out) with (SPACE :: out).
    split.
    + split; [intros _; exact Ho | exact IH1].
    + intros _. apply span_two in Hsp. simpl. tauto.
Qed.

Lemma collapse_packed (s : jsstring) :
  packed (replaceAll reSpaces (const " ") s).
Proof. apply (Replaced_collapse 0 s). apply replaceAll_Replaced. Qed.

(** *** Replacements that keep the text packed *)

Section ReplacePacked.

Variable re : Regex.
Variable f : Replacer.
Hypothesis f_solid :
  forall s i e caps,
    packed s -> matchAt re s i = Some (e, caps) ->
    solid (f (firstn (e - i) s) (groups s i caps)).

Lemma Replaced_packed :
  forall i s out,
    Replaced re f i s out -> packed s ->
    packed out /\ (startsSpace out = true -> startsSpace s = true).
Proof.
  induction 1 as [ i | i e caps Hm | i c s out Hm _ IH
                 | i e caps c s out Hm Hle _ IH
                 | i e caps c s out Hm Hlt _ IH ]; intros Hs.
  - split; [exact I | discriminate].
  - destruct (f_solid [] i e caps I Hm) as (_ & Hp & Hst & _).
    rewrite firstn_nil in Hp, Hst. split; [exact Hp | congruence].
  - destruct (IH (packed_tail _ _ Hs)) as [IH1 IH2]. split; [|auto].
    split; [|exact IH1].
    intros Hc. destruct (startsSpace out) eqn:Eo; [|reflexivity].
    destruct Hs as [Hs _]. rewrite (Hs Hc) in IH2. symmetry. exact (IH2 eq_refl).
  - destruct (f_solid (c :: s) i e caps Hs Hm) as (Hne & Hp & Hst & Hen).
    replace (e - i) with 0 in * by lia. simpl firstn in *.
    destruct (IH (packed_tail _ _ Hs)) as [IH1 IH2]. split.
    + apply packed_app; [exact Hp | | left; exact Hen].
      split; [|exact IH1].
      intros Hc. destruct (startsSpace out) eqn:Eo; [|reflexivity].
      destruct Hs as [Hs _]. rewrite (Hs Hc) in IH2. symmetry. exact (IH2 eq_refl).
    + rewrite startsSpace_app by exact Hne. congruence.
  - destruct (f_solid (c :: s) i e caps Hs Hm) as (Hne & Hp & Hst & Hen).
    destruct (IH (packed_skipn _ _ Hs)) as [IH1 IH2]. split.
    + apply packed_app; [exact Hp | exact IH1 | left; exact Hen].
    + rewrite startsSpace_app by exact Hne. congruence.
Qed.

Lemma replaceAll_packed (s : jsstring) :
  packed s -> packed (replaceAll re f s).
Proof.
  intros Hs. apply (Replaced_packed 0 s); [apply replaceAll_Replaced | exact Hs].
Qed.

End ReplacePacked.

(** *** The replacements of the normalizer keep the text on one line *)

Lemma Keeps_const (P : char -> Prop) (r : string) :
  Forall P (str r) -> Keeps P (const r).
Proof. intros H m gs _ _. exact H. Qed.

Lemma Forall_group1 (P : char -> Prop) (gs : list jsstring) :
  Forall (Forall P) gs -> Forall P (group1 gs).
Proof.
  intros H. unfold group1. destruct gs as [|g gs]; simpl; [constructor|].
  inversion H; assumption.
Qed.

Ltac no_ctl := repeat constructor; unfold noCtl; repeat split; discriminate.

Lemma minifyCSS_singleLine (css : jsstring) :
  singleLine css -> singleLine (minifyCSS css).
Proof.
  intros H. unfold minifyCSS, singleLine.
  apply trim_Forall.
  repeat (apply replaceAll_Forall; [apply Keeps_const; no_ctl|]).
  exact H.
Qed.

Lemma minifyStyle_singleLine (style : jsstring) :
  singleLine style -> singleLine (minifyStyle style).
Proof.
  intros H. unfold minifyStyle, singleLine.
  apply trim_Forall.
  apply replaceAll_Forall; [apply Keeps_const; no_ctl|].
  apply replaceFirstFrom_Forall; [apply Keeps_const; no_ctl|].
  repeat (apply replaceAll_Forall; [apply Keeps_const; no_ctl|]).
  exact H.
Qed.

Lemma Keeps_styleTag : Keeps noCtl styleTagReplacer.
Proof.
  intros m gs _ Hgs. unfold styleTagReplacer.
  apply Forall_app. split; [no_ctl|].
  apply Forall_app. split; [|no_ctl].
  apply minifyCSS_singleLine. apply Forall_group1. exact Hgs.
Qed.

Lemma Keeps_styleAttr : Keeps noCtl styleAttrReplacer.
Proof.
  intros m gs _ Hgs. unfold styleAttrReplacer.
  apply Forall_app. split; [no_ctl|].
  apply Forall_app. split; [no_ctl|].
  apply Forall_app. split; [|no_ctl].
  apply minifyStyle_singleLine. apply Forall_group1. exact Hgs.
Qed.

Lemma Keeps_unquote : Keeps noCtl unquoteReplacer.
Proof.
  intros m gs _ Hgs. unfold unquoteReplacer.
  apply Forall_app. split; [no_ctl|].
  apply Forall_group1. exact Hgs.
Qed.

Lemma stripped_noCtl (s : jsstring) :
  Forall (fun c => oneOf [CR; LF] c = false) s ->
  Forall (fun c => only TAB c = false) s ->
  singleLine s.
Proof.
  intros H1 H2. unfold singleLine. rewrite Forall_forall in *.
  intros c Hc. specialize (H1 c Hc). specialize (H2 c Hc).
  unfold oneOf, only in *. simpl in H1.
  unfold noCtl. repeat split; intros ->; discriminate.
Qed.

(** *** The replacements after the collapse keep the text packed *)

Lemma solid_wrap (a x b : jsstring) :
  solid a -> solid b -> packed x -> solid (a ++ x ++ b).
Proof.
  intros (Ha & Hpa & Hsa & Hea) (Hb & Hpb & Hsb & Heb) Hx.
  unfold solid. repeat split.
  - destruct a; [contradiction | discriminate].
  - apply packed_app; [exact Hpa | | left; exact Hea].
    apply packed_app; [exact Hx | exact Hpb | right; exact Hsb].
  - rewrite startsSpace_app by exact Ha. exact Hsa.
  - rewrite endsSpace_app.
    + rewrite endsSpace_app by exact Hb. exact Heb.
    + destruct x; simpl; [exact Hb | discriminate].
Qed.

Lemma solid_nospace (r : jsstring) :
  r <> [] -> Forall (fun c => isSpace c = false) r -> solid r.
Proof.
  intros Hne H. unfold solid. split; [exact Hne|].
  induction H as [|c r Hc Hr IH]; [contradiction|].
  destruct r as [|c' r].
  - simpl. repeat split; auto; congruence.
  - destruct IH as (IH1 & IH2 & IH3); [discriminate|].
    simpl packed. simpl startsSpace.
    rewrite endsSpace_cons by discriminate.
    repeat split; auto; simpl in *; try tauto; congruence.
Qed.

Ltac solid_const :=
  apply solid_nospace; [discriminate | repeat constructor].

Lemma minifyCSS_packed (css : jsstring) : packed (minifyCSS css).
Proof. unfold minifyCSS. apply trim_packed, collapse_packed. Qed.

Lemma minifyStyle_packed (style : jsstring) : packed (minifyStyle style).
Proof. unfold minifyStyle. apply trim_packed, collapse_packed. Qed.

Lemma solid_styleTag (m : jsstring) (gs : list jsstring) :
  solid (styleTagReplacer m gs).
Proof.
  unfold styleTagReplacer.
  apply solid_wrap; [solid_const | solid_const | apply minifyCSS_packed].
Qed.

Lemma solid_styleAttr (m : jsstring) (gs : list jsstring) :
  solid (styleAttrReplacer m gs).
Proof.
  unfold styleAttrReplacer.
  change (str "style=" ++ [QUOT] ++ minifyStyle (group1 gs) ++ [QUOT])
    with ((str "style=" ++ [QUOT]) ++ minifyStyle (group1 gs) ++ [QUOT]).
  apply solid_wrap; [solid_const | solid_const | apply minifyStyle_packed].
Qed.

Lemma groups_one (s : jsstring) (i a n : nat) :
  groups s i [i + a; i + a + n] = [firstn n (skipn a s)].
Proof.
  cbn [groups]. unfold substring.
  replace (i + a - i) with a by lia.
  replace (i + a + n - i - a) with n by lia.
  reflexivity.
Qed.

(** A match of a pattern of the shape [a q (p+) q] records its group
    around characters of the class [p]. *)
Lemma run_quoted (a q1 p q2 : char -> bool) (s : jsstring) (i e : nat) (caps : list nat) :
  run [Chr a; Chr q1; GroupOpen; Rep p 1 true; GroupClose; Chr q2] s i [] = Some (e, caps) ->
  exists g, groups s i caps = [g] /\ Forall (fun c => p c = true) g.
Proof.
  intros H.
  destruct s as [|c0 [|c1 s]]; simpl in H; try discriminate.
  { destruct (a c0); discriminate. }
  destruct (a c0); [|discriminate]. destruct (q1 c1); [|discriminate].
  apply rep_sound in H. destruct H as (n & _ & Hn & Hall & Hk).
  simpl in Hk. destruct (skipn n s) as [|c2 r]; [discriminate|].
  destruct (q2 c2); [|discriminate].
  injection Hk as _ <-.
  exists (firstn n s). split; [|exact Hall].
  change [firstn n s] with [firstn n (skipn 2 (c0 :: c1 :: s))].
  rewrite <- (groups_one (c0 :: c1 :: s) i 2 n).
  f_equal. simpl. repeat f_equal; lia.
Qed.

Lemma simple_not_space (c : char) : isSimple c = true -> isSpace c = false.
Proof.
  unfold isSimple, isSpace, between, only. intros H.
  repeat (apply orb_true_iff in H; destruct H as [H | H]);
    repeat match goal with
           | H : (_ && _)%bool = true |- _ => apply andb_true_iff in H; destruct H
           | H : (_ <=? _)%N = true |- _ => apply N.leb_le in H
           | H : (_ =? _)%N = true |- _ => apply N.eqb_eq in H
           end;
    repeat match goal with
           | |- (_ || _)%bool = false => apply orb_false_iff; split
           | |- (_ && _)%bool = false => apply andb_false_iff
           | |- (_ =? _)%N = false => apply N.eqb_neq; lia
           end;
    try (left; apply N.leb_gt; lia).
Qed.

Lemma solid_unquote (s : jsstring) (i e : nat) (caps : list nat) :
  matchAt reQuoted s i = Some (e, caps) ->
  solid (unquoteReplacer (firstn (e - i) s) (groups s i caps)).
Proof.
  intros H. unfold reQuoted in H. simpl matchAt in H.
  match type of H with
  | match ?r with _ => _ end = _ => destruct r as [[e' caps']|] eqn:Hr; [|discriminate]
  end.
  injection H as -> ->.
  apply run_quoted in Hr. destruct Hr as [g [-> Hg]].
  unfold unquoteReplacer, group1. simpl nth.
  apply solid_nospace; [discriminate|].
  constructor; [reflexivity|].
  eapply Forall_impl; [|exact Hg]. apply simple_not_space.
Qed.

(* ================================================================== *)
(** * Properties of the normalizer *)

(** The output is on one line, trimmed, and has no two adjacent whitespace
    characters. *)
Lemma minifyHTML_normal (html : jsstring) :
  singleLine (minifyHTML html) /\
  trimmed (minifyHTML html) /\
  packed (minifyHTML html).
Proof.
  unfold minifyHTML. split; [|split].
  - apply trim_Forall.
    apply replaceAll_Forall; [apply Keeps_const; no_ctl|].
    apply replaceAll_Forall; [apply Keeps_unquote|].
    apply replaceAll_Forall; [apply Keeps_styleAttr|].
    apply replaceAll_Forall; [apply Keeps_styleTag|].
    do 6 (apply replaceAll_Forall; [apply Keeps_const; no_ctl|]).
    apply stripped_noCtl.
    + apply replaceAll_Forall; [apply Keeps_const; constructor|].
      apply strip_runs.
    + apply strip_chars.
  - apply trim_trimmed.
  - apply trim_packed.
    apply replaceAll_packed; [intros; solid_const|].
    apply replaceAll_packed; [intros; apply solid_unquote; assumption|].
    apply replaceAll_packed; [intros; apply solid_styleAttr|].
    apply replaceAll_packed; [intros; apply solid_styleTag|].
    apply replaceAll_packed; [intros; solid_const|].
    apply replaceAll_packed; [intros; solid_const|].
    apply replaceAll_packed; [intros; solid_const|].
    apply collapse_packed.
Qed.

(** C8 (single-line, whitespace-minimized output).  For every input, the
    output of [minifyHTML] holds no newline, carriage return or tab, has no
    leading and no trailing whitespace, and holds no two consecutive
    spaces. *)
Theorem C8_output_single_line_and_minimal (html : jsstring) :
  singleLine (minifyHTML html) /\
  trimmed (minifyHTML html) /\
  noSpaceRun (minifyHTML html).
Proof.
  destruct (minifyHTML_normal html) as (H1 & H2 & H3).
  split; [exact H1|]. split; [exact H2|].
  apply packed_noSpaceRun. exact H3.
Qed.

(** *** Fixed points *)

(** A pattern that needs a character the text does not hold changes
    nothing. *)
Lemma replaceAll_absent (re : Regex) (f : Replacer) (s : jsstring) :
  Forall (fun atoms => Exists (rejects s) atoms) re -> replaceAll re f s = s.
Proof.
  intros H. unfold replaceAll.
  apply (replaceFrom_nomatch re f
           (fun _ s' => Forall (fun atoms => Exists (rejects s') atoms) re)).
  - intros i s' Hs. apply matchAt_absent. exact Hs.
  - intros i c s' Hs. eapply Forall_impl; [|exact Hs].
    intros atoms Hx. eapply Exists_impl; [|exact Hx]. apply rejects_tail.
  - exact H.
Qed.

Lemma all_space_ends (s : jsstring) :
  s <> [] -> Forall (fun c => isSpace c = true) s -> endsSpace s = true.
Proof.
  intros Hne H. induction H as [|c s Hc _ IH]; [contradiction|].
  destruct s as [|c' s]; [exact Hc|].
  rewrite endsSpace_cons by discriminate. apply IH. discriminate.
Qed.

Lemma run_leading_none (s : jsstring) (i : nat) :
  (i = 0 -> startsSpace s = false) ->
  run [Bos; Rep isSpace 1 true] s i [] = None.
Proof.
  intros H0. cbn [run].
  destruct (Nat.eqb_spec i 0) as [-> | Hi]; [|reflexivity].
  specialize (H0 eq_refl). destruct s as [|c s]; [reflexivity|].
  simpl in H0. simpl. rewrite H0. reflexivity.
Qed.

Lemma run_trailing_none (s : jsstring) (i : nat) :
  endsSpace s = false ->
  run [Rep isSpace 1 true; Eos] s i [] = None.
Proof.
  intros He.
  destruct (run [Rep isSpace 1 true; Eos] s i []) as [r|] eqn:Hr; [|reflexivity].
  exfalso. cbn [run] in Hr.
  apply rep_sound in Hr. destruct Hr as (n & Hn & Hlen & Hall & Hk).
  destruct (skipn n s) as [|c r'] eqn:Hsk; [|discriminate].
  assert (Hfull : firstn n s = s).
  { rewrite <- (firstn_skipn n s) at 2. rewrite Hsk, app_nil_r. reflexivity. }
  rewrite Hfull in Hall.
  rewrite all_space_ends in He; [discriminate | | exact Hall].
  destruct s; [simpl in Hlen; lia | discriminate].
Qed.

(** Trimming the edges of a trimmed text changes nothing. *)
Lemma replaceAll_edges (f : Replacer) (s : jsstring) :
  trimmed s -> replaceAll reEdges f s = s.
Proof.
  intros [Hst Hen]. unfold replaceAll.
  apply (replaceFrom_nomatch reEdges f
           (fun i s' => (i = 0 -> startsSpace s' = false) /\ endsSpace s' = false)).
  - intros i s' [H0 He]. unfold reEdges. cbn [matchAt].
    rewrite (run_leading_none s' i H0), (run_trailing_none s' i He). reflexivity.
  - intros i c s' [_ He]. split; [lia|].
    destruct s' as [|c' s']; [reflexivity|].
    rewrite endsSpace_cons in He by discriminate. exact He.
  - split; [intros _; exact Hst | exact Hen].
Qed.

(** Collapsing the whitespace of a packed text changes nothing. *)
Lemma replaceAll_spaces (f : Replacer) (s : jsstring) :
  packed s -> replaceAll reSpaces f s = s.
Proof.
  intros H. unfold replaceAll.
  apply (replaceFrom_nomatch reSpaces f (fun _ s' => packed s')).
  - intros i s' Hs. unfold reSpaces. rewrite matchAt_run_of.
    destruct (Nat.leb_spec 2 (span isSpace s')) as [Hsp | Hsp]; [|reflexivity].
    exfalso. destruct s' as [|c s']; [simpl in Hsp; lia|].
    apply span_two in Hsp. destruct Hsp as [Hc Hs']. destruct Hs as [Hs _].
    rewrite (Hs Hc) in Hs'. discriminate.
  - intros i c s'. apply packed_tail.
  - exact H.
Qed.

(** Evaluate the constant parts of a character class. *)
Ltac eval_class :=
  unfold only, isNoCase, oneOf, noneOf, existsb;
  repeat match goal with
         | |- context [N_of_ascii ?a] =>
             let v := eval vm_compute in (N_of_ascii a) in
             change (N_of_ascii a) with v
         end;
  repeat match goal with
         | |- context [between ?lo ?hi ?k] =>
             let v := eval vm_compute in (between lo hi k) in
             change (between lo hi k) with v
         end;
  cbv iota.

(** Prove that a class holds none of the characters of a text, from
    [H : Forall (fun c => A c /\ isMarkup c = false) s], where [A] is
    [noCtl] or says nothing. *)
Ltac class_absent H :=
  eapply Forall_impl; [|exact H];
  let c := fresh "c" in
  let Hc := fresh "Hc" in
  intros c Hc; destruct Hc as [Hctl Hc];
  match type of Hctl with
  | noCtl _ => destruct Hctl as [? [? ?]]
  | _ => idtac
  end;
  unfold isMarkup, oneOf, existsb in Hc;
  repeat (apply orb_false_iff in Hc; destruct Hc as [? Hc]);
  repeat match goal with
         | H : (_ =? _)%N = false |- _ => apply N.eqb_neq in H
         end;
  eval_class;
  repeat match goal with
         | |- context [N.eqb ?a ?b] =>
             destruct (N.eqb_spec a b); [subst; congruence|]
         end;
  reflexivity.

(** Find, in a one-alternative pattern, an atom that the text rejects. *)
Ltac some_atom_rejects H :=
  apply Forall_cons; [|apply Forall_nil];
  cbv [lit litNoCase str map list_ascii_of_string app spacesAround];
  repeat first [ solve [apply Exists_cons_hd; cbv [rejects]; class_absent H]
               | apply Exists_cons_tl ].

(** A text in normal form without [<], [>] and [=] is a fixed point. *)
Lemma minifyHTML_fixed (y : jsstring) :
  singleLine y -> trimmed y -> packed y -> plainText y -> minifyHTML y = y.
Proof.
  intros Hline Htrim Hpack Hplain.
  assert (H : Forall (fun c => noCtl c /\ isMarkup c = false) y).
  { unfold singleLine, plainText in *. rewrite Forall_forall in *. auto. }
  unfold minifyHTML.
  rewrite (replaceAll_absent reComment) by (unfold reComment; some_atom_rejects H).
  rewrite (replaceAll_absent reNewlines) by (unfold reNewlines; some_atom_rejects H).
  rewrite (replaceAll_absent reTab) by (unfold reTab; some_atom_rejects H).
  rewrite (replaceAll_absent reBetweenTags) by (unfold reBetweenTags; some_atom_rejects H).
  rewrite (replaceAll_edges _ y Htrim).
  rewrite (replaceAll_spaces _ y Hpack).
  rewrite (replaceAll_absent (spacesAround "=")) by (unfold spacesAround; some_atom_rejects H).
  rewrite (replaceAll_absent (spacesAround "<")) by (unfold spacesAround; some_atom_rejects H).
  rewrite (replaceAll_absent (spacesAround ">")) by (unfold spacesAround; some_atom_rejects H).
  rewrite (replaceAll_absent reStyleTag) by (unfold reStyleTag; some_atom_rejects H).
  rewrite (replaceAll_absent reStyleAttr) by (unfold reStyleAttr; some_atom_rejects H).
  rewrite (replaceAll_absent reQuoted) by (unfold reQuoted; some_atom_rejects H).
  rewrite (replaceAll_absent reSelfClose) by (unfold reSelfClose; some_atom_rejects H).
  apply trim_id. exact Htrim.
Qed.

(** A text without [<], [>] and [=] is normalized by the whitespace steps
    alone, and its normal form holds none of them either. *)
Lemma minifyHTML_plain (x : jsstring) :
  plainText x -> plainText (minifyHTML x).
Proof.
  intros Hx. unfold minifyHTML.
  assert (H0 : Forall (fun c => True /\ isMarkup c = false) x).
  { eapply Forall_impl; [|exact Hx]. auto. }
  rewrite (replaceAll_absent reComment) by (unfold reComment; some_atom_rejects H0).
  set (s3 := replaceAll reTab (const "") (replaceAll reNewlines (const "") x)).
  assert (H3 : Forall (fun c => noCtl c /\ isMarkup c = false) s3).
  { assert (Hl : singleLine s3).
    { apply stripped_noCtl; [|apply strip_chars].
      apply replaceAll_Forall; [apply Keeps_const; constructor | apply strip_runs]. }
    assert (Hp : plainText s3).
    { unfold s3, plainText.
      do 2 (apply replaceAll_Forall; [apply Keeps_const; constructor|]). exact Hx. }
    unfold singleLine, plainText in *. rewrite Forall_forall in *. auto. }
  rewrite (replaceAll_absent reBetweenTags) by (unfold reBetweenTags; some_atom_rejects H3).
  set (s6 := replaceAll reSpaces (const " ") (replaceAll reEdges (const "") s3)).
  assert (H6 : Forall (fun c => noCtl c /\ isMarkup c = false) s6).
  { unfold s6.
    apply replaceAll_Forall;
      [apply Keeps_const; repeat constructor; unfold noCtl; repeat split; discriminate|].
    apply replaceAll_Forall; [apply Keeps_const; constructor | exact H3]. }
  rewrite (replaceAll_absent (spacesAround "=")) by (unfold spacesAround; some_atom_rejects H6).
  rewrite (replaceAll_absent (spacesAround "<")) by (unfold spacesAround; some_atom_rejects H6).
  rewrite (replaceAll_absent (spacesAround ">")) by (unfold spacesAround; some_atom_rejects H6).
  rewrite (replaceAll_absent reStyleTag) by (unfold reStyleTag; some_atom_rejects H6).
  rewrite (replaceAll_absent reStyleAttr) by (unfold reStyleAttr; some_atom_rejects H6).
  rewrite (replaceAll_absent reQuoted) by (unfold reQuoted; some_atom_rejects H6).
  rewrite (replaceAll_absent reSelfClose) by (unfold reSelfClose; some_atom_rejects H6).
  apply trim_Forall. eapply Forall_impl; [|exact H6]. intros c [_ Hc]. exact Hc.
Qed.


(** Two more ways a second pass still finds work: a tab that hid a comment
    opener, and a CSS comment that kept a space next to [=]. *)
Example second_pass_after_tab :
  minifyHTML (str "<" ++ [TAB] ++ str "!--x-->") = str "<!--x-->" /\
  minifyHTML (str "<!--x-->") = [].
Proof. split; vm_compute; reflexivity. Qed.

Example second_pass_in_style :
  minifyHTML (str "<style>a=/**/ b</style>") = str "<style>a= b</style>" /\
  minifyHTML (str "<style>a= b</style>") = str "<style>a=b</style>".
Proof. split; vm_compute; reflexivity. Qed.

(** The inline style step removes one trailing semicolon per pass. *)
Example second_pass_in_style_attribute :
  let x := str "<a style=" ++ [QUOT] ++ str "b:c;;" ++ [QUOT] ++ str ">" in
  minifyHTML x = str "<a style=" ++ [QUOT] ++ str "b:c;" ++ [QUOT] ++ str ">" /\
  minifyHTML (minifyHTML x) = str "<a style=" ++ [QUOT] ++ str "b:c" ++ [QUOT] ++ str ">".
Proof. split; vm_compute; reflexivity. Qed.

(** In particular idempotence holds on inputs without [<], [>] and [=]. *)
Corollary minifyHTML_idempotent_on_plain_input (x : jsstring) :
  plainText x -> minifyHTML (minifyHTML x) = minifyHTML x.
Proof.
  intros Hx.
  destruct (minifyHTML_normal x) as (H1 & H2 & H3).
  apply minifyHTML_fixed; try assumption.
  apply minifyHTML_plain. exact Hx.
Qed.

(* ================================================================== *)
(** * The image pattern *)

Lemma reImage_atoms :
  reImage =
  [ [Bos; Chr (only 33%N); Chr (only 91%N);
     GroupOpen; Rep dot 0 false; GroupClose;
     Chr (only 93%N); Chr (only 40%N);
     GroupOpen; Rep dot 0 false; GroupClose;
     Chr (only 41%N); Eos] ].
Proof. reflexivity. Qed.

Lemma substring_at (s pre mid post : jsstring) (b e : nat) :
  s = pre ++ mid ++ post ->
  b = List.length pre -> e = List.length pre + List.length mid ->
  substring s b e = mid.
Proof.
  intros -> -> ->. unfold substring.
  rewrite skipn_app, skipn_all, Nat.sub_diag. simpl.
  replace (List.length pre + List.length mid - List.length pre)
    with (List.length mid) by lia.
  rewrite firstn_app, firstn_all, Nat.sub_diag. simpl. apply app_nil_r.
Qed.

(** The pattern is anchored: it can only match at offset 0. *)
Lemma exec_image_later (s : jsstring) (i : nat) : exec reImage s (S i) = None.
Proof.
  revert i. induction s as [|c s IH]; intros i.
  - reflexivity.
  - cbn [exec]. rewrite reImage_atoms. cbn [matchAt run Nat.eqb].
    rewrite <- reImage_atoms. apply IH.
Qed.

(** A text that matches the image pattern is [![alt](url)], where [alt] and
    [url] are the two groups and hold no line terminator. *)
Lemma image_match_shape (text : jsstring) (m : list jsstring) :
  matchGroups reImage text = Some m ->
  exists alt url,
    m = [alt; url] /\
    text = str "![" ++ alt ++ str "](" ++ url ++ str ")" /\
    Forall (fun c => dot c = true) alt /\ Forall (fun c => dot c = true) url.
Proof.
  unfold matchGroups. intros H.
  assert (Hat : exists e caps, matchAt reImage text 0 = Some (e, caps) /\
                               m = groups text 0 caps).
  { destruct text as [|c text]; cbn [exec] in H.
    - destruct (matchAt reImage [] 0) as [[e caps]|]; [|discriminate].
      injection H as <-. eauto.
    - destruct (matchAt reImage (c :: text) 0) as [[e caps]|].
      + injection H as <-. eauto.
      + rewrite exec_image_later in H. discriminate. }
  clear H. destruct Hat as (e & caps & H & ->).
  rewrite reImage_atoms in H. cbn [matchAt] in H.
  match type of H with
  | match ?r with _ => _ end = _ => destruct r as [[e' caps']|] eqn:Hr; [|discriminate]
  end.
  injection H as -> ->.
  cbn [run Nat.eqb] in Hr.
  destruct text as [|c0 [|c1 s1]]; try discriminate.
  { destruct (only 33%N c0); discriminate. }
  destruct (only 33%N c0) eqn:E0; [|discriminate].
  destruct (only 91%N c1) eqn:E1; [|discriminate].
  apply N.eqb_eq in E0, E1. subst c0 c1.
  apply rep_sound in Hr. destruct Hr as (n1 & _ & Hn1 & Hall1 & Hk1).
  cbn [run app] in Hk1.
  destruct (skipn n1 s1) as [|c2 [|c3 s2]] eqn:Hs1; try discriminate.
  { destruct (only 93%N c2); discriminate. }
  destruct (only 93%N c2) eqn:E2; [|discriminate].
  destruct (only 40%N c3) eqn:E3; [|discriminate].
  apply N.eqb_eq in E2, E3. subst c2 c3.
  apply rep_sound in Hk1. destruct Hk1 as (n2 & _ & Hn2 & Hall2 & Hk2).
  cbn [run app] in Hk2.
  destruct (skipn n2 s2) as [|c4 [|c5 s3]] eqn:Hs2; try discriminate.
  2:{ destruct (only 41%N c4); discriminate. }
  destruct (only 41%N c4) eqn:E4; [|discriminate].
  apply N.eqb_eq in E4. subst c4.
  injection Hk2 as _ <-.
  assert (Htext : 33%N :: 91%N :: s1 =
                  str "![" ++ firstn n1 s1 ++ str "](" ++ firstn n2 s2 ++ str ")").
  { rewrite <- (firstn_skipn n1 s1) at 1. rewrite Hs1.
    rewrite <- (firstn_skipn n2 s2) at 1. rewrite Hs2.
    reflexivity. }
  assert (Hl1 : List.length (firstn n1 s1) = n1) by (rewrite length_firstn; lia).
  assert (Hl2 : List.length (firstn n2 s2) = n2) by (rewrite length_firstn; lia).
  exists (firstn n1 s1), (firstn n2 s2). repeat split; try assumption.
  cbn [groups]. f_equal; [|f_equal].
  - apply (substring_at _ (str "![") _ (str "](" ++ firstn n2 s2 ++ str ")"));
      [exact Htext | simpl; lia | rewrite Hl1; simpl; lia].
  - apply (substring_at _ (str "![" ++ firstn n1 s1 ++ str "](") _ (str ")")).
    + rewrite Htext at 1. rewrite <- !app_assoc. reflexivity.
    + rewrite !length_app, Hl1. simpl. lia.
    + rewrite !length_app, Hl1, Hl2. simpl. lia.
Qed.

(** The matcher, one atom at a time. *)
Lemma run_bos (k : Seq) (s : jsstring) (caps : list nat) :
  run (Bos :: k) s 0 caps = run k s 0 caps.
Proof. reflexivity. Qed.

Lemma run_chr (p : char -> bool) (k : Seq) (c : char) (s : jsstring)
      (i : nat) (caps : list nat) :
  run (Chr p :: k) (c :: s) i caps = if p c then run k s (S i) caps else None.
Proof. reflexivity. Qed.

Lemma run_group_open (k : Seq) (s : jsstring) (i : nat) (caps : list nat) :
  run (GroupOpen :: k) s i caps = run k s i (caps ++ [i]).
Proof. reflexivity. Qed.

Lemma run_group_close (k : Seq) (s : jsstring) (i : nat) (caps : list nat) :
  run (GroupClose :: k) s i caps = run k s i (caps ++ [i]).
Proof. reflexivity. Qed.

Lemma run_rep (p : char -> bool) (min : nat) (greedy : bool) (k : Seq)
      (s : jsstring) (i : nat) (caps : list nat) :
  run (Rep p min greedy :: k) s i caps =
  rep p greedy (fun s' i' => run k s' i' caps) s i min.
Proof. reflexivity. Qed.

(** A lazy quantifier stops at the first offset where its continuation
    succeeds. *)
Lemma rep_lazy_first (p : char -> bool) (k : jsstring -> nat -> Outcome) :
  forall (pre s : jsstring) (i : nat) (r : nat * list nat),
    Forall (fun c => p c = true) pre ->
    (forall j, j < List.length pre -> k (skipn j (pre ++ s)) (i + j) = None) ->
    k s (i + List.length pre) = Some r ->
    rep p false k (pre ++ s) i 0 = Some r.
Proof.
  induction pre as [|c pre IH]; intros s i r Hall Hnone Hk.
  - simpl in Hk. rewrite Nat.add_0_r in Hk. simpl app.
    destruct s; simpl; rewrite Hk; reflexivity.
  - inversion Hall as [|? ? Hc Hall']; subst.
    pose proof (Hnone 0 ltac:(simpl; lia)) as H0.
    rewrite Nat.add_0_r in H0. simpl skipn in H0.
    simpl. simpl app in H0. rewrite H0, Hc.
    apply IH; [exact Hall' | |].
    + intros j Hj. specialize (Hnone (S j) ltac:(simpl; lia)).
      simpl in Hnone. replace (S i + j) with (i + S j) by lia. exact Hnone.
    + simpl in Hk. replace (S i + List.length pre) with (i + S (List.length pre)) by lia.
      exact Hk.
Qed.

Lemma skipn_inside (pre s : jsstring) (j : nat) :
  j < List.length pre ->
  exists c t, skipn j (pre ++ s) = c :: t ++ s /\ In c pre.
Proof.
  revert j. induction pre as [|c pre IH]; intros j Hj; simpl in Hj; [lia|].
  destruct j as [|j].
  - exists c, pre. split; [reflexivity | left; reflexivity].
  - destruct (IH j ltac:(lia)) as (c' & t & E & Hin).
    exists c', t. split; [exact E | right; exact Hin].
Qed.

(** The second half of the pattern, from the second group on. *)
Lemma run_image_url (url : jsstring) (i : nat) (caps : list nat) :
  Forall (fun c => dot c = true) url ->
  run [GroupOpen; Rep dot 0 false; GroupClose; Chr (only 41%N); Eos]
      (url ++ [41%N]) i caps
  = Some (S (i + List.length url), (caps ++ [i]) ++ [i + List.length url]).
Proof.
  intros Hurl. rewrite run_group_open, run_rep.
  apply rep_lazy_first; [exact Hurl | |].
  - intros j Hj. destruct (skipn_inside url [41%N] j Hj) as (c & t & -> & _).
    rewrite run_group_close, run_chr.
    destruct (only 41%N c); [|reflexivity].
    destruct t; reflexivity.
  - reflexivity.
Qed.

(** A text [![alt](url)] in which [alt] and [url] hold no line terminator
    and [alt] holds no closing bracket matches the pattern with these two
    groups. *)
Lemma image_match_simple (alt url : jsstring) :
  Forall (fun c => dot c = true) alt ->
  Forall (fun c => c <> 93%N) alt ->
  Forall (fun c => dot c = true) url ->
  matchGroups reImage (str "![" ++ alt ++ str "](" ++ url ++ str ")")
  = Some [alt; url].
Proof.
  intros Halt Hbr Hurl.
  set (text := str "![" ++ alt ++ str "](" ++ url ++ str ")").
  assert (Hm : matchAt reImage text 0 =
               Some (S (4 + List.length alt + List.length url),
                     [2; 2 + List.length alt;
                      4 + List.length alt; 4 + List.length alt + List.length url])).
  { rewrite reImage_atoms. unfold text.
    change (str "![" ++ alt ++ str "](" ++ url ++ str ")")
      with (33%N :: 91%N :: alt ++ 93%N :: 40%N :: url ++ [41%N]).
    cbn [matchAt].
    rewrite run_bos, !run_chr.
    change (only 33%N 33%N) with true. change (only 91%N 91%N) with true.
    cbv iota. rewrite run_group_open, run_rep.
    rewrite (rep_lazy_first dot _ alt (93%N :: 40%N :: url ++ [41%N]) 2
               (S (4 + List.length alt + List.length url),
                [2; 2 + List.length alt;
                 4 + List.length alt; 4 + List.length alt + List.length url])).
    - reflexivity.
    - exact Halt.
    - intros j Hj.
      destruct (skipn_inside alt (93%N :: 40%N :: url ++ [41%N]) j Hj) as (c & t & -> & Hin).
      rewrite Forall_forall in Hbr. specialize (Hbr c Hin).
      rewrite run_group_close, run_chr.
      unfold only. destruct (N.eqb_spec 93 c); [congruence | reflexivity].
    - rewrite run_group_close, !run_chr.
      change (only 93%N 93%N) with true. change (only 40%N 40%N) with true.
      cbv iota. rewrite (run_image_url url _ _ Hurl).
      simpl. repeat f_equal; lia. }
  unfold matchGroups.
  assert (He : exec reImage text 0 =
               Some (0, substring text 0 (S (4 + List.length alt + List.length url) - 0),
                     groups text 0 [2; 2 + List.length alt;
                                    4 + List.length alt;
                                    4 + List.length alt + List.length url])).
  { destruct text; cbn [exec]; rewrite Hm; reflexivity. }
  rewrite He. cbn [groups]. rewrite !Nat.sub_0_r. f_equal. f_equal; [|f_equal].
  - apply (substring_at _ (str "![") _ (str "](" ++ url ++ str ")"));
      [reflexivity | reflexivity | simpl; lia].
  - apply (substring_at _ (str "![" ++ alt ++ str "](") _ (str ")")).
    + unfold text. rewrite <- !app_assoc. reflexivity.
    + rewrite !length_app. simpl. lia.
    + rewrite !length_app. simpl. lia.
Qed.

(* ================================================================== *)
(** * Properties of the decoration builder *)

Section EnterFacts.

Variable st : EditorState.
Variable sel : SelectionRange.

Lemma revealed_html (l : Line) (n : SyntaxNode) :
  revealed sel l n true = true <-> touches sel (from n) (to n).
Proof.
  unfold revealed, touches.
  rewrite andb_true_iff, !Nat.leb_le. tauto.
Qed.

Lemma revealed_line (l : Line) (n : SyntaxNode) :
  revealed sel l n false = true <-> touches sel (lineFrom l) (lineTo l).
Proof.
  unfold revealed, touches.
  rewrite andb_true_iff, !Nat.leb_le. tauto.
Qed.

(** [admits] tells whether the library's [add] returns. *)
Lemma admits_addInner (f t : nat) :
  forall ls : list (nat * nat),
    (admits ls f = true -> exists ls', addInner ls f t = Some ls') /\
    (admits ls f = false -> addInner ls f t = None).
Proof.
  induction ls as [|[lf lt] ls [IH1 IH2]]; simpl.
  - split; [eauto | discriminate].
  - destruct (f <? lt); [|split; [eauto | discriminate]].
    destruct (Nat.ltb_spec f lf) as [Hlt | Hge].
    + rewrite (proj2 (Nat.leb_gt lf f) Hlt). simpl. split; [discriminate | reflexivity].
    + rewrite (proj2 (Nat.leb_le lf f) Hge). simpl. split; intros H.
      * destruct (IH1 H) as [ls' ->]. eauto.
      * rewrite (IH2 H). reflexivity.
Qed.

Lemma add_ranges (b b' : RangeSetBuilder) (f t : nat) (v : Decoration) :
  add b f t v = Some b' -> ranges b' = ranges b ++ [mkRange f t v].
Proof.
  unfold add. destruct (addInner (layers b) f t); [|discriminate].
  intros H. injection H as <-. reflexivity.
Qed.

Lemma add_addsTo (b : RangeSetBuilder) (f t : nat) (v : Decoration) :
  addsTo (add b f t v) b (mkRange f t v).
Proof.
  unfold addsTo. simpl.
  destruct (admits_addInner f t (layers b)) as [H1 H2].
  destruct (admits (layers b) f).
  - destruct (H1 eq_refl) as [ls' Hls]. unfold add. rewrite Hls. eauto.
  - unfold add. rewrite (H2 eq_refl). reflexivity.
Qed.

Lemma add_neq (b : RangeSetBuilder) (f t : nat) (v : Decoration) :
  add b f t v <> Some b.
Proof.
  intros H. apply add_ranges in H.
  apply (f_equal (@List.length Range)) in H.
  rewrite length_app in H. simpl in H. lia.
Qed.

Lemma lineAt_some (d : jsstring) (pos : nat) :
  pos <= List.length d -> exists l, lineAt d pos = Some l.
Proof.
  intros H. unfold lineAt.
  destruct (Nat.leb_spec pos (List.length d)); [eauto | lia].
Qed.

Lemma lineAt_inside (d : jsstring) (pos : nat) (l : Line) :
  lineAt d pos = Some l -> pos <= List.length d.
Proof.
  unfold lineAt. destruct (Nat.leb_spec pos (List.length d)); [lia | discriminate].
Qed.

Lemma firstn1_skipn (d : jsstring) (k : nat) :
  firstn 1 (skipn k d) = match nth_error d k with Some c => [c] | None => [] end.
Proof.
  revert d. induction k as [|k IH]; intros [|c d]; simpl; try reflexivity.
  apply IH.
Qed.

(** The test on [afterMark] says that the character at [to] is a space. *)
Lemma afterMark_space (n : SyntaxNode) :
  jsEq (sliceDoc st (to n) (to n + 1)) (str " ") = true
  <-> nth_error (doc st) (to n) = Some SPACE.
Proof.
  unfold sliceDoc, substring, jsEq.
  replace (to n + 1 - to n) with 1 by lia.
  rewrite firstn1_skipn.
  destruct (nth_error (doc st) (to n)) as [c|].
  - destruct (list_eq_dec N.eq_dec [c] (str " ")) as [E | E].
    + injection E as ->. tauto.
    + split; [discriminate | intros H; injection H as ->; exfalso; apply E; reflexivity ].
  - split; discriminate.
Qed.

Lemma hiddenTo_header (n : SyntaxNode) :
  name n = "HeaderMark"%string ->
  hiddenTo (doc st) n =
  if jsEq (sliceDoc st (to n) (to n + 1)) (str " ") then to n + 1 else to n.
Proof.
  intros Hn. unfold hiddenTo. rewrite Hn. simpl.
  destruct (jsEq _ _) eqn:E.
  - apply afterMark_space in E. rewrite E. reflexivity.
  - destruct (nth_error (doc st) (to n)) as [c|] eqn:Ec; [|reflexivity].
    destruct (N.eqb_spec c SPACE) as [-> | Hc]; [|reflexivity].
    apply afterMark_space in Ec. congruence.
Qed.

Lemma hiddenTo_other (n : SyntaxNode) :
  name n <> "HeaderMark"%string -> hiddenTo (doc st) n = to n.
Proof.
  intros Hn. unfold hiddenTo.
  apply String.eqb_neq in Hn. rewrite Hn. simpl.
  destruct (nth_error _ _); reflexivity.
Qed.

End EnterFacts.

(** Decide the comparisons of a node name that is known. *)
Ltac name_tests H :=
  rewrite H;
  repeat first [ rewrite String.eqb_refl
               | rewrite (proj2 (String.eqb_neq _ _)) by discriminate ];
  cbn [orb andb].

Section EnterCases.

Variable st : EditorState.
Variable sel : SelectionRange.
Variable n : SyntaxNode.
Variable b : RangeSetBuilder.
Variable l : Line.
Hypothesis Hline : lineAt (doc st) (from n) = Some l.

Lemma enter_html_revealed :
  In (name n) htmlKinds -> revealed sel l n true = true ->
  enter st sel n b = Some b.
Proof.
  intros Hk Hr. unfold enter. rewrite Hline.
  destruct Hk as [Hk | [Hk | []]]; symmetry in Hk; name_tests Hk;
    rewrite Hr; reflexivity.
Qed.

Lemma enter_html_hidden :
  In (name n) htmlKinds -> revealed sel l n true = false ->
  enter st sel n b =
  add b (from n) (to n)
      (replace (Some (HTMLWidget (minifyHTML (sliceDoc st (from n) (to n)))))).
Proof.
  intros Hk Hr. unfold enter. rewrite Hline.
  destruct Hk as [Hk | [Hk | []]]; symmetry in Hk; name_tests Hk;
    rewrite Hr; reflexivity.
Qed.

Lemma enter_line_revealed :
  In (name n) lineKinds -> revealed sel l n false = true ->
  enter st sel n b = Some b.
Proof.
  intros Hk Hr. unfold enter. rewrite Hline.
  destruct Hk as [Hk | [Hk | [Hk | [Hk | [Hk | []]]]]]; symmetry in Hk;
    name_tests Hk; rewrite Hr; reflexivity.
Qed.

Lemma enter_header :
  name n = "HeaderMark"%string -> revealed sel l n false = false ->
  enter st sel n b = add b (from n) (hiddenTo (doc st) n) (replace None).
Proof.
  intros Hk Hr. unfold enter. rewrite Hline.
  rewrite (hiddenTo_header st n Hk). name_tests Hk. rewrite Hr. reflexivity.
Qed.

Lemma enter_emphasis :
  name n = "EmphasisMark"%string -> revealed sel l n false = false ->
  enter st sel n b = add b (from n) (to n) (replace None).
Proof.
  intros Hk Hr. unfold enter. rewrite Hline. name_tests Hk. rewrite Hr. reflexivity.
Qed.

Lemma enter_code :
  name n = "CodeMark"%string -> revealed sel l n false = false ->
  enter st sel n b = add b (from n) (to n) (replace None).
Proof.
  intros Hk Hr. unfold enter. rewrite Hline. name_tests Hk. rewrite Hr. reflexivity.
Qed.

Lemma enter_list :
  name n = "ListMark"%string -> revealed sel l n false = false ->
  enter st sel n b = add b (from n) (to n) (replace (Some BulletWidget)).
Proof.
  intros Hk Hr. unfold enter. rewrite Hline. name_tests Hk. rewrite Hr. reflexivity.
Qed.

Lemma enter_image :
  name n = "Image"%string -> revealed sel l n false = false ->
  enter st sel n b =
  match matchGroups reImage (sliceDoc st (from n) (to n)) with
  | Some m =>
      if jsEq (nth 0 m []) []
      then add b (from n) (to n) (replace (Some (ImageWidget (nth 1 m []))))
      else add b (from n) (to n) (replace (Some (TextWidget (nth 0 m []))))
  | None => Some b
  end.
Proof.
  intros Hk Hr. unfold enter. rewrite Hline. name_tests Hk. rewrite Hr. reflexivity.
Qed.

Lemma enter_other :
  decorated n = false -> enter st sel n b = Some b.
Proof.
  intros Hd. unfold decorated in Hd. simpl in Hd.
  repeat (apply orb_false_iff in Hd; destruct Hd as [? Hd]).
  unfold enter. rewrite Hline.
  repeat match goal with H : (_ =? _)%string = false |- _ => rewrite H; clear H end.
  cbn [orb]. destruct (revealed sel l n false); reflexivity.
Qed.

End EnterCases.

Lemma not_revealed_line (sel : SelectionRange) (l : Line) (n : SyntaxNode) :
  ~ touches sel (lineFrom l) (lineTo l) -> revealed sel l n false = false.
Proof.
  intros H. destruct (revealed sel l n false) eqn:E; [|reflexivity].
  apply revealed_line in E. contradiction.
Qed.

Lemma not_revealed_html (sel : SelectionRange) (l : Line) (n : SyntaxNode) :
  ~ touches sel (from n) (to n) -> revealed sel l n true = false.
Proof.
  intros H. destruct (revealed sel l n true) eqn:E; [|reflexivity].
  apply revealed_html in E. contradiction.
Qed.

Lemma jsEq_true (a b : jsstring) : jsEq a b = true <-> a = b.
Proof.
  unfold jsEq. destruct (list_eq_dec N.eq_dec a b); split; congruence.
Qed.

Lemma jsEq_false (a b : jsstring) : jsEq a b = false <-> a <> b.
Proof.
  unfold jsEq. destruct (list_eq_dec N.eq_dec a b); split; congruence.
Qed.

(** C3 (block semantics).  For an HTML Tag or HTML Block node inside the
    document, the callback returns with nothing added exactly when the
    selection touches the node's own range [from, to] (the line plays no
    part); otherwise its outcome is that of adding the one range [from, to)
    with the HTML widget of the minified text: the builder gets that range,
    or raises when it does not take a range that starts at [from]. *)
Theorem C3_html_revealed_by_node_range
        (st : EditorState) (sel : SelectionRange) (n : SyntaxNode)
        (b : RangeSetBuilder) :
  In (name n) htmlKinds ->
  from n <= List.length (doc st) ->
  (enter st sel n b = Some b <-> touches sel (from n) (to n)) /\
  (~ touches sel (from n) (to n) ->
   addsTo (enter st sel n b) b
          (mkRange (from n) (to n)
                   (replace (Some (HTMLWidget (minifyHTML (sliceDoc st (from n) (to n)))))))).
Proof.
  intros Hk Hin. destruct (lineAt_some _ _ Hin) as [l Hl].
  split; [split|].
  - intros He. destruct (revealed sel l n true) eqn:Er.
    + apply revealed_html in Er. exact Er.
    + rewrite (enter_html_hidden st sel n b l Hl Hk Er) in He.
      exfalso. exact (add_neq _ _ _ _ He).
  - intros Ht. apply (enter_html_revealed st sel n b l Hl Hk).
    apply revealed_html. exact Ht.
  - intros Hno.
    rewrite (enter_html_hidden st sel n b l Hl Hk (not_revealed_html sel l n Hno)).
    apply add_addsTo.
Qed.

(** The block at [10, 40) with the selection [39, 41): the block starts on
    the line [10, 15], the selection lies on later lines, and the block is
    revealed all the same; with the cursor at 45 it is hidden. *)
Lemma C3_witness :
  let st := mkState htmlDoc 39 41 (Node (mkNode "HTMLBlock" 10 40) []) in
  lineAt (doc st) 10 = Some {| lineFrom := 10; lineTo := 15 |} /\
  enter st (selection st) (mkNode "HTMLBlock" 10 40) newBuilder = Some newBuilder /\
  exists b',
    enter st (cursor 45) (mkNode "HTMLBlock" 10 40) newBuilder = Some b' /\
    ranges b' = [ mkRange 10 40 (replace (Some (HTMLWidget
                                   (minifyHTML (sliceDoc st 10 40))))) ].
Proof.
  intros st. split; [reflexivity|].
  destruct (C3_html_revealed_by_node_range
              st (selection st) (mkNode "HTMLBlock" 10 40) newBuilder) as [Hiff _].
  { simpl. auto. }
  { vm_compute. lia. }
  destruct (C3_html_revealed_by_node_range
              st (cursor 45) (mkNode "HTMLBlock" 10 40) newBuilder) as [_ Hadd].
  { simpl. auto. }
  { vm_compute. lia. }
  split.
  - apply Hiff. unfold touches. simpl. lia.
  - apply Hadd. unfold touches. simpl. lia.
Defined.

(** C4 (Header Mark).  For a Header Mark whose line the selection does not
    touch, the outcome of the callback is that of adding one range without
    a widget, [from, to + 1) when the character at offset [to] is a space
    and [from, to) otherwise: the builder gets exactly that range, or raises
    when it does not take a range that starts at [from]. *)
Theorem C4_header_mark_hidden_range
        (st : EditorState) (sel : SelectionRange) (n : SyntaxNode)
        (b : RangeSetBuilder) (l : Line) :
  name n = "HeaderMark"%string ->
  lineAt (doc st) (from n) = Some l ->
  ~ touches sel (lineFrom l) (lineTo l) ->
  (nth_error (doc st) (to n) = Some SPACE ->
   addsTo (enter st sel n b) b (mkRange (from n) (to n + 1) (replace None))) /\
  (nth_error (doc st) (to n) <> Some SPACE ->
   addsTo (enter st sel n b) b (mkRange (from n) (to n) (replace None))).
Proof.
  intros Hk Hl Hno.
  pose proof (enter_header st sel n b l Hl Hk (not_revealed_line sel l n Hno)) as He.
  rewrite (hiddenTo_header st n Hk) in He. rewrite He.
  split; intros Hc.
  - apply afterMark_space in Hc. rewrite Hc. apply add_addsTo.
  - destruct (jsEq _ _) eqn:E; [|apply add_addsTo].
    apply afterMark_space in E. contradiction.
Qed.

(** [# Title] hides [0, 2); [#Title] hides [0, 1). *)
Lemma C4_witness :
  (exists b',
     enter (mkState headingDoc 9 9 (Node (mkNode "HeaderMark" 0 1) [])) (cursor 9)
           (mkNode "HeaderMark" 0 1) newBuilder = Some b' /\
     ranges b' = [ mkRange 0 2 (replace None) ]) /\
  (exists b',
     enter (mkState tightHeadingDoc 9 9 (Node (mkNode "HeaderMark" 0 1) [])) (cursor 9)
           (mkNode "HeaderMark" 0 1) newBuilder = Some b' /\
     ranges b' = [ mkRange 0 1 (replace None) ]).
Proof.
  split.
  - apply (C4_header_mark_hidden_range
             (mkState headingDoc 9 9 (Node (mkNode "HeaderMark" 0 1) [])) (cursor 9)
             (mkNode "HeaderMark" 0 1) newBuilder {| lineFrom := 0; lineTo := 7 |}).
    + reflexivity.
    + reflexivity.
    + unfold touches. simpl. lia.
    + reflexivity.
  - apply (C4_header_mark_hidden_range
             (mkState tightHeadingDoc 9 9 (Node (mkNode "HeaderMark" 0 1) [])) (cursor 9)
             (mkNode "HeaderMark" 0 1) newBuilder {| lineFrom := 0; lineTo := 6 |}).
    + reflexivity.
    + reflexivity.
    + unfold touches. simpl. lia.
    + vm_compute. discriminate.
Defined.

(** C5 (image alt-text branching).  For an Image node whose line the
    selection does not touch and whose text matches the image pattern with
    groups [alt] and [url], the text is [![alt](url)] and the outcome of the
    callback is that of adding one range [from, to): with an Image widget
    for [url] when [alt] is empty, with a Text widget for [alt] otherwise.
    The builder gets exactly that range, or raises when it does not take a
    range that starts at [from]. *)
Theorem C5_image_widget_by_alt
        (st : EditorState) (sel : SelectionRange) (n : SyntaxNode)
        (b : RangeSetBuilder) (l : Line) (alt url : jsstring) :
  name n = "Image"%string ->
  lineAt (doc st) (from n) = Some l ->
  ~ touches sel (lineFrom l) (lineTo l) ->
  matchGroups reImage (sliceDoc st (from n) (to n)) = Some [alt; url] ->
  sliceDoc st (from n) (to n) = str "![" ++ alt ++ str "](" ++ url ++ str ")" /\
  (alt = [] ->
   addsTo (enter st sel n b) b
          (mkRange (from n) (to n) (replace (Some (ImageWidget url))))) /\
  (alt <> [] ->
   addsTo (enter st sel n b) b
          (mkRange (from n) (to n) (replace (Some (TextWidget alt))))).
Proof.
  intros Hk Hl Hno Hm. split.
  - destruct (image_match_shape _ _ Hm) as (alt' & url' & E & Ht & _).
    injection E as <- <-. exact Ht.
  - rewrite (enter_image st sel n b l Hl Hk (not_revealed_line sel l n Hno)), Hm.
    cbn [nth].
    destruct (jsEq alt []) eqn:E; split; intros H; try apply add_addsTo; exfalso.
    + apply jsEq_true in E. contradiction.
    + apply jsEq_false in E. contradiction.
Qed.

Lemma C5_witness :
  (exists b',
     enter (mkState imageDoc 21 21 (Node (mkNode "Image" 0 19) [])) (cursor 21)
           (mkNode "Image" 0 19) newBuilder = Some b' /\
     ranges b' = [ mkRange 0 19 (replace (Some (ImageWidget (str "http://x/y.png")))) ]) /\
  (exists b',
     enter (mkState captionDoc 28 28 (Node (mkNode "Image" 0 26) [])) (cursor 28)
           (mkNode "Image" 0 26) newBuilder = Some b' /\
     ranges b' = [ mkRange 0 26 (replace (Some (TextWidget (str "caption")))) ]).
Proof.
  split.
  - destruct (C5_image_widget_by_alt
                (mkState imageDoc 21 21 (Node (mkNode "Image" 0 19) [])) (cursor 21)
                (mkNode "Image" 0 19) newBuilder {| lineFrom := 0; lineTo := 19 |}
                [] (str "http://x/y.png")) as (_ & Himg & _).
    + reflexivity.
    + reflexivity.
    + unfold touches. simpl. lia.
    + reflexivity.
    + apply Himg. reflexivity.
  - destruct (C5_image_widget_by_alt
                (mkState captionDoc 28 28 (Node (mkNode "Image" 0 26) [])) (cursor 28)
                (mkNode "Image" 0 26) newBuilder {| lineFrom := 0; lineTo := 26 |}
                (str "caption") (str "http://x/y.png")) as (_ & _ & Htxt).
    + reflexivity.
    + reflexivity.
    + unfold touches. simpl. lia.
    + reflexivity.
    + apply Htxt. vm_compute. discriminate.
Defined.

(** The same for a text given by its parts: when [alt] and [url] hold no
    line terminator and [alt] no closing bracket, the node text
    [![alt](url)] gets the Image widget of [url] if [alt] is empty and the
    Text widget of [alt] otherwise. *)
Corollary image_widget_of_parts
          (st : EditorState) (sel : SelectionRange) (n : SyntaxNode)
          (b : RangeSetBuilder) (l : Line) (alt url : jsstring) :
  name n = "Image"%string ->
  lineAt (doc st) (from n) = Some l ->
  ~ touches sel (lineFrom l) (lineTo l) ->
  sliceDoc st (from n) (to n) = str "![" ++ alt ++ str "](" ++ url ++ str ")" ->
  Forall (fun c => dot c = true) alt ->
  Forall (fun c => c <> 93%N) alt ->
  Forall (fun c => dot c = true) url ->
  addsTo (enter st sel n b) b
         (mkRange (from n) (to n)
                  (replace (Some (if jsEq alt [] then ImageWidget url else TextWidget alt)))).
Proof.
  intros Hk Hl Hno Ht Halt Hbr Hurl.
  rewrite (enter_image st sel n b l Hl Hk (not_revealed_line sel l n Hno)), Ht.
  rewrite (image_match_simple alt url Halt Hbr Hurl). cbn [nth].
  destruct (jsEq alt []); apply add_addsTo.
Qed.

(** C6 (malformed image).  For an Image node whose line the selection does
    not touch and whose text does not match the image pattern, the callback
    returns normally and adds nothing. *)
Theorem C6_malformed_image_skipped
        (st : EditorState) (sel : SelectionRange) (n : SyntaxNode)
        (b : RangeSetBuilder) (l : Line) :
  name n = "Image"%string ->
  lineAt (doc st) (from n) = Some l ->
  ~ touches sel (lineFrom l) (lineTo l) ->
  matchGroups reImage (sliceDoc st (from n) (to n)) = None ->
  enter st sel n b = Some b.
Proof.
  intros Hk Hl Hno Hm.
  rewrite (enter_image st sel n b l Hl Hk (not_revealed_line sel l n Hno)), Hm.
  reflexivity.
Qed.

Lemma C6_witness :
  sliceDoc (mkState brokenImageDoc 22 22 (Node (mkNode "Image" 0 20) [])) 0 20
  = str "![oops(missing-paren" /\
  enter (mkState brokenImageDoc 22 22 (Node (mkNode "Image" 0 20) [])) (cursor 22)
        (mkNode "Image" 0 20) newBuilder = Some newBuilder.
Proof.
  split; [reflexivity|].
  apply (C6_malformed_image_skipped
           (mkState brokenImageDoc 22 22 (Node (mkNode "Image" 0 20) [])) (cursor 22)
           (mkNode "Image" 0 20) newBuilder {| lineFrom := 0; lineTo := 20 |}).
  - reflexivity.
  - reflexivity.
  - unfold touches. simpl. lia.
  - reflexivity.
Defined.

(** C10 (empty image).  An Image node whose line the selection does not
    touch and whose text is exactly [![]()] matches the pattern with both
    groups empty: the outcome of the callback is that of adding [from, to)
    with an Image widget whose URL is the empty string (the builder gets
    exactly that range, or raises when it does not take a range that starts
    at [from]); the node is not left without a decoration. *)
Theorem C10_empty_image_gets_image_widget
        (st : EditorState) (sel : SelectionRange) (n : SyntaxNode)
        (b : RangeSetBuilder) (l : Line) :
  name n = "Image"%string ->
  lineAt (doc st) (from n) = Some l ->
  ~ touches sel (lineFrom l) (lineTo l) ->
  sliceDoc st (from n) (to n) = str "![]()" ->
  matchGroups reImage (sliceDoc st (from n) (to n)) = Some [[]; []] /\
  addsTo (enter st sel n b) b (mkRange (from n) (to n) (replace (Some (ImageWidget [])))) /\
  enter st sel n b <> Some b.
Proof.
  intros Hk Hl Hno Ht.
  assert (Hm : matchGroups reImage (sliceDoc st (from n) (to n)) = Some [[]; []]).
  { rewrite Ht. reflexivity. }
  split; [exact Hm|].
  rewrite (enter_image st sel n b l Hl Hk (not_revealed_line sel l n Hno)), Hm.
  split; [apply add_addsTo | apply add_neq].
Qed.

Lemma C10_witness :
  exists b',
    enter (mkState emptyImageDoc 7 7 (Node (mkNode "Image" 0 5) [])) (cursor 7)
          (mkNode "Image" 0 5) newBuilder = Some b' /\
    ranges b' = [ mkRange 0 5 (replace (Some (ImageWidget []))) ].
Proof.
  apply (C10_empty_image_gets_image_widget
           (mkState emptyImageDoc 7 7 (Node (mkNode "Image" 0 5) [])) (cursor 7)
           (mkNode "Image" 0 5) newBuilder {| lineFrom := 0; lineTo := 5 |}).
  - reflexivity.
  - reflexivity.
  - unfold touches. simpl. lia.
  - reflexivity.
Defined.

(** The reading of C2 as it is worded (for every decorated kind other than
    the HTML ones, nothing is added if and only if the selection touches the
    line) fails for an Image whose text is malformed: nothing is added for
    it although the cursor is on another line. *)
Lemma C2_counterexample :
  ~ (forall (st : EditorState) (sel : SelectionRange) (n : SyntaxNode)
            (b : RangeSetBuilder) (l : Line),
        In (name n) lineKinds ->
        lineAt (doc st) (from n) = Some l ->
        (enter st sel n b = Some b <-> touches sel (lineFrom l) (lineTo l))).
Proof.
  intros H.
  specialize (H (mkState brokenImageDoc 22 22 (Node (mkNode "Image" 0 20) []))
                (cursor 22) (mkNode "Image" 0 20) newBuilder
                {| lineFrom := 0; lineTo := 20 |}).
  assert (Hk : In "Image"%string lineKinds) by (simpl; auto 6).
  specialize (H Hk eq_refl). destruct H as [H _].
  specialize (H eq_refl). unfold touches in H. simpl in H. lia.
Qed.

(** C2 (line semantics), amended.  For a node of a decorated kind other than
    the HTML ones: when the selection touches the line that holds
    [node.from], nothing is added; for a Header Mark, Emphasis Mark, Code
    Mark or List Mark, and for an Image whose text matches the image
    pattern, nothing is added if and only if the selection touches that
    line; and for a Header Mark, a cursor on the line adds nothing while
    with a cursor on any other line the outcome is that of adding the range
    that hides the mark (the builder gets exactly that range, or raises when
    it does not take a range that starts at [from]). *)
Theorem C2_line_reveal
        (st : EditorState) (sel : SelectionRange) (n : SyntaxNode)
        (b : RangeSetBuilder) (l : Line) :
  In (name n) lineKinds ->
  lineAt (doc st) (from n) = Some l ->
  (touches sel (lineFrom l) (lineTo l) -> enter st sel n b = Some b) /\
  (name n <> "Image"%string \/
   matchGroups reImage (sliceDoc st (from n) (to n)) <> None ->
   (enter st sel n b = Some b <-> touches sel (lineFrom l) (lineTo l))) /\
  (name n = "HeaderMark"%string ->
   forall p : nat, sel = cursor p ->
     (lineFrom l <= p <= lineTo l -> enter st sel n b = Some b) /\
     (~ (lineFrom l <= p <= lineTo l) ->
      addsTo (enter st sel n b) b
             (mkRange (from n) (hiddenTo (doc st) n) (replace None)))).
Proof.
  intros Hk Hl.
  assert (Hrev : touches sel (lineFrom l) (lineTo l) -> enter st sel n b = Some b).
  { intros Ht. apply (enter_line_revealed st sel n b l Hl Hk).
    apply revealed_line. exact Ht. }
  split; [exact Hrev|]. split.
  - intros Hwf. split; [|exact Hrev].
    intros He. destruct (revealed sel l n false) eqn:Er.
    + apply revealed_line in Er. exact Er.
    + exfalso.
      destruct Hk as [Hk | [Hk | [Hk | [Hk | [Hk | []]]]]]; symmetry in Hk.
      * rewrite (enter_header st sel n b l Hl Hk Er) in He. exact (add_neq _ _ _ _ He).
      * rewrite (enter_emphasis st sel n b l Hl Hk Er) in He. exact (add_neq _ _ _ _ He).
      * rewrite (enter_code st sel n b l Hl Hk Er) in He. exact (add_neq _ _ _ _ He).
      * rewrite (enter_list st sel n b l Hl Hk Er) in He. exact (add_neq _ _ _ _ He).
      * rewrite (enter_image st sel n b l Hl Hk Er) in He.
        destruct Hwf as [Hwf | Hwf]; [contradiction|].
        destruct (matchGroups reImage _) as [m|]; [|contradiction].
        destruct (jsEq _ _); exact (add_neq _ _ _ _ He).
  - intros Hh p ->. split.
    + intros Hp. apply Hrev. unfold touches. simpl. lia.
    + intros Hp. rewrite (enter_header st (cursor p) n b l Hl Hh).
      * apply add_addsTo.
      * apply not_revealed_line. unfold touches. simpl. lia.
Qed.

(** [# Title]: a cursor at offset 7 (end of the heading line) leaves the
    mark visible, a cursor at offset 8 (next line) hides [0, 2). *)
Lemma C2_witness :
  enter (mkState headingDoc 7 7 (Node (mkNode "HeaderMark" 0 1) [])) (cursor 7)
        (mkNode "HeaderMark" 0 1) newBuilder = Some newBuilder /\
  exists b',
    enter (mkState headingDoc 8 8 (Node (mkNode "HeaderMark" 0 1) [])) (cursor 8)
          (mkNode "HeaderMark" 0 1) newBuilder = Some b' /\
    ranges b' = [ mkRange 0 2 (replace None) ].
Proof.
  assert (Hk : In (name (mkNode "HeaderMark" 0 1)) lineKinds) by (simpl; auto).
  split.
  - destruct (C2_line_reveal
                (mkState headingDoc 7 7 (Node (mkNode "HeaderMark" 0 1) [])) (cursor 7)
                (mkNode "HeaderMark" 0 1) newBuilder {| lineFrom := 0; lineTo := 7 |}
                Hk eq_refl) as (_ & _ & Hh).
    destruct (Hh eq_refl 7 eq_refl) as [Hon _].
    apply Hon. simpl. lia.
  - destruct (C2_line_reveal
                (mkState headingDoc 8 8 (Node (mkNode "HeaderMark" 0 1) [])) (cursor 8)
                (mkNode "HeaderMark" 0 1) newBuilder {| lineFrom := 0; lineTo := 7 |}
                Hk eq_refl) as (_ & _ & Hh).
    destruct (Hh eq_refl 8 eq_refl) as [_ Hoff].
    apply Hoff. simpl. lia.
Defined.

(* ------------------------------------------------------------------ *)
(** ** The traversal as a sequence of callback runs *)

Lemma enterAll_app (st : EditorState) (sel : SelectionRange)
      (ns1 ns2 : list SyntaxNode) (b : RangeSetBuilder) :
  enterAll st sel (ns1 ++ ns2) b =
  match enterAll st sel ns1 b with
  | Some b' => enterAll st sel ns2 b'
  | None => None
  end.
Proof.
  revert b. induction ns1 as [|n ns1 IH]; intros b; simpl; [reflexivity|].
  destruct (enter st sel n b); [apply IH | reflexivity].
Qed.

(** [iterate] runs the callback on the nodes of [visit], in that order. *)
Lemma iterate_visit (st : EditorState) (sel : SelectionRange) (rfrom rto : nat) :
  forall (t : Tree) (b : RangeSetBuilder),
    iterate t rfrom rto (enter st sel) b = enterAll st sel (visit t rfrom rto) b.
Proof.
  fix IH 1. intros [n children] b. simpl.
  destruct ((from n <=? rto) && (rfrom <=? to n)); [|reflexivity].
  simpl. destruct (enter st sel n b) as [b1|]; [|reflexivity].
  revert b1. induction children as [|c cs IHcs]; intros b1; simpl; [reflexivity|].
  rewrite enterAll_app, <- IH.
  destruct (iterate c rfrom rto (enter st sel) b1); [apply IHcs | reflexivity].
Qed.

Lemma forEachRange_enterAll (st : EditorState) (sel : SelectionRange)
      (rs : list (nat * nat)) (b : RangeSetBuilder) :
  forEachRange st sel rs b =
  enterAll st sel
           (flat_map (fun r => visit (syntaxTree st) (fst r) (snd r)) rs) b.
Proof.
  revert b. induction rs as [|[rfrom rto] rs IH]; intros b; simpl; [reflexivity|].
  rewrite enterAll_app, iterate_visit.
  destruct (enterAll st sel (visit (syntaxTree st) rfrom rto) b); [apply IH | reflexivity].
Qed.

(** A build is the callback run over the entered nodes, from a new
    builder. *)
Lemma buildDecorations_entered (view : EditorView) :
  buildDecorations view =
  match enterAll (state view) (selection (state view)) (entered view) newBuilder with
  | Some b => Some (ranges b)
  | None => None
  end.
Proof.
  unfold buildDecorations, entered, finish.
  rewrite forEachRange_enterAll. reflexivity.
Qed.

(* ------------------------------------------------------------------ *)
(** ** What one callback run adds *)

Lemma decorated_kind (n : SyntaxNode) :
  In (name n) (lineKinds ++ htmlKinds) -> decorated n = true.
Proof.
  intros H. unfold decorated. apply existsb_exists.
  exists (name n). split; [exact H | apply String.eqb_refl].
Qed.

(** Inside the document, the callback adds nothing, or calls [add] once,
    with [from, hiddenTo) of a decorated node; which of the two, and the
    value added, do not depend on the builder. *)
Lemma enter_adds (st : EditorState) (sel : SelectionRange) (n : SyntaxNode) :
  from n <= List.length (doc st) ->
  (forall b, enter st sel n b = Some b) \/
  (decorated n = true /\
   exists v, forall b, enter st sel n b = add b (from n) (hiddenTo (doc st) n) v).
Proof.
  intros Hin. destruct (lineAt_some _ _ Hin) as [l Hl].
  destruct (decorated n) eqn:Hd.
  2:{ left. intros b. apply (enter_other st sel n b l Hl Hd). }
  unfold decorated in Hd. apply existsb_exists in Hd.
  destruct Hd as [k [Hk Hnk]]. apply String.eqb_eq in Hnk. subst k.
  apply in_app_or in Hk. destruct Hk as [Hk | Hk].
  - destruct (revealed sel l n false) eqn:Er.
    { left. intros b. apply (enter_line_revealed st sel n b l Hl Hk Er). }
    destruct Hk as [Hk | [Hk | [Hk | [Hk | [Hk | []]]]]]; symmetry in Hk.
    + right. split; [reflexivity|]. eexists. intros b.
      apply (enter_header st sel n b l Hl Hk Er).
    + right. split; [reflexivity|]. eexists. intros b.
      rewrite hiddenTo_other by (rewrite Hk; discriminate).
      apply (enter_emphasis st sel n b l Hl Hk Er).
    + right. split; [reflexivity|]. eexists. intros b.
      rewrite hiddenTo_other by (rewrite Hk; discriminate).
      apply (enter_code st sel n b l Hl Hk Er).
    + right. split; [reflexivity|]. eexists. intros b.
      rewrite hiddenTo_other by (rewrite Hk; discriminate).
      apply (enter_list st sel n b l Hl Hk Er).
    + rewrite hiddenTo_other by (rewrite Hk; discriminate).
      destruct (matchGroups reImage (sliceDoc st (from n) (to n))) as [m|] eqn:Hm.
      2:{ left. intros b. rewrite (enter_image st sel n b l Hl Hk Er), Hm. reflexivity. }
      right. split; [reflexivity|].
      destruct (jsEq (nth 0 m []) []) eqn:Ej; eexists; intros b;
        rewrite (enter_image st sel n b l Hl Hk Er), Hm, Ej; reflexivity.
  - destruct (revealed sel l n true) eqn:Er.
    { left. intros b. apply (enter_html_revealed st sel n b l Hl Hk Er). }
    right. split; [reflexivity|]. eexists. intros b.
    rewrite (enter_html_hidden st sel n b l Hl Hk Er).
    destruct Hk as [Hk | [Hk | []]]; symmetry in Hk;
      rewrite hiddenTo_other by (rewrite Hk; discriminate); reflexivity.
Qed.

(** The callback over a sequence of nodes of the document is a sequence of
    [add] calls, for a selection of their hidden ranges. *)
Lemma enterAll_picks (st : EditorState) (sel : SelectionRange) :
  forall ns : list SyntaxNode,
    Forall (fun n => from n <= List.length (doc st)) ns ->
    exists es, Picks (doc st) ns es /\
               forall b, enterAll st sel ns b = addAll b es.
Proof.
  induction ns as [|n ns IH]; intros Hin.
  - exists []. split; [constructor | reflexivity].
  - inversion Hin as [|? ? Hn Hns]; subst.
    destruct (IH Hns) as [es [Hp Hes]].
    destruct (enter_adds st sel n Hn) as [He | [Hd [v He]]].
    + exists es. split; [constructor; exact Hp|].
      intros b. simpl. rewrite He. apply Hes.
    + exists (mkRange (from n) (hiddenTo (doc st) n) v :: es).
      split; [apply Picks_take; auto|].
      intros b. simpl. rewrite He.
      destruct (add b (from n) (hiddenTo (doc st) n) v); [apply Hes | reflexivity].
Qed.

(** ** The order the builder asks for *)

(** Ranges added in non-decreasing order of start are all taken. *)
Lemma addInner_sorted (f t : nat) :
  forall ls : list (nat * nat),
    Forall (fun l => fst l <= f) ls ->
    exists ls', addInner ls f t = Some ls' /\
                forall f', f <= f' -> Forall (fun l => fst l <= f') ls'.
Proof.
  induction ls as [|[lf lt] ls IH]; intros H; simpl.
  - exists [(f, t)]. split; [reflexivity|]. intros f' Hf. repeat constructor. exact Hf.
  - inversion H as [|? ? Hl Hls]; subst. simpl in Hl.
    destruct (f <? lt).
    + destruct (Nat.ltb_spec f lf) as [Hlt | _]; [lia|].
      destruct (IH Hls) as (ls' & -> & Hls').
      exists ((lf, lt) :: ls'). split; [reflexivity|].
      intros f' Hf. constructor; [simpl; lia | apply Hls'; exact Hf].
    + exists ((f, t) :: ls). split; [reflexivity|].
      intros f' Hf. constructor; [exact Hf|].
      eapply Forall_impl; [|exact Hls]. simpl. intros; lia.
Qed.

Lemma range_eta (e : Range) : mkRange (rangeFrom e) (rangeTo e) (value e) = e.
Proof. destruct e. reflexivity. Qed.

Lemma addAll_sorted_accepts :
  forall (es : list Range) (b : RangeSetBuilder),
    sortedByFrom es ->
    Forall (fun e => Forall (fun l => fst l <= rangeFrom e) (layers b)) es ->
    exists b', addAll b es = Some b' /\ ranges b' = ranges b ++ es.
Proof.
  induction es as [|e es IH]; intros b Hs Hb; simpl.
  - exists b. rewrite app_nil_r. auto.
  - inversion Hs as [|? ? He Hs']; subst.
    inversion Hb as [|? ? Hbe _]; subst.
    destruct (addInner_sorted (rangeFrom e) (rangeTo e) (layers b) Hbe)
      as (ls' & Hls & Hnext).
    unfold add. rewrite Hls.
    destruct (IH {| ranges := ranges b ++ [mkRange (rangeFrom e) (rangeTo e) (value e)];
                    layers := ls' |} Hs') as (b' & Hb' & Hr).
    + simpl. eapply Forall_impl; [|exact He]. intros y Hy. apply Hnext. exact Hy.
    + exists b'. split; [exact Hb'|].
      rewrite Hr. simpl. rewrite range_eta, <- app_assoc. reflexivity.
Qed.

(** After a range that starts at [f <= t] is taken, it is the range added
    last. *)
Lemma addInner_lands (f t : nat) :
  forall ls ls' : list (nat * nat),
    addInner ls f t = Some ls' -> f <= t -> behind ls' f.
Proof.
  induction ls as [|[lf lt] ls IH]; intros ls' H Hft; simpl in H.
  - injection H as <-. simpl. auto.
  - destruct (Nat.ltb_spec f lt) as [Hlt | Hge].
    + destruct (f <? lf); [discriminate|].
      destruct (addInner ls f t) as [next|] eqn:Hn; [|discriminate].
      injection H as <-. simpl. right. split; [exact Hlt | apply IH; auto].
    + injection H as <-. simpl. auto.
Qed.

(** A range that is taken does not start before the one added last. *)
Lemma addInner_after (f f' t' : nat) :
  forall ls ls' : list (nat * nat),
    behind ls f -> addInner ls f' t' = Some ls' -> f <= f'.
Proof.
  induction ls as [|[lf lt] ls IH]; intros ls' Hb H; simpl in *; [destruct Hb|].
  destruct (Nat.ltb_spec f' lt) as [Hlt | Hge].
  - destruct (Nat.ltb_spec f' lf) as [Hlf | Hlf]; [discriminate|].
    destruct (addInner ls f' t') as [next|] eqn:Hn; [|discriminate].
    destruct Hb as [[-> _] | [_ Hb]]; [exact Hlf | exact (IH next Hb eq_refl)].
  - destruct Hb as [[_ Hb] | [Hb _]]; lia.
Qed.

(** Ranges with [from <= to] that the builder takes one after the other
    are in non-decreasing order of start. *)
Lemma addAll_sorted :
  forall (es : list Range) (b b' : RangeSetBuilder),
    addAll b es = Some b' ->
    Forall (fun e => rangeFrom e <= rangeTo e) es ->
    sortedByFrom es /\
    forall f, behind (layers b) f -> Forall (fun e => f <= rangeFrom e) es.
Proof.
  induction es as [|e es IH]; intros b b' H Hwf.
  - split; [constructor | intros; constructor].
  - simpl in H. unfold add in H.
    destruct (addInner (layers b) (rangeFrom e) (rangeTo e)) as [ls1|] eqn:Ha;
      [|discriminate].
    inversion Hwf as [|? ? He Hwf']; subst.
    destruct (IH _ _ H Hwf') as [Hs Hnext].
    assert (Hes : Forall (fun y => rangeFrom e <= rangeFrom y) es).
    { apply Hnext. simpl. eapply addInner_lands; eassumption. }
    split.
    + constructor; assumption.
    + intros f Hf. pose proof (addInner_after _ _ _ _ _ Hf Ha) as Hfe.
      constructor; [exact Hfe|].
      eapply Forall_impl; [|exact Hes]. simpl. intros; lia.
Qed.

(* ------------------------------------------------------------------ *)
(** ** Order and disjointness of the added ranges *)

Lemma hiddenTo_bounds (d : jsstring) (n : SyntaxNode) :
  to n <= hiddenTo d n <= to n + 1.
Proof.
  unfold hiddenTo. destruct (nth_error d (to n)); [|lia].
  destruct (_ && _); lia.
Qed.

(** With the space after a mark free, disjoint nodes have disjoint hidden
    ranges. *)
Lemma hidden_before (d : jsstring) (a b : SyntaxNode) :
  to a <= from b ->
  (name a = "HeaderMark"%string -> nth_error d (to a) = Some SPACE -> from b <> to a) ->
  hiddenTo d a <= from b.
Proof.
  intros Hab Hsp. unfold hiddenTo.
  destruct (nth_error d (to a)) as [c|] eqn:Ec; [|exact Hab].
  destruct (String.eqb_spec (name a) "HeaderMark") as [Hn|]; [|exact Hab].
  destruct (N.eqb_spec c SPACE) as [-> | ]; [|exact Hab].
  simpl. specialize (Hsp Hn eq_refl). lia.
Qed.

Lemma FOP_and {A : Type} (R1 R2 : A -> A -> Prop) (l : list A) :
  ForallOrdPairs R1 l -> ForallOrdPairs R2 l ->
  ForallOrdPairs (fun a b => R1 a b /\ R2 a b) l.
Proof.
  induction 1 as [|a l Ha _ IH]; intros H2; [constructor|].
  inversion H2 as [|? ? Ha2 H2']; subst. constructor.
  - rewrite Forall_forall in *. auto.
  - apply IH. exact H2'.
Qed.

Lemma FOP_impl {A : Type} (R1 R2 : A -> A -> Prop) (l : list A) :
  (forall a b, R1 a b -> R2 a b) -> ForallOrdPairs R1 l -> ForallOrdPairs R2 l.
Proof.
  intros HR. induction 1 as [|a l Ha _ IH]; constructor; [|exact IH].
  eapply Forall_impl; [|exact Ha]. apply HR.
Qed.

Lemma Picks_In (d : jsstring) (ns : list SyntaxNode) (es : list Range) :
  Picks d ns es ->
  forall e, In e es ->
    exists n, In n (filter decorated ns) /\
              rangeFrom e = from n /\ rangeTo e = hiddenTo d n.
Proof.
  induction 1 as [|n ns es _ IH | n ns e0 es Hd Hf Ht _ IH]; intros e He.
  - destruct He.
  - destruct (IH e He) as [m [Hm Hr]]. exists m. split; [|exact Hr].
    simpl. destruct (decorated n); [right|]; exact Hm.
  - simpl. rewrite Hd. destruct He as [<- | He].
    + exists n. split; [left; reflexivity | auto].
    + destruct (IH e He) as [m [Hm Hr]]. exists m. split; [right; exact Hm | exact Hr].
Qed.

(** Ranges picked from nodes whose hidden ranges follow one another follow
    one another. *)
Lemma Picks_chain (d : jsstring) (ns : list SyntaxNode) (es : list Range) :
  Picks d ns es ->
  Forall (fun n => from n <= to n) (filter decorated ns) ->
  ForallOrdPairs (fun a b => hiddenTo d a <= from b) (filter decorated ns) ->
  Forall (fun e => rangeFrom e <= rangeTo e) es /\
  ForallOrdPairs (fun x y => rangeTo x <= rangeFrom y) es.
Proof.
  induction 1 as [|n ns es _ IH | n ns e es Hd Hf Ht Hp IH]; intros Hwf Hch.
  - split; constructor.
  - apply IH.
    + simpl in Hwf. destruct (decorated n); [inversion Hwf; assumption | exact Hwf].
    + simpl in Hch. destruct (decorated n); [inversion Hch; assumption | exact Hch].
  - simpl in Hwf, Hch. rewrite Hd in Hwf, Hch.
    inversion Hwf as [|? ? Hn Hwf']; subst.
    inversion Hch as [|? ? Hn' Hch']; subst.
    destruct (IH Hwf' Hch') as [IH1 IH2].
    split; constructor; auto.
    + pose proof (hiddenTo_bounds d n). lia.
    + apply Forall_forall. intros y Hy.
      destruct (Picks_In d ns es Hp y Hy) as [m [Hm [Hfm _]]].
      rewrite Forall_forall in Hn'. specialize (Hn' m Hm). lia.
Qed.

Lemma chain_sorted_disjoint (es : list Range) :
  Forall (fun e => rangeFrom e <= rangeTo e) es ->
  ForallOrdPairs (fun x y => rangeTo x <= rangeFrom y) es ->
  sortedByFrom es /\ nonOverlapping es.
Proof.
  intros Hwf Hch. unfold sortedByFrom, nonOverlapping.
  induction Hch as [|x es Hx _ IH]; [split; constructor|].
  inversion Hwf as [|? ? Hx0 Hwf']; subst.
  destruct (IH Hwf') as [IH1 IH2].
  split; constructor; auto; eapply Forall_impl; try exact Hx;
    unfold overlap; simpl; intros; lia.
Qed.

(** C1 as it is worded (the decorated nodes of the tree do not nest, hence
    the ranges are sorted and do not overlap) fails when a node touches two
    visible ranges: the 30-character HTML block at [10, 40), once hidden,
    splits the viewport into [0, 10] and [40, 45]; the next build enters the
    block from both and adds [10, 40) twice. *)
Lemma C1_counterexample :
  ~ (forall (view : EditorView) (ds : DecorationSet),
        let t := syntaxTree (state view) in
        Forall (fun n => from n <= to n /\ to n <= List.length (doc (state view)))
               (preorder t) ->
        disjointInOrder (filter decorated (preorder t)) ->
        buildDecorations view = Some ds ->
        sortedByFrom ds /\ nonOverlapping ds).
Proof.
  intros H.
  pose (t := Node (mkNode "Document" 0 45) [Node (mkNode "HTMLBlock" 10 40) []]).
  pose (w := HTMLWidget (minifyHTML (substring htmlDoc 10 40))).
  specialize (H {| state := mkState htmlDoc 45 45 t;
                   visibleRanges := [(0, 10); (40, 45)] |}
                [ {| rangeFrom := 10; rangeTo := 40; value := replace (Some w) |};
                  {| rangeFrom := 10; rangeTo := 40; value := replace (Some w) |} ]).
  simpl in H. destruct H as [_ H].
  - repeat constructor; vm_compute; lia.
  - repeat constructor.
  - reflexivity.
  - inversion H as [|? ? Hx _]; subst. inversion Hx as [|? ? Hov _]; subst.
    apply Hov. unfold overlap. simpl. lia.
Qed.

(** A second way to break it, with a single visible range: a decorated node
    that starts on the space a Header Mark takes along. *)
Example header_space_overlap :
  let t := Node (mkNode "Document" 0 3)
                [Node (mkNode "HeaderMark" 0 1) []; Node (mkNode "EmphasisMark" 1 2) []] in
  let view := {| state := mkState (str "# x" ++ [LF] ++ str "y") 4 4 t;
                 visibleRanges := [(0, 5)] |} in
  disjointInOrder (filter decorated (preorder t)) /\
  buildDecorations view
  = Some [ {| rangeFrom := 0; rangeTo := 2; value := replace None |};
           {| rangeFrom := 1; rangeTo := 2; value := replace None |} ].
Proof.
  split; [repeat constructor | reflexivity].
Qed.

(** The ranges of a build whose decorated nodes, as entered, have hidden
    ranges that follow one another. *)
Lemma build_sorted_and_disjoint (view : EditorView) :
  let d := doc (state view) in
  let ns := filter decorated (entered view) in
  Forall (fun n => from n <= List.length d) (entered view) ->
  Forall (fun n => from n <= to n) ns ->
  disjointInOrder ns ->
  spaceAfterMarkFree d ns ->
  exists ds, buildDecorations view = Some ds /\
             sortedByFrom ds /\ nonOverlapping ds.
Proof.
  intros d ns Hin Hwf Hdis Hsp.
  rewrite buildDecorations_entered.
  destruct (enterAll_picks (state view) (selection (state view)) (entered view) Hin)
    as [es [Hp Hes]].
  assert (Hch : ForallOrdPairs (fun a b => hiddenTo d a <= from b) ns).
  { eapply FOP_impl; [|exact (FOP_and _ _ _ Hdis Hsp)].
    intros a b [H1 H2]. apply hidden_before; assumption. }
  destruct (Picks_chain d (entered view) es Hp Hwf Hch) as [H1 H2].
  destruct (chain_sorted_disjoint es H1 H2) as [Hs Hno].
  destruct (addAll_sorted_accepts es newBuilder Hs) as (b' & Hb' & Hr).
  { apply Forall_forall. intros; constructor. }
  exists es. rewrite Hes, Hb', Hr. auto.
Qed.

(** Ranges picked from nodes in order of start are in order of start. *)
Lemma Picks_sorted (d : jsstring) (ns : list SyntaxNode) (es : list Range) :
  Picks d ns es -> sortedStarts (filter decorated ns) -> sortedByFrom es.
Proof.
  unfold sortedStarts, sortedByFrom.
  induction 1 as [|n ns es _ IH | n ns e es Hd Hf Ht Hp IH]; intros Hs.
  - constructor.
  - apply IH. simpl in Hs. destruct (decorated n); [inversion Hs; assumption | exact Hs].
  - simpl in Hs. rewrite Hd in Hs. inversion Hs as [|? ? Hn Hs']; subst.
    constructor; [|apply IH; exact Hs'].
    apply Forall_forall. intros y Hy.
    destruct (Picks_In d ns es Hp y Hy) as [m [Hm [Hfm _]]].
    rewrite Forall_forall in Hn. specialize (Hn m Hm). lia.
Qed.

(** A build returns when every entered node starts inside the document and
    the decorated nodes are entered in non-decreasing order of start. *)
Lemma build_completes (view : EditorView) :
  Forall (fun n => from n <= List.length (doc (state view))) (entered view) ->
  sortedStarts (filter decorated (entered view)) ->
  exists ds, buildDecorations view = Some ds.
Proof.
  intros Hin Hs. rewrite buildDecorations_entered.
  destruct (enterAll_picks (state view) (selection (state view)) (entered view) Hin)
    as [es [Hp Hes]].
  destruct (addAll_sorted_accepts es newBuilder (Picks_sorted _ _ _ Hp Hs))
    as (b' & Hb' & Hr).
  { apply Forall_forall. intros; constructor. }
  exists (ranges b'). rewrite Hes, Hb'. reflexivity.
Qed.

(** C1 (sorted, non-overlapping ranges), amended.  Take the decorated nodes
    in the order the build enters them, over all visible ranges.  If every
    entered node starts inside the document, each decorated one ends at or
    before the start of every later one (no nesting, and no node entered
    twice), and none starts on the space taken along after an earlier Header
    Mark, then the build returns normally, and the ranges it added are in
    non-decreasing [from] order and pairwise non-overlapping. *)
Theorem C1_ranges_sorted_and_disjoint (view : EditorView) :
  let d := doc (state view) in
  let ns := filter decorated (entered view) in
  Forall (fun n => from n <= List.length d) (entered view) ->
  Forall (fun n => from n <= to n) ns ->
  disjointInOrder ns ->
  spaceAfterMarkFree d ns ->
  exists ds, buildDecorations view = Some ds /\
             sortedByFrom ds /\ nonOverlapping ds.
Proof.
  exact (build_sorted_and_disjoint view).
Qed.

(** A heading, emphasis and an HTML block in one visible range. *)
Lemma C1_witness :
  let d := str "# Title" ++ [LF] ++ str "some *text*" ++ [LF] ++ str "<b>x</b>" in
  let t := Node (mkNode "Document" 0 28)
             [ Node (mkNode "ATXHeading1" 0 7) [Node (mkNode "HeaderMark" 0 1) []];
               Node (mkNode "Paragraph" 8 19)
                    [Node (mkNode "Emphasis" 13 19)
                          [Node (mkNode "EmphasisMark" 13 14) [];
                           Node (mkNode "EmphasisMark" 18 19) []]];
               Node (mkNode "HTMLBlock" 20 28) [] ] in
  let view := {| state := mkState d 10 10 t; visibleRanges := [(0, 28)] |} in
  buildDecorations view
  = Some [ {| rangeFrom := 0; rangeTo := 2; value := replace None |};
           {| rangeFrom := 20; rangeTo := 28;
              value := replace (Some (HTMLWidget (str "<b>x</b>"))) |} ] /\
  exists ds, buildDecorations view = Some ds /\
             sortedByFrom ds /\ nonOverlapping ds.
Proof.
  intros d t view. split; [reflexivity|].
  apply (C1_ranges_sorted_and_disjoint view).
  - repeat constructor; vm_compute; lia.
  - repeat constructor.
  - repeat constructor.
  - repeat constructor; vm_compute; intros; discriminate.
Defined.

(* ------------------------------------------------------------------ *)
(** ** One visible range: the assumption read on the tree *)

Lemma Subseq_refl {A : Type} (l : list A) : Subseq l l.
Proof. induction l; [apply Subseq_nil | apply Subseq_keep; assumption]. Qed.

Lemma Subseq_app {A : Type} (l1 l2 m1 m2 : list A) :
  Subseq l1 l2 -> Subseq m1 m2 -> Subseq (l1 ++ m1) (l2 ++ m2).
Proof.
  intros H1 H2. induction H1 as [l | x l1 l2 _ IH | x l1 l2 _ IH]; simpl.
  - induction l as [|x l IH]; simpl; [exact H2 | apply Subseq_drop; exact IH].
  - apply Subseq_drop. exact IH.
  - apply Subseq_keep. exact IH.
Qed.

Lemma Subseq_filter {A : Type} (p : A -> bool) (l1 l2 : list A) :
  Subseq l1 l2 -> Subseq (filter p l1) (filter p l2).
Proof.
  induction 1 as [l | x l1 l2 _ IH | x l1 l2 _ IH]; simpl.
  - constructor.
  - destruct (p x); [apply Subseq_drop|]; exact IH.
  - destruct (p x); [apply Subseq_keep|]; exact IH.
Qed.

Lemma Subseq_In {A : Type} (l1 l2 : list A) :
  Subseq l1 l2 -> forall x, In x l1 -> In x l2.
Proof.
  induction 1 as [l | x l1 l2 _ IH | x l1 l2 _ IH]; intros y Hy.
  - destruct Hy.
  - right. apply IH. exact Hy.
  - destruct Hy as [-> | Hy]; [left; reflexivity | right; apply IH; exact Hy].
Qed.

Lemma Subseq_Forall {A : Type} (P : A -> Prop) (l1 l2 : list A) :
  Subseq l1 l2 -> Forall P l2 -> Forall P l1.
Proof.
  intros Hs H. rewrite Forall_forall in *. intros x Hx.
  apply H. eapply Subseq_In; eassumption.
Qed.

Lemma Subseq_FOP {A : Type} (R : A -> A -> Prop) (l1 l2 : list A) :
  Subseq l1 l2 -> ForallOrdPairs R l2 -> ForallOrdPairs R l1.
Proof.
  induction 1 as [l | x l1 l2 _ IH | x l1 l2 Hs IH]; intros H.
  - constructor.
  - inversion H; subst. apply IH. assumption.
  - inversion H as [|? ? Hx H']; subst. constructor.
    + eapply Subseq_Forall; eassumption.
    + apply IH. exact H'.
Qed.

(** The nodes entered for a range are nodes of the tree, in tree order. *)
Lemma visit_preorder (rfrom rto : nat) :
  forall t : Tree, Subseq (visit t rfrom rto) (preorder t).
Proof.
  fix IH 1. intros [n children]. simpl.
  destruct ((from n <=? rto) && (rfrom <=? to n)); [|apply Subseq_nil].
  apply Subseq_keep.
  induction children as [|c cs IHcs]; simpl; [apply Subseq_nil|].
  apply Subseq_app; [apply IH | exact IHcs].
Qed.

(** For a build over one visible range the assumption can be put on the
    tree itself: its decorated nodes, parents before children, do not nest. *)
Corollary single_range_sorted_and_disjoint (view : EditorView) (rfrom rto : nat) :
  let d := doc (state view) in
  let ns := filter decorated (preorder (syntaxTree (state view))) in
  visibleRanges view = [(rfrom, rto)] ->
  Forall (fun n => from n <= List.length d) (preorder (syntaxTree (state view))) ->
  Forall (fun n => from n <= to n) ns ->
  disjointInOrder ns ->
  spaceAfterMarkFree d ns ->
  exists ds, buildDecorations view = Some ds /\
             sortedByFrom ds /\ nonOverlapping ds.
Proof.
  intros d ns Hv Hin Hwf Hdis Hsp.
  assert (Hs : Subseq (entered view) (preorder (syntaxTree (state view)))).
  { unfold entered. rewrite Hv. simpl. rewrite app_nil_r. apply visit_preorder. }
  pose proof (Subseq_filter decorated _ _ Hs) as Hsf.
  apply build_sorted_and_disjoint.
  - eapply Subseq_Forall; eassumption.
  - eapply Subseq_Forall; eassumption.
  - eapply Subseq_FOP; eassumption.
  - eapply Subseq_FOP; eassumption.
Qed.


(* ================================================================== *)
(** * Further properties of a build *)

(** ** What the callback adds, node by node *)

(** After the line lookup the callback is the reveal test followed by a
    part that does not read the selection. *)
Lemma enter_revealed_or_not (st : EditorState) (sel : SelectionRange)
      (n : SyntaxNode) (b : RangeSetBuilder) (l : Line) :
  lineAt (doc st) (from n) = Some l ->
  (revealed sel l n (isHTMLNode n) = true -> enter st sel n b = Some b) /\
  (forall sel', revealed sel l n (isHTMLNode n) = false ->
                revealed sel' l n (isHTMLNode n) = false ->
                enter st sel' n b = enter st sel n b).
Proof.
  intros Hl. unfold enter, isHTMLNode. rewrite Hl. cbv zeta. split.
  - intros ->. reflexivity.
  - intros sel' -> ->. reflexivity.
Qed.

Lemma isHTMLNode_kinds (n : SyntaxNode) :
  (In (name n) htmlKinds -> isHTMLNode n = true) /\
  (In (name n) lineKinds -> isHTMLNode n = false).
Proof.
  unfold isHTMLNode. split.
  - intros [H | [H | []]]; rewrite <- H; reflexivity.
  - intros [H | [H | [H | [H | [H | []]]]]]; rewrite <- H; reflexivity.
Qed.

(** The callback either raises, or adds nothing, or adds the one range of
    its kind for a node that is not revealed. *)
Lemma enter_emits (st : EditorState) (sel : SelectionRange)
      (n : SyntaxNode) (b b' : RangeSetBuilder) :
  enter st sel n b = Some b' ->
  b' = b \/
  exists e, ranges b' = ranges b ++ [e] /\ hiddenNode st sel n /\ Emitted st n e.
Proof.
  intros He.
  destruct (lineAt (doc st) (from n)) as [l|] eqn:Hl.
  2:{ unfold enter in He. rewrite Hl in He. discriminate. }
  destruct (decorated n) eqn:Hd.
  2:{ rewrite (enter_other st sel n b l Hl Hd) in He. left. congruence. }
  unfold decorated in Hd. apply existsb_exists in Hd.
  destruct Hd as [k [Hk Hnk]]. apply String.eqb_eq in Hnk. subst k.
  destruct (revealed sel l n (isHTMLNode n)) eqn:Er.
  { rewrite (proj1 (enter_revealed_or_not st sel n b l Hl) Er) in He.
    left. congruence. }
  assert (Hhid : hiddenNode st sel n) by (exists l; auto).
  apply in_app_or in Hk. destruct Hk as [Hk | Hk].
  - rewrite (proj2 (isHTMLNode_kinds n) Hk) in Er.
    destruct Hk as [Hk | [Hk | [Hk | [Hk | [Hk | []]]]]]; symmetry in Hk.
    + rewrite (enter_header st sel n b l Hl Hk Er) in He.
      apply add_ranges in He. unfold mkRange in He.
      right. eexists. split; [exact He|]. split; [exact Hhid|].
      apply Emitted_mark. rewrite Hk. simpl. auto.
    + rewrite (enter_emphasis st sel n b l Hl Hk Er) in He.
      apply add_ranges in He. unfold mkRange in He.
      right. eexists. split; [exact He|]. split; [exact Hhid|].
      rewrite <- (hiddenTo_other st n) by (rewrite Hk; discriminate).
      apply Emitted_mark. rewrite Hk. simpl. auto.
    + rewrite (enter_code st sel n b l Hl Hk Er) in He.
      apply add_ranges in He. unfold mkRange in He.
      right. eexists. split; [exact He|]. split; [exact Hhid|].
      rewrite <- (hiddenTo_other st n) by (rewrite Hk; discriminate).
      apply Emitted_mark. rewrite Hk. simpl. auto.
    + rewrite (enter_list st sel n b l Hl Hk Er) in He.
      apply add_ranges in He. unfold mkRange in He.
      right. eexists. split; [exact He|]. split; [exact Hhid|].
      apply Emitted_bullet. exact Hk.
    + rewrite (enter_image st sel n b l Hl Hk Er) in He.
      destruct (matchGroups reImage (sliceDoc st (from n) (to n))) as [m|] eqn:Hm.
      2:{ left. congruence. }
      destruct (image_match_shape _ _ Hm) as (alt & url & -> & _).
      cbn [nth] in He.
      destruct (jsEq alt []) eqn:Ea; apply add_ranges in He; unfold mkRange in He;
        right; eexists; (split; [exact He|]); (split; [exact Hhid|]).
      * apply jsEq_true in Ea. subst alt. apply Emitted_image; assumption.
      * apply jsEq_false in Ea. eapply Emitted_text; eassumption.
  - rewrite (proj1 (isHTMLNode_kinds n) Hk) in Er.
    rewrite (enter_html_hidden st sel n b l Hl Hk Er) in He.
    apply add_ranges in He. unfold mkRange in He.
    right. eexists. split; [exact He|]. split; [exact Hhid|].
    apply Emitted_html. exact Hk.
Qed.

Lemma enterAll_emits (st : EditorState) (sel : SelectionRange) :
  forall (ns : list SyntaxNode) (b b' : RangeSetBuilder),
    enterAll st sel ns b = Some b' ->
    exists es, ranges b' = ranges b ++ es /\ EmittedAll st sel ns es.
Proof.
  induction ns as [|n ns IH]; intros b b' H; simpl in H.
  - injection H as <-. exists []. rewrite app_nil_r. split; [reflexivity | constructor].
  - destruct (enter st sel n b) as [b1|] eqn:He; [|discriminate].
    destruct (IH _ _ H) as (es & Hr & Hes).
    destruct (enter_emits st sel n b b1 He) as [-> | (e & Hr1 & Hh & Hem)].
    + exists es. split; [exact Hr | constructor; exact Hes].
    + exists (e :: es). rewrite Hr, Hr1, <- app_assoc. split; [reflexivity|].
      apply EmittedAll_take; assumption.
Qed.

(** The ranges of a build that returns, node by node. *)
Lemma build_emits (v : EditorView) (ds : DecorationSet) :
  buildDecorations v = Some ds ->
  EmittedAll (state v) (selection (state v)) (entered v) ds.
Proof.
  rewrite buildDecorations_entered.
  destruct (enterAll _ _ _ _) as [b|] eqn:H; [|discriminate].
  intros E. injection E as <-.
  destruct (enterAll_emits _ _ _ _ _ H) as (es & Hr & Hes).
  simpl in Hr. rewrite Hr. exact Hes.
Qed.

Lemma EmittedAll_In (st : EditorState) (sel : SelectionRange)
      (ns : list SyntaxNode) (es : list Range) :
  EmittedAll st sel ns es ->
  forall e, In e es -> exists n, In n ns /\ hiddenNode st sel n /\ Emitted st n e.
Proof.
  induction 1 as [|n ns es _ IH | n ns e0 es Hh Hem _ IH]; intros e He.
  - destruct He.
  - destruct (IH e He) as (m & Hm & Hr). exists m. split; [right; exact Hm | exact Hr].
  - destruct He as [<- | He].
    + exists n. split; [left; reflexivity | auto].
    + destruct (IH e He) as (m & Hm & Hr). exists m. split; [right; exact Hm | exact Hr].
Qed.

Lemma Emitted_decorated (st : EditorState) (n : SyntaxNode) (e : Range) :
  Emitted st n e ->
  decorated n = true /\ rangeFrom e = from n /\ rangeTo e = hiddenTo (doc st) n.
Proof.
  assert (Hto : name n <> "HeaderMark"%string -> to n = hiddenTo (doc st) n).
  { intros H. symmetry. apply hiddenTo_other. exact H. }
  intros [Hk | Hk | url Hk _ | alt url Hk _ _ | Hk]; simpl.
  - split; [|auto]. apply decorated_kind. simpl in *. tauto.
  - split; [apply decorated_kind; rewrite Hk; simpl; tauto|].
    split; [reflexivity | apply Hto; rewrite Hk; discriminate].
  - split; [apply decorated_kind; rewrite Hk; simpl; tauto|].
    split; [reflexivity | apply Hto; rewrite Hk; discriminate].
  - split; [apply decorated_kind; rewrite Hk; simpl; tauto|].
    split; [reflexivity | apply Hto; rewrite Hk; discriminate].
  - split; [apply decorated_kind; apply in_or_app; right; exact Hk|].
    split; [reflexivity|]. apply Hto.
    destruct Hk as [Hk | [Hk | []]]; rewrite <- Hk; discriminate.
Qed.

(** ** Where the ranges of a build come from *)

Lemma visit_touches (rfrom rto : nat) :
  forall (t : Tree) (n : SyntaxNode),
    In n (visit t rfrom rto) -> from n <= rto /\ rfrom <= to n.
Proof.
  fix IH 1. intros [m children] n. simpl.
  destruct ((from m <=? rto) && (rfrom <=? to m)) eqn:E; [|intros []].
  intros [<- | Hin].
  - apply andb_true_iff in E. rewrite !Nat.leb_le in E. exact E.
  - induction children as [|c cs IHcs]; simpl in Hin; [destruct Hin|].
    apply in_app_or in Hin. destruct Hin as [Hin | Hin]; [exact (IH c n Hin) | auto].
Qed.

Lemma entered_touches (v : EditorView) (n : SyntaxNode) :
  In n (entered v) ->
  In n (preorder (syntaxTree (state v))) /\
  exists r, In r (visibleRanges v) /\ from n <= snd r /\ fst r <= to n.
Proof.
  unfold entered. intros H. apply in_flat_map in H. destruct H as (r & Hr & Hn).
  split.
  - eapply Subseq_In; [apply visit_preorder | exact Hn].
  - exists r. split; [exact Hr | apply (visit_touches _ _ _ _ Hn)].
Qed.

(** X1 (origin of a range).  Every range of a build that returns was added
    for a node of the tree that is of one of the seven decorated kinds and
    touches one of the visible ranges; it starts at [node.from] and ends at
    [node.to] or one character later. *)
Theorem X1_ranges_come_from_visible_decorated_nodes
        (v : EditorView) (ds : DecorationSet) (e : Range) :
  buildDecorations v = Some ds ->
  In e ds ->
  exists n r,
    In n (preorder (syntaxTree (state v))) /\
    In (name n) (lineKinds ++ htmlKinds) /\
    In r (visibleRanges v) /\ from n <= snd r /\ fst r <= to n /\
    rangeFrom e = from n /\ to n <= rangeTo e <= to n + 1.
Proof.
  intros Hb He.
  destruct (EmittedAll_In _ _ _ _ (build_emits v ds Hb) e He) as (n & Hn & _ & Hem).
  destruct (Emitted_decorated _ _ _ Hem) as (Hd & Hf & Ht).
  destruct (entered_touches v n Hn) as (Hp & r & Hr & H1 & H2).
  exists n, r. repeat split; try assumption.
  - unfold decorated in Hd. apply existsb_exists in Hd.
    destruct Hd as (k & Hk & Hnk). apply String.eqb_eq in Hnk. subst k. exact Hk.
  - rewrite Ht. apply hiddenTo_bounds.
  - rewrite Ht. apply hiddenTo_bounds.
Qed.

Lemma X1_witness :
  exists n r,
    In n (preorder sampleTree) /\
    In (name n) (lineKinds ++ htmlKinds) /\
    In r [(0, 28)] /\ from n <= snd r /\ fst r <= to n /\
    0 = from n /\ to n <= 2 <= to n + 1.
Proof.
  apply (X1_ranges_come_from_visible_decorated_nodes
           (sampleView 10 10)
           [ {| rangeFrom := 0; rangeTo := 2; value := replace None |};
             {| rangeFrom := 20; rangeTo := 28;
                value := replace (Some (HTMLWidget (str "<b>x</b>"))) |} ]
           {| rangeFrom := 0; rangeTo := 2; value := replace None |}).
  - reflexivity.
  - left. reflexivity.
Defined.

Lemma EmittedAll_length (st : EditorState) (sel : SelectionRange)
      (ns : list SyntaxNode) (es : list Range) :
  EmittedAll st sel ns es -> List.length es <= List.length (filter decorated ns).
Proof.
  induction 1 as [|n ns es _ IH | n ns e es _ Hem _ IH]; simpl.
  - lia.
  - destruct (decorated n); simpl; lia.
  - destruct (Emitted_decorated _ _ _ Hem) as (-> & _). simpl. lia.
Qed.

(** X2 (at most one range per node entered).  A build that returns holds no
    more ranges than decorated nodes were entered, counted once per visible
    range they touch. *)
Theorem X2_no_more_ranges_than_decorated_nodes
        (v : EditorView) (ds : DecorationSet) :
  buildDecorations v = Some ds ->
  List.length ds <= List.length (filter decorated (entered v)).
Proof.
  intros Hb. apply (EmittedAll_length _ _ _ _ (build_emits v ds Hb)).
Qed.

Lemma X2_witness :
  2 <= List.length (filter decorated (entered (sampleView 10 10))).
Proof.
  apply (X2_no_more_ranges_than_decorated_nodes
           (sampleView 10 10)
           [ {| rangeFrom := 0; rangeTo := 2; value := replace None |};
             {| rangeFrom := 20; rangeTo := 28;
                value := replace (Some (HTMLWidget (str "<b>x</b>"))) |} ]).
  reflexivity.
Defined.

(** ** The selection and the ranges *)

Lemma lineStart_bounds :
  forall (pos : nat) (d : jsstring) (start i : nat),
    start <= i -> start <= lineStart d pos start i <= i + pos.
Proof.
  induction pos as [|pos IH]; intros d start i Hs.
  - destruct d; simpl; lia.
  - destruct d as [|c d]; simpl; [lia|].
    destruct (c =? LF)%N.
    + specialize (IH d (S i) (S i) (Nat.le_refl _)). lia.
    + specialize (IH d start (S i) ltac:(lia)). lia.
Qed.

(** A line holds the offset it was looked up for. *)
Lemma lineAt_holds (d : jsstring) (pos : nat) (l : Line) :
  lineAt d pos = Some l -> lineFrom l <= pos <= lineTo l.
Proof.
  unfold lineAt. destruct (pos <=? List.length d); [|discriminate].
  intros H. injection H as <-. simpl.
  pose proof (lineStart_bounds pos d 0 0 (Nat.le_refl _)). lia.
Qed.

Lemma enterAll_all_revealed (st : EditorState) (sel : SelectionRange) :
  forall (ns : list SyntaxNode) (b : RangeSetBuilder),
    selFrom sel = 0 ->
    Forall (fun n => from n <= List.length (doc st) /\ from n <= selTo sel) ns ->
    enterAll st sel ns b = Some b.
Proof.
  induction ns as [|n ns IH]; intros b H0 Hall; simpl; [reflexivity|].
  inversion Hall as [|? ? [Hin Hsel] Hall']; subst.
  destruct (lineAt_some _ _ Hin) as [l Hl].
  assert (Er : revealed sel l n (isHTMLNode n) = true).
  { pose proof (lineAt_holds _ _ _ Hl) as Hh.
    unfold revealed. rewrite H0.
    destruct (isHTMLNode n); apply andb_true_iff; rewrite !Nat.leb_le; lia. }
  rewrite (proj1 (enter_revealed_or_not st sel n b l Hl) Er).
  apply IH; assumption.
Qed.

(** X3 (select all).  When the selection starts at offset 0 and reaches at
    least the start of every node entered (as the selection of the whole
    document does), the build returns no range at all: every node is
    revealed. *)
Theorem X3_selection_over_everything_reveals_everything (v : EditorView) :
  selFrom (selection (state v)) = 0 ->
  Forall (fun n => from n <= List.length (doc (state v)) /\
                   from n <= selTo (selection (state v))) (entered v) ->
  buildDecorations v = Some [].
Proof.
  intros H0 Hall. rewrite buildDecorations_entered.
  rewrite enterAll_all_revealed by assumption. reflexivity.
Qed.

Lemma X3_witness : buildDecorations (sampleView 0 28) = Some [].
Proof.
  apply (X3_selection_over_everything_reveals_everything (sampleView 0 28)).
  - reflexivity.
  - repeat constructor; vm_compute; lia.
Defined.

(** A wider selection reveals what a narrower one reveals. *)
Lemma revealed_wider (sel sel' : SelectionRange) (l : Line) (n : SyntaxNode) (h : bool) :
  selFrom sel' <= selFrom sel -> selTo sel <= selTo sel' ->
  revealed sel l n h = true -> revealed sel' l n h = true.
Proof.
  intros H1 H2. unfold revealed.
  destruct h; rewrite !andb_true_iff, !Nat.leb_le; lia.
Qed.

(** Under a wider selection the callback adds what it added before, or
    nothing. *)
Lemma enter_wider (st st' : EditorState) (sel sel' : SelectionRange) (n : SyntaxNode) :
  doc st' = doc st ->
  selFrom sel' <= selFrom sel -> selTo sel <= selTo sel' ->
  from n <= List.length (doc st) ->
  ((forall b, enter st sel n b = Some b) /\ (forall b, enter st' sel' n b = Some b)) \/
  (exists e,
      (forall b, enter st sel n b = add b (rangeFrom e) (rangeTo e) (value e)) /\
      ((forall b, enter st' sel' n b = Some b) \/
       (forall b, enter st' sel' n b = add b (rangeFrom e) (rangeTo e) (value e)))).
Proof.
  intros Hd H1 H2 Hin.
  assert (Hst : forall s b, enter st' s n b = enter st s n b).
  { intros s b. unfold enter, sliceDoc. rewrite Hd. reflexivity. }
  destruct (lineAt_some _ _ Hin) as [l Hl].
  assert (Hw : (forall b, enter st' sel' n b = Some b) \/
               (forall b, enter st' sel' n b = enter st sel n b)).
  { destruct (revealed sel' l n (isHTMLNode n)) eqn:Er'.
    - left. intros b. rewrite Hst.
      apply (proj1 (enter_revealed_or_not st sel' n b l Hl) Er').
    - right. intros b. rewrite Hst.
      destruct (revealed sel l n (isHTMLNode n)) eqn:Er.
      + rewrite (revealed_wider sel sel' l n _ H1 H2 Er) in Er'. discriminate.
      + apply (proj2 (enter_revealed_or_not st sel n b l Hl) sel' Er Er'). }
  destruct (enter_adds st sel n Hin) as [He | [_ [v He]]].
  - left. split; [exact He|].
    destruct Hw as [Hw | Hw]; [exact Hw | intros b; rewrite Hw; apply He].
  - right. exists (mkRange (from n) (hiddenTo (doc st) n) v). simpl.
    split; [exact He|].
    destruct Hw as [Hw | Hw]; [left; exact Hw | right; intros b; rewrite Hw; apply He].
Qed.

Lemma enterAll_inside (st : EditorState) (sel : SelectionRange) :
  forall (ns : list SyntaxNode) (b b' : RangeSetBuilder),
    enterAll st sel ns b = Some b' ->
    Forall (fun n => from n <= List.length (doc st)) ns.
Proof.
  induction ns as [|n ns IH]; intros b b' H; [constructor|].
  simpl in H. destruct (enter st sel n b) as [b1|] eqn:He; [|discriminate].
  constructor; [|eapply IH; eassumption].
  unfold enter in He.
  destruct (lineAt (doc st) (from n)) as [l|] eqn:Hl; [|discriminate].
  eapply lineAt_inside; eassumption.
Qed.

(** The [add] calls of two builds of the same document and nodes, the
    second under a wider selection. *)
Lemma enterAll_wider (st st' : EditorState) (sel sel' : SelectionRange) :
  doc st' = doc st ->
  selFrom sel' <= selFrom sel -> selTo sel <= selTo sel' ->
  forall ns : list SyntaxNode,
    Forall (fun n => from n <= List.length (doc st)) ns ->
    exists es es',
      (forall b, enterAll st sel ns b = addAll b es) /\
      (forall b, enterAll st' sel' ns b = addAll b es') /\
      Subseq es' es.
Proof.
  intros Hd H1 H2. induction ns as [|n ns IH]; intros Hin.
  - exists [], []. repeat split; constructor.
  - inversion Hin as [|? ? Hn Hns]; subst.
    destruct (IH Hns) as (es & es' & He & He' & Hs).
    destruct (enter_wider st st' sel sel' n Hd H1 H2 Hn)
      as [[Ha Ha'] | (e & Ha & [Ha' | Ha'])].
    + exists es, es'. repeat split; [| |exact Hs]; intros b; simpl.
      * rewrite Ha. apply He.
      * rewrite Ha'. apply He'.
    + exists (e :: es), es'. repeat split; [| |apply Subseq_drop; exact Hs];
        intros b; simpl.
      * rewrite Ha. destruct (add b _ _ _); [apply He | reflexivity].
      * rewrite Ha'. apply He'.
    + exists (e :: es), (e :: es'). repeat split; [| |apply Subseq_keep; exact Hs];
        intros b; simpl.
      * rewrite Ha. destruct (add b _ _ _); [apply He | reflexivity].
      * rewrite Ha'. destruct (add b _ _ _); [apply He' | reflexivity].
Qed.

Lemma addAll_ranges :
  forall (es : list Range) (b b' : RangeSetBuilder),
    addAll b es = Some b' -> ranges b' = ranges b ++ es.
Proof.
  induction es as [|e es IH]; intros b b' H; simpl in H.
  - injection H as <-. rewrite app_nil_r. reflexivity.
  - destruct (add b (rangeFrom e) (rangeTo e) (value e)) as [b1|] eqn:Ha; [|discriminate].
    rewrite (IH _ _ H), (add_ranges _ _ _ _ _ Ha), range_eta, <- app_assoc.
    reflexivity.
Qed.

(** X4 (a wider selection hides less).  When a build returns and none of
    its ranges ends before it starts, the build of the same document, tree
    and visible ranges under a selection that contains the first one returns
    too, and its ranges are ranges of the first build, in the same order:
    widening the selection adds no range. *)
Theorem X4_wider_selection_only_removes_ranges
        (v : EditorView) (sel' : SelectionRange) (ds : DecorationSet) :
  selFrom sel' <= selFrom (selection (state v)) ->
  selTo (selection (state v)) <= selTo sel' ->
  buildDecorations v = Some ds ->
  Forall (fun e => rangeFrom e <= rangeTo e) ds ->
  exists ds', buildDecorations (withSelection v sel') = Some ds' /\ Subseq ds' ds.
Proof.
  intros H1 H2 Hb Hwf. rewrite buildDecorations_entered in *.
  change (entered (withSelection v sel')) with (entered v).
  change (selection (state (withSelection v sel'))) with sel'.
  destruct (enterAll (state v) (selection (state v)) (entered v) newBuilder)
    as [b0|] eqn:Hrun; [|discriminate].
  injection Hb as <-.
  destruct (enterAll_wider (state v) (state (withSelection v sel'))
                           (selection (state v)) sel' eq_refl H1 H2 (entered v)
                           (enterAll_inside _ _ _ _ _ Hrun))
    as (es & es' & He & He' & Hs).
  rewrite He in Hrun. pose proof (addAll_ranges _ _ _ Hrun) as Hr.
  simpl in Hr. rewrite Hr in *.
  destruct (addAll_sorted _ _ _ Hrun Hwf) as [Hsorted _].
  destruct (addAll_sorted_accepts es' newBuilder (Subseq_FOP _ _ _ Hs Hsorted))
    as (b' & Hb' & Hr').
  { apply Forall_forall. intros; constructor. }
  exists es'. rewrite He', Hb', Hr'. auto.
Qed.

(** The cursor at 10 hides the heading mark and the HTML block; the
    selection [0, 10) keeps only the HTML block hidden. *)
Lemma X4_witness :
  exists ds',
    buildDecorations (withSelection (sampleView 10 10) {| selFrom := 0; selTo := 10 |})
    = Some ds' /\
    Subseq ds'
           [ {| rangeFrom := 0; rangeTo := 2; value := replace None |};
             {| rangeFrom := 20; rangeTo := 28;
                value := replace (Some (HTMLWidget (str "<b>x</b>"))) |} ].
Proof.
  apply (X4_wider_selection_only_removes_ranges
           (sampleView 10 10) {| selFrom := 0; selTo := 10 |}).
  - simpl. lia.
  - simpl. lia.
  - reflexivity.
  - repeat constructor; simpl; lia.
Defined.

Lemma nth_error_skipn_js (d : jsstring) (pos k : nat) :
  nth_error (skipn pos d) k = nth_error d (pos + k).
Proof.
  revert d. induction pos as [|pos IH]; intros d; [reflexivity|].
  destruct d as [|c d]; simpl; [destruct k; reflexivity | apply IH].
Qed.

(** A line ends at a line break or at the end of the document. *)
Lemma untilBreak_stop (s : jsstring) (c : char) :
  nth_error s (untilBreak s) = Some c -> c = LF.
Proof.
  induction s as [|x s IH]; simpl; [discriminate|].
  destruct (N.eqb_spec x LF) as [-> | Hx]; simpl.
  - intros H. injection H as <-. reflexivity.
  - exact IH.
Qed.

(** The space taken along after a Header Mark lies on the line of the mark. *)
Lemma hiddenTo_on_line (d : jsstring) (n : SyntaxNode) (l : Line) :
  lineAt d (from n) = Some l -> to n <= lineTo l -> hiddenTo d n <= lineTo l.
Proof.
  intros Hl Hto. unfold hiddenTo.
  destruct (nth_error d (to n)) as [c|] eqn:Ec; [|exact Hto].
  destruct (name n =? "HeaderMark")%string; [|exact Hto].
  destruct (N.eqb_spec c SPACE) as [-> | Hc]; [|exact Hto].
  simpl. destruct (Nat.eq_dec (to n) (lineTo l)) as [E | E]; [|lia].
  exfalso. unfold lineAt in Hl.
  destruct (from n <=? List.length d); [|discriminate].
  injection Hl as <-. simpl in E.
  rewrite E, <- nth_error_skipn_js in Ec.
  apply untilBreak_stop in Ec. discriminate.
Qed.

(** X5 (the selection stays clear of what is hidden).  In a build that
    returns, when every entered node of a line-based kind ends on the line
    it starts on, no range hides an offset the selection touches: the
    selection neither overlaps nor borders any range of the build. *)
Theorem X5_selection_never_touches_a_hidden_range
        (v : EditorView) (ds : DecorationSet) (e : Range) :
  Forall (fun n => In (name n) lineKinds ->
                   forall l, lineAt (doc (state v)) (from n) = Some l ->
                             to n <= lineTo l) (entered v) ->
  buildDecorations v = Some ds ->
  In e ds ->
  ~ touches (selection (state v)) (rangeFrom e) (rangeTo e).
Proof.
  intros Hline Hb He.
  destruct (EmittedAll_In _ _ _ _ (build_emits v ds Hb) e He)
    as (n & Hn & (l & Hl & Hr) & Hem).
  rewrite Forall_forall in Hline. specialize (Hline n Hn).
  destruct (Emitted_decorated _ _ _ Hem) as (Hd & -> & ->).
  unfold decorated in Hd. apply existsb_exists in Hd.
  destruct Hd as (k & Hk & Hnk). apply String.eqb_eq in Hnk. subst k.
  apply in_app_or in Hk. destruct Hk as [Hk | Hk].
  - rewrite (proj2 (isHTMLNode_kinds n) Hk) in Hr.
    pose proof (lineAt_holds _ _ _ Hl) as Hh.
    pose proof (hiddenTo_on_line _ n l Hl (Hline Hk l Hl)) as Hto.
    intros Ht. assert (Hc : revealed (selection (state v)) l n false = true).
    { apply revealed_line. unfold touches in *. lia. }
    congruence.
  - rewrite (proj1 (isHTMLNode_kinds n) Hk) in Hr.
    rewrite hiddenTo_other
      by (destruct Hk as [Hk | [Hk | []]]; rewrite <- Hk; discriminate).
    intros Ht. apply revealed_html with (l := l) in Ht. congruence.
Qed.

Lemma X5_witness :
  ~ touches (cursor 10) 0 2.
Proof.
  apply (X5_selection_never_touches_a_hidden_range
           (sampleView 10 10)
           [ {| rangeFrom := 0; rangeTo := 2; value := replace None |};
             {| rangeFrom := 20; rangeTo := 28;
                value := replace (Some (HTMLWidget (str "<b>x</b>"))) |} ]
           {| rangeFrom := 0; rangeTo := 2; value := replace None |}).
  - repeat constructor; simpl; intros Hk l Hl;
      try (repeat destruct Hk as [Hk | Hk]; try discriminate Hk; try contradiction);
      vm_compute in Hl; injection Hl as <-; simpl; lia.
  - reflexivity.
  - left. reflexivity.
Defined.

(** ** Ranges and the document *)

Lemma hiddenTo_inside (d : jsstring) (n : SyntaxNode) :
  to n <= List.length d -> hiddenTo d n <= List.length d.
Proof.
  intros H. unfold hiddenTo.
  destruct (nth_error d (to n)) as [c|] eqn:Ec; [|exact H].
  assert (to n < List.length d) by (apply nth_error_Some; congruence).
  destruct (_ && _); lia.
Qed.

(** X6 (ranges inside the document).  When the decorated nodes entered are
    ranges of the document ([from <= to <= length]), so are all ranges of a
    build that returns: the space taken along after a Header Mark is never
    past the end. *)
Theorem X6_ranges_stay_inside_the_document
        (v : EditorView) (ds : DecorationSet) :
  Forall (fun n => decorated n = true ->
                   from n <= to n /\ to n <= List.length (doc (state v)))
         (entered v) ->
  buildDecorations v = Some ds ->
  Forall (fun e => rangeFrom e <= rangeTo e /\
                   rangeTo e <= List.length (doc (state v))) ds.
Proof.
  intros Hin Hb. apply Forall_forall. intros e He.
  destruct (EmittedAll_In _ _ _ _ (build_emits v ds Hb) e He) as (n & Hn & _ & Hem).
  destruct (Emitted_decorated _ _ _ Hem) as (Hd & -> & ->).
  rewrite Forall_forall in Hin. destruct (Hin n Hn Hd) as [H1 H2].
  pose proof (hiddenTo_bounds (doc (state v)) n).
  pose proof (hiddenTo_inside (doc (state v)) n H2). lia.
Qed.

Lemma X6_witness :
  Forall (fun e => rangeFrom e <= rangeTo e /\ rangeTo e <= 28)
         [ {| rangeFrom := 0; rangeTo := 2; value := replace None |};
           {| rangeFrom := 20; rangeTo := 28;
              value := replace (Some (HTMLWidget (str "<b>x</b>"))) |} ].
Proof.
  apply (X6_ranges_stay_inside_the_document (sampleView 10 10)).
  - repeat constructor; intros _; vm_compute; lia.
  - reflexivity.
Defined.

Lemma enterAll_raises (st : EditorState) (sel : SelectionRange) (n : SyntaxNode) :
  List.length (doc st) < from n ->
  forall (ns : list SyntaxNode) (b : RangeSetBuilder),
    In n ns -> enterAll st sel ns b = None.
Proof.
  intros Hout. induction ns as [|m ns IH]; intros b Hin; [destruct Hin|].
  simpl. destruct Hin as [-> | Hin].
  - unfold enter, lineAt.
    destruct (Nat.leb_spec (from n) (List.length (doc st))); [lia | reflexivity].
  - destruct (enter st sel m b); [apply IH; exact Hin | reflexivity].
Qed.

(** X7 (a node beyond the document).  When a node that is entered starts
    beyond the end of the document, the build raises, whatever the kind of
    the node and whatever the selection: the line lookup comes first. *)
Theorem X7_node_beyond_document_raises (v : EditorView) (n : SyntaxNode) :
  In n (entered v) ->
  List.length (doc (state v)) < from n ->
  buildDecorations v = None.
Proof.
  intros Hin Hout. rewrite buildDecorations_entered.
  rewrite (enterAll_raises _ _ n Hout) by exact Hin. reflexivity.
Qed.

(** A paragraph node, of no decorated kind, that starts at 5 in a document
    of 3 characters. *)
Lemma X7_witness :
  buildDecorations
    {| state := mkState (str "abc") 0 0
                        (Node (mkNode "Document" 0 9) [Node (mkNode "Paragraph" 5 9) []]);
       visibleRanges := [(0, 9)] |} = None.
Proof.
  apply (X7_node_beyond_document_raises _ (mkNode "Paragraph" 5 9)).
  - simpl. auto.
  - simpl. lia.
Defined.

(** ** Every hidden node gets its range *)

(** For a node that is not revealed, the callback calls [add] with the
    range of its kind. *)
Lemma enter_emitted (st : EditorState) (sel : SelectionRange)
      (n : SyntaxNode) (l : Line) (e : Range) :
  lineAt (doc st) (from n) = Some l ->
  revealed sel l n (isHTMLNode n) = false ->
  Emitted st n e ->
  forall b, enter st sel n b = add b (rangeFrom e) (rangeTo e) (value e).
Proof.
  intros Hl Er Hem b.
  destruct Hem as [Hk | Hk | url Hk Hm | alt url Hk Hm Hne | Hk]; simpl.
  - assert (Hline : In (name n) lineKinds) by (simpl in *; tauto).
    rewrite (proj2 (isHTMLNode_kinds n) Hline) in Er.
    destruct Hk as [Hk | [Hk | [Hk | []]]]; symmetry in Hk.
    + apply (enter_header st sel n b l Hl Hk Er).
    + rewrite hiddenTo_other by (rewrite Hk; discriminate).
      apply (enter_emphasis st sel n b l Hl Hk Er).
    + rewrite hiddenTo_other by (rewrite Hk; discriminate).
      apply (enter_code st sel n b l Hl Hk Er).
  - assert (Hline : In (name n) lineKinds) by (rewrite Hk; simpl; tauto).
    rewrite (proj2 (isHTMLNode_kinds n) Hline) in Er.
    apply (enter_list st sel n b l Hl Hk Er).
  - assert (Hline : In (name n) lineKinds) by (rewrite Hk; simpl; tauto).
    rewrite (proj2 (isHTMLNode_kinds n) Hline) in Er.
    rewrite (enter_image st sel n b l Hl Hk Er), Hm. reflexivity.
  - assert (Hline : In (name n) lineKinds) by (rewrite Hk; simpl; tauto).
    rewrite (proj2 (isHTMLNode_kinds n) Hline) in Er.
    rewrite (enter_image st sel n b l Hl Hk Er), Hm. cbn [nth].
    rewrite (proj2 (jsEq_false alt []) Hne). reflexivity.
  - rewrite (proj1 (isHTMLNode_kinds n) Hk) in Er.
    apply (enter_html_hidden st sel n b l Hl Hk Er).
Qed.

Lemma enterAll_holds (st : EditorState) (sel : SelectionRange) :
  forall (ns : list SyntaxNode) (b b' : RangeSetBuilder) (n : SyntaxNode) (e : Range),
    enterAll st sel ns b = Some b' ->
    In n ns -> hiddenNode st sel n -> Emitted st n e ->
    In e (ranges b').
Proof.
  induction ns as [|m ns IH]; intros b b' n e H Hin Hh Hem; [destruct Hin|].
  simpl in H. destruct (enter st sel m b) as [b1|] eqn:He; [|discriminate].
  destruct Hin as [-> | Hin]; [|eapply IH; eassumption].
  destruct Hh as (l & Hl & Er).
  rewrite (enter_emitted st sel n l e Hl Er Hem) in He.
  apply add_ranges in He. rewrite range_eta in He.
  destruct (enterAll_emits _ _ _ _ _ H) as (es & Hr & _).
  rewrite Hr, He. apply in_or_app. left. apply in_or_app. right. left. reflexivity.
Qed.

(** X17 (no hidden node is left out).  In a build that returns, every node
    entered that is not revealed has the range of its kind among the ranges
    of the build: a mark its range without widget, a List Mark the bullet,
    an Image whose text matches the pattern its Image or Text widget, an
    HTML node the widget of its normalized text. *)
Theorem X17_every_hidden_node_has_its_range
        (v : EditorView) (ds : DecorationSet) (n : SyntaxNode) (e : Range) :
  buildDecorations v = Some ds ->
  In n (entered v) ->
  hiddenNode (state v) (selection (state v)) n ->
  Emitted (state v) n e ->
  In e ds.
Proof.
  rewrite buildDecorations_entered.
  destruct (enterAll _ _ _ _) as [b|] eqn:H; [|discriminate].
  intros E Hin Hh Hem. injection E as <-.
  eapply enterAll_holds; eassumption.
Qed.

Lemma X17_witness :
  In {| rangeFrom := 20; rangeTo := 28;
        value := replace (Some (HTMLWidget (minifyHTML (str "<b>x</b>")))) |}
     [ {| rangeFrom := 0; rangeTo := 2; value := replace None |};
       {| rangeFrom := 20; rangeTo := 28;
          value := replace (Some (HTMLWidget (str "<b>x</b>"))) |} ].
Proof.
  apply (X17_every_hidden_node_has_its_range
           (sampleView 10 10) _ (mkNode "HTMLBlock" 20 28)).
  - reflexivity.
  - simpl. auto 10.
  - exists {| lineFrom := 20; lineTo := 28 |}. split; reflexivity.
  - apply (Emitted_html (state (sampleView 10 10)) (mkNode "HTMLBlock" 20 28)).
    simpl. auto.
Defined.

(** ** The order of the ranges of a build *)

(** X18 (a build that returns is in order).  When a build returns and none
    of its ranges ends before it starts, its ranges are in non-decreasing
    order of start, in the order they were added: the builder raises on the
    first range that starts before the one added last. *)
Theorem X18_ranges_of_a_build_are_in_order
        (v : EditorView) (ds : DecorationSet) :
  buildDecorations v = Some ds ->
  Forall (fun e => rangeFrom e <= rangeTo e) ds ->
  sortedByFrom ds.
Proof.
  rewrite buildDecorations_entered.
  destruct (enterAll _ _ _ _) as [b|] eqn:H; [|discriminate].
  intros E Hwf. injection E as <-.
  destruct (enterAll_picks (state v) (selection (state v)) (entered v)
                           (enterAll_inside _ _ _ _ _ H)) as (es & _ & Hes).
  rewrite Hes in H. pose proof (addAll_ranges _ _ _ H) as Hr. simpl in Hr.
  rewrite Hr in *. exact (proj1 (addAll_sorted _ _ _ H Hwf)).
Qed.

Lemma X18_witness :
  sortedByFrom
    [ {| rangeFrom := 0; rangeTo := 2; value := replace None |};
      {| rangeFrom := 20; rangeTo := 28;
         value := replace (Some (HTMLWidget (str "<b>x</b>"))) |} ].
Proof.
  apply (X18_ranges_of_a_build_are_in_order (sampleView 10 10)).
  - reflexivity.
  - repeat constructor; simpl; lia.
Defined.

(** An Image with emphasis inside, [![*a*](u)], seen through two visible
    ranges: the Image is entered a second time after its Emphasis Marks,
    and the builder raises. *)
Example reentered_image_raises :
  let t := Node (mkNode "Document" 0 14)
             [Node (mkNode "Paragraph" 0 9)
                   [Node (mkNode "Image" 0 9)
                         [Node (mkNode "Emphasis" 2 5)
                               [Node (mkNode "EmphasisMark" 2 3) [];
                                Node (mkNode "EmphasisMark" 4 5) []]]]] in
  buildDecorations
    {| state := mkState (str "![*a*](u)" ++ [LF] ++ str "body") 12 12 t;
       visibleRanges := [(0, 3); (4, 14)] |} = None.
Proof. reflexivity. Qed.

(** ** A Header Mark at the end of the document *)

(** C9 as it is worded (construction never raises; with a Header Mark that
    ends at the end of the document the build completes) fails when another
    node of the tree starts beyond the document: the line lookup raises. *)
Lemma C9_counterexample :
  ~ (forall (v : EditorView) (n : SyntaxNode),
        In n (entered v) ->
        name n = "HeaderMark"%string ->
        from n <= to n ->
        to n = List.length (doc (state v)) ->
        exists ds, buildDecorations v = Some ds).
Proof.
  intros H.
  destruct (H {| state := mkState (str "x" ++ [LF] ++ str "#") 0 0
                               (Node (mkNode "Document" 0 4)
                                     [Node (mkNode "HeaderMark" 2 3) [];
                                      Node (mkNode "Paragraph" 4 4) []]);
                 visibleRanges := [(0, 4)] |}
              (mkNode "HeaderMark" 2 3)) as [ds Hds].
  - simpl. auto.
  - reflexivity.
  - simpl. lia.
  - reflexivity.
  - discriminate Hds.
Qed.

(** It also fails, with every node inside the document, when a decorated
    node is entered after one that starts later: the builder raises. *)
Example out_of_order_nodes_raise :
  buildDecorations
    {| state := mkState (str "z" ++ [LF] ++ str "x" ++ [LF] ++ str "#") 0 0
                        (Node (mkNode "Document" 0 5)
                              [Node (mkNode "HeaderMark" 4 5) [];
                               Node (mkNode "EmphasisMark" 2 3) []]);
       visibleRanges := [(0, 5)] |} = None.
Proof. reflexivity. Qed.

(** C9 (mark at the end of the document), amended.  Take a build in which
    every entered node starts inside the document and the decorated nodes
    are entered in non-decreasing order of start.  For a Header Mark among
    them that ends at the end of the document, the text after the mark is
    read as the empty string, the line lookup succeeds, and the build
    returns; when the selection does not touch the line of the mark, the
    ranges of the build hold [from, to) without a widget for it. *)
Theorem C9_header_mark_at_document_end (v : EditorView) (n : SyntaxNode) :
  Forall (fun m => from m <= List.length (doc (state v))) (entered v) ->
  sortedStarts (filter decorated (entered v)) ->
  In n (entered v) ->
  name n = "HeaderMark"%string ->
  to n = List.length (doc (state v)) ->
  sliceDoc (state v) (to n) (to n + 1) = [] /\
  exists ds l,
    buildDecorations v = Some ds /\
    lineAt (doc (state v)) (from n) = Some l /\
    (~ touches (selection (state v)) (lineFrom l) (lineTo l) ->
     In (mkRange (from n) (to n) (replace None)) ds).
Proof.
  intros Hin Hs Hn Hk Hend.
  assert (Hsl : sliceDoc (state v) (to n) (to n + 1) = []).
  { unfold sliceDoc, substring. rewrite skipn_all2 by lia. apply firstn_nil. }
  split; [exact Hsl|].
  destruct (build_completes v Hin Hs) as [ds Hds].
  rewrite Forall_forall in Hin.
  destruct (lineAt_some _ _ (Hin n Hn)) as [l Hl].
  exists ds, l. split; [exact Hds|]. split; [exact Hl|].
  intros Hno.
  assert (Hto : hiddenTo (doc (state v)) n = to n).
  { rewrite (hiddenTo_header (state v) n Hk), Hsl. reflexivity. }
  rewrite <- Hto.
  revert Hds. rewrite buildDecorations_entered.
  destruct (enterAll _ _ _ _) as [b|] eqn:H; [|discriminate].
  intros E. injection E as <-.
  apply (enterAll_holds _ _ _ _ _ n _ H Hn).
  - exists l. split; [exact Hl|].
    assert (Hline : In (name n) lineKinds) by (rewrite Hk; simpl; tauto).
    rewrite (proj2 (isHTMLNode_kinds n) Hline).
    apply not_revealed_line. exact Hno.
  - apply Emitted_mark. rewrite Hk. simpl. auto.
Qed.

(** A one-character heading mark on the last line, cursor on the first. *)
Lemma C9_witness :
  let v := {| state := mkState (str "x" ++ [LF] ++ str "#") 0 0
                               (Node (mkNode "Document" 0 3)
                                     [Node (mkNode "HeaderMark" 2 3) []]);
              visibleRanges := [(0, 3)] |} in
  sliceDoc (state v) 3 4 = [] /\
  exists ds l,
    buildDecorations v = Some ds /\
    lineAt (doc (state v)) 2 = Some l /\
    (~ touches (cursor 0) (lineFrom l) (lineTo l) ->
     In (mkRange 2 3 (replace None)) ds).
Proof.
  intros v.
  apply (C9_header_mark_at_document_end v (mkNode "HeaderMark" 2 3)).
  - repeat constructor; simpl; lia.
  - repeat constructor.
  - simpl. auto.
  - reflexivity.
  - reflexivity.
Defined.

(** ** What the widgets of a build hold *)

(** X8 (HTML widgets hold normalized text).  In a build that returns, every
    HTML widget holds the normalized text of an HTML Tag or HTML Block node
    that was entered, so its text is on one line, trimmed, and without two
    consecutive spaces. *)
Theorem X8_html_widgets_hold_normalized_text
        (v : EditorView) (ds : DecorationSet) (e : Range) (h : jsstring) :
  buildDecorations v = Some ds ->
  In e ds ->
  value e = replace (Some (HTMLWidget h)) ->
  (exists n, In n (entered v) /\ In (name n) htmlKinds /\
             rangeFrom e = from n /\ rangeTo e = to n /\
             h = minifyHTML (sliceDoc (state v) (from n) (to n))) /\
  singleLine h /\ trimmed h /\ noSpaceRun h.
Proof.
  intros Hb He Hv.
  destruct (EmittedAll_In _ _ _ _ (build_emits v ds Hb) e He) as (n & Hn & _ & Hem).
  destruct Hem as [Hk | Hk | url Hk _ | alt url Hk _ _ | Hk]; simpl in Hv;
    try discriminate.
  injection Hv as <-. split.
  - exists n. simpl. auto.
  - destruct (minifyHTML_normal (sliceDoc (state v) (from n) (to n))) as (H1 & H2 & H3).
    split; [exact H1|]. split; [exact H2|]. apply packed_noSpaceRun. exact H3.
Qed.

Lemma X8_witness :
  singleLine (str "<b>x</b>") /\ trimmed (str "<b>x</b>") /\ noSpaceRun (str "<b>x</b>").
Proof.
  apply (X8_html_widgets_hold_normalized_text
           (sampleView 10 10)
           [ {| rangeFrom := 0; rangeTo := 2; value := replace None |};
             {| rangeFrom := 20; rangeTo := 28;
                value := replace (Some (HTMLWidget (str "<b>x</b>"))) |} ]
           {| rangeFrom := 20; rangeTo := 28;
              value := replace (Some (HTMLWidget (str "<b>x</b>"))) |}).
  - reflexivity.
  - right. left. reflexivity.
  - reflexivity.
Defined.

(** X9 (what Image and Text widgets hold).  In a build that returns, a Text
    widget holds a non-empty alt text without line terminator, taken from
    an Image node whose text is [![alt](url)]; an Image widget holds the
    URL of an Image node whose text is [![](url)], and the URL holds no line
    terminator. *)
Theorem X9_image_and_text_widgets_hold_parts_of_the_text
        (v : EditorView) (ds : DecorationSet) (e : Range) :
  buildDecorations v = Some ds ->
  In e ds ->
  (forall alt, value e = replace (Some (TextWidget alt)) ->
     alt <> [] /\ Forall (fun c => dot c = true) alt /\
     exists n url, In n (entered v) /\ name n = "Image"%string /\
       sliceDoc (state v) (from n) (to n)
       = str "![" ++ alt ++ str "](" ++ url ++ str ")") /\
  (forall url, value e = replace (Some (ImageWidget url)) ->
     Forall (fun c => dot c = true) url /\
     exists n, In n (entered v) /\ name n = "Image"%string /\
       sliceDoc (state v) (from n) (to n) = str "![](" ++ url ++ str ")").
Proof.
  intros Hb He.
  destruct (EmittedAll_In _ _ _ _ (build_emits v ds Hb) e He) as (n & Hn & _ & Hem).
  destruct Hem as [Hk | Hk | url0 Hk Hm | alt0 url0 Hk Hm Hne | Hk]; simpl;
    split; intros x Hv; try discriminate; injection Hv as <-.
  - destruct (image_match_shape _ _ Hm) as (a & u & E & Ht & _ & Hu).
    injection E as <- <-. split; [exact Hu|].
    exists n. auto.
  - destruct (image_match_shape _ _ Hm) as (a & u & E & Ht & Ha & _).
    injection E as <- <-. split; [exact Hne|]. split; [exact Ha|].
    exists n, url0. auto.
Qed.

Lemma X9_witness :
  str "caption" <> [] /\ Forall (fun c => dot c = true) (str "caption") /\
  exists n url,
    In n (entered {| state := mkState captionDoc 28 28 (Node (mkNode "Image" 0 26) []);
                     visibleRanges := [(0, 31)] |}) /\
    name n = "Image"%string /\
    sliceDoc (mkState captionDoc 28 28 (Node (mkNode "Image" 0 26) [])) (from n) (to n)
    = str "![" ++ str "caption" ++ str "](" ++ url ++ str ")".
Proof.
  destruct (X9_image_and_text_widgets_hold_parts_of_the_text
              {| state := mkState captionDoc 28 28 (Node (mkNode "Image" 0 26) []);
                 visibleRanges := [(0, 31)] |}
              [ {| rangeFrom := 0; rangeTo := 26;
                   value := replace (Some (TextWidget (str "caption"))) |} ]
              {| rangeFrom := 0; rangeTo := 26;
                 value := replace (Some (TextWidget (str "caption"))) |}
              eq_refl (or_introl eq_refl)) as [H _].
  exact (H (str "caption") eq_refl).
Defined.

(** ** The plugin instance *)

Lemma updates_hold_last_build :
  forall (us : list ViewUpdate) (v0 : EditorView) (p0 p : LivePreview),
    buildDecorations v0 = Some (decorations p0) ->
    flagged v0 us ->
    updates p0 us = Some p ->
    buildDecorations (lastView v0 us) = Some (decorations p).
Proof.
  induction us as [|u us IH]; intros v0 p0 p H0 Hf Hu; simpl in *.
  - injection Hu as <-. exact H0.
  - destruct Hf as [Hq Hf]. unfold update in Hu.
    destruct (docChanged u || viewportChanged u || selectionSet u) eqn:Efl.
    + destruct (buildDecorations (view u)) as [ds|] eqn:Hb; [|discriminate].
      apply (IH (view u) {| decorations := ds |} p); auto.
    + apply (IH (view u) p0 p); auto.
      rewrite (Hq eq_refl). exact H0.
Qed.

(** X10 (the plugin holds the build of the current view).  Start the plugin
    on a view and run any sequence of updates in which every update that
    sets none of [docChanged], [viewportChanged], [selectionSet] carries an
    unchanged view.  If no build raised, the decorations held at the end are
    the build of the last view. *)
Theorem X10_plugin_holds_build_of_last_view
        (v0 : EditorView) (us : list ViewUpdate) (p0 p : LivePreview) :
  construct v0 = Some p0 ->
  flagged v0 us ->
  updates p0 us = Some p ->
  buildDecorations (lastView v0 us) = Some (decorations p).
Proof.
  intros Hc Hf Hu. apply (updates_hold_last_build us v0 p0 p); try assumption.
  unfold construct in Hc.
  destruct (buildDecorations v0) as [ds|]; [|discriminate].
  injection Hc as <-. reflexivity.
Qed.

(** The cursor moves from the paragraph to the heading line, then an update
    without any change follows. *)
Lemma X10_witness :
  let u1 := {| docChanged := false; viewportChanged := false; selectionSet := true;
               view := sampleView 3 3 |} in
  let u2 := {| docChanged := false; viewportChanged := false; selectionSet := false;
               view := sampleView 3 3 |} in
  buildDecorations (lastView (sampleView 10 10) [u1; u2])
  = Some [ {| rangeFrom := 13; rangeTo := 14; value := replace None |};
           {| rangeFrom := 18; rangeTo := 19; value := replace None |};
           {| rangeFrom := 20; rangeTo := 28;
              value := replace (Some (HTMLWidget (str "<b>x</b>"))) |} ].
Proof.
  intros u1 u2.
  apply (X10_plugin_holds_build_of_last_view
           (sampleView 10 10) [u1; u2]
           {| decorations :=
                [ {| rangeFrom := 0; rangeTo := 2; value := replace None |};
                  {| rangeFrom := 20; rangeTo := 28;
                     value := replace (Some (HTMLWidget (str "<b>x</b>"))) |} ] |}
           {| decorations :=
                [ {| rangeFrom := 13; rangeTo := 14; value := replace None |};
                  {| rangeFrom := 18; rangeTo := 19; value := replace None |};
                  {| rangeFrom := 20; rangeTo := 28;
                     value := replace (Some (HTMLWidget (str "<b>x</b>"))) |} ] |}).
  - reflexivity.
  - simpl. repeat split; intros; try discriminate; reflexivity.
  - reflexivity.
Defined.

(** The three flags do not cover a change of the syntax tree alone: an
    update that carries a new tree and sets no flag leaves the decorations
    of the old tree in place. *)
Example update_misses_tree_change :
  let v0 := {| state := mkState headingDoc 9 9 (Node (mkNode "Document" 0 12) []);
               visibleRanges := [(0, 12)] |} in
  let v1 := {| state := mkState headingDoc 9 9
                                (Node (mkNode "Document" 0 12)
                                      [Node (mkNode "HeaderMark" 0 1) []]);
               visibleRanges := [(0, 12)] |} in
  let u := {| docChanged := false; viewportChanged := false; selectionSet := false;
              view := v1 |} in
  exists p0 p, construct v0 = Some p0 /\ update p0 u = Some p /\
               decorations p = [] /\
               buildDecorations v1
               = Some [ {| rangeFrom := 0; rangeTo := 2; value := replace None |} ].
Proof.
  intros v0 v1 u. exists {| decorations := [] |}, {| decorations := [] |}.
  repeat split.
Qed.

(* ================================================================== *)
(** * Further properties of the normalizer *)

(** ** The normalized text is not longer *)

Lemma run_minLen :
  forall (atoms : Seq) (s : jsstring) (i : nat) (caps : list nat) (e : nat) (caps' : list nat),
    run atoms s i caps = Some (e, caps') -> i + minLen atoms <= e.
Proof.
  induction atoms as [|a atoms IH]; intros s i caps e caps' H.
  - simpl in H. injection H as -> _. simpl. lia.
  - destruct a as [p | p min greedy | | | | ]; simpl in H; simpl minLen.
    + destruct s as [|c s]; [discriminate|].
      destruct (p c); [|discriminate]. apply IH in H. lia.
    + apply rep_sound in H. destruct H as (n & Hn & _ & _ & Hk).
      apply IH in Hk. lia.
    + destruct (i =? 0); [|discriminate]. eapply IH; eassumption.
    + destruct s; [|discriminate]. eapply IH; eassumption.
    + eapply IH; eassumption.
    + eapply IH; eassumption.
Qed.

Lemma matchAt_minLen (k : nat) :
  forall (re : Regex) (s : jsstring) (i e : nat) (caps : list nat),
    Forall (fun atoms => k <= minLen atoms) re ->
    matchAt re s i = Some (e, caps) -> i + k <= e.
Proof.
  induction re as [|a re IH]; intros s i e caps Hall H; simpl in H; [discriminate|].
  inversion Hall as [|? ? Ha Hall']; subst.
  destruct (run a s i []) as [[e' caps']|] eqn:Hr.
  - injection H as -> ->. apply run_minLen in Hr. lia.
  - eapply IH; eassumption.
Qed.

Lemma run_groupFree :
  forall (atoms : Seq) (s : jsstring) (i : nat) (caps : list nat) (e : nat) (caps' : list nat),
    groupFree atoms -> run atoms s i caps = Some (e, caps') -> caps' = caps.
Proof.
  induction atoms as [|a atoms IH]; intros s i caps e caps' Hg H.
  - simpl in H. injection H as _ <-. reflexivity.
  - destruct a as [p | p min greedy | | | | ]; simpl in H, Hg; try contradiction.
    + destruct s as [|c s]; [discriminate|].
      destruct (p c); [|discriminate]. eapply IH; eassumption.
    + apply rep_sound in H. destruct H as (n & _ & _ & _ & Hk).
      eapply IH; eassumption.
    + destruct (i =? 0); [|discriminate]. eapply IH; eassumption.
    + destruct s; [|discriminate]. eapply IH; eassumption.
Qed.

(** A pattern with one group around a quantified class: where the group
    lies inside the match. *)
Lemma run_group_bounds (p : char -> bool) (min : nat) (greedy : bool) (C : Seq) :
  groupFree C ->
  forall (A : Seq) (s : jsstring) (i : nat) (caps : list nat) (e : nat) (caps' : list nat),
    groupFree A ->
    run (A ++ GroupOpen :: Rep p min greedy :: GroupClose :: C) s i caps = Some (e, caps') ->
    exists b n, caps' = caps ++ [b; b + n] /\
                i + minLen A <= b /\ b + n + minLen C <= e.
Proof.
  intros HC. induction A as [|a A IH]; intros s i caps e caps' HA H.
  - simpl in H. apply rep_sound in H. destruct H as (n & _ & _ & _ & Hk).
    simpl in Hk.
    pose proof (run_groupFree _ _ _ _ _ _ HC Hk) as ->.
    apply run_minLen in Hk.
    exists i, n. rewrite <- app_assoc. simpl. repeat split; lia.
  - destruct a as [q | q m g | | | | ]; simpl in H, HA; try contradiction; simpl minLen.
    + destruct s as [|c s]; [discriminate|].
      destruct (q c); [|discriminate].
      destruct (IH _ _ _ _ _ HA H) as (b & n & -> & H1 & H2).
      exists b, n. repeat split; lia.
    + apply rep_sound in H. destruct H as (k & Hk & _ & _ & Hr).
      destruct (IH _ _ _ _ _ HA Hr) as (b & n & -> & H1 & H2).
      exists b, n. repeat split; lia.
    + destruct (i =? 0); [|discriminate].
      destruct (IH _ _ _ _ _ HA H) as (b & n & -> & H1 & H2).
      exists b, n. repeat split; lia.
    + destruct s; [|discriminate].
      destruct (IH _ _ _ _ _ HA H) as (b & n & -> & H1 & H2).
      exists b, n. repeat split; lia.
Qed.

Lemma length_substring (s : jsstring) (b e : nat) :
  List.length (substring s b e) <= e - b.
Proof. unfold substring. rewrite length_firstn. lia. Qed.

(** The group of such a pattern is shorter than the match by at least the
    characters the pattern needs around it. *)
Lemma group_shorter (p : char -> bool) (min : nat) (greedy : bool) (A C : Seq)
      (s : jsstring) (i e : nat) (caps : list nat) :
  groupFree A -> groupFree C ->
  matchAt [A ++ GroupOpen :: Rep p min greedy :: GroupClose :: C] s i = Some (e, caps) ->
  List.length (group1 (groups s i caps)) + minLen A + minLen C <= e - i.
Proof.
  intros HA HC H. simpl in H.
  match type of H with
  | match ?r with _ => _ end = _ => destruct r as [[e' caps']|] eqn:Hr; [|discriminate]
  end.
  injection H as -> ->.
  destruct (run_group_bounds p min greedy C HC A s i [] e caps HA Hr)
    as (b & n & -> & H1 & H2).
  cbn [app groups group1 nth].
  pose proof (length_substring s (b - i) (b + n - i)). lia.
Qed.

Section ReplaceLength.

Variable re : Regex.
Variable f : Replacer.
Hypothesis f_short :
  forall s i e caps,
    matchAt re s i = Some (e, caps) ->
    List.length (f (firstn (e - i) s) (groups s i caps)) <= e - i.

Lemma Replaced_length :
  forall i s out, Replaced re f i s out -> List.length out <= List.length s.
Proof.
  induction 1 as [ i | i e caps Hm | i c s out Hm _ IH
                 | i e caps c s out Hm Hle _ IH
                 | i e caps c s out Hm Hlt _ IH ].
  - simpl. lia.
  - pose proof (f_short _ _ _ _ Hm) as Hf. rewrite firstn_nil in Hf.
    pose proof (matchAt_bounds _ _ _ _ _ Hm). simpl in *. lia.
  - simpl. lia.
  - pose proof (f_short _ _ _ _ Hm) as Hf.
    replace (e - i) with 0 in Hf by lia. simpl firstn in Hf.
    rewrite length_app. simpl. lia.
  - pose proof (f_short _ _ _ _ Hm) as Hf.
    pose proof (matchAt_bounds _ _ _ _ _ Hm) as Hb.
    rewrite length_app. rewrite length_skipn in IH. lia.
Qed.

Lemma replaceAll_length (s : jsstring) :
  List.length (replaceAll re f s) <= List.length s.
Proof. apply (Replaced_length 0). apply replaceAll_Replaced. Qed.

Lemma replaceFirstFrom_length :
  forall (s : jsstring) (i : nat),
    List.length (replaceFirstFrom re f s i) <= List.length s.
Proof.
  induction s as [|c s IH]; intros i; cbn [replaceFirstFrom].
  - destruct (matchAt re [] i) as [[e caps]|] eqn:Hm; [|simpl; lia].
    pose proof (f_short _ _ _ _ Hm) as Hf.
    pose proof (matchAt_bounds _ _ _ _ _ Hm) as Hb.
    rewrite substring_0, skipn_nil, app_nil_r. cbn [List.length] in *. lia.
  - destruct (matchAt re (c :: s) i) as [[e caps]|] eqn:Hm.
    + pose proof (f_short _ _ _ _ Hm) as Hf.
      pose proof (matchAt_bounds _ _ _ _ _ Hm) as Hb.
      rewrite substring_0, length_app, length_skipn.
      cbn [List.length] in *. lia.
    + simpl. specialize (IH (S i)). lia.
Qed.

End ReplaceLength.

(** A constant replacement no longer than the least match. *)
Lemma const_short (re : Regex) (r : string) :
  Forall (fun atoms => List.length (str r) <= minLen atoms) re ->
  forall s i e caps,
    matchAt re s i = Some (e, caps) ->
    List.length (const r (firstn (e - i) s) (groups s i caps)) <= e - i.
Proof.
  intros Hall s i e caps Hm. unfold const.
  pose proof (matchAt_minLen _ _ _ _ _ _ Hall Hm). lia.
Qed.

Ltac short_const :=
  apply const_short; repeat constructor; vm_compute; lia.

Lemma trimStart_length (s : jsstring) : List.length (trimStart s) <= List.length s.
Proof. destruct (trimStart_skipn s) as [k ->]. rewrite length_skipn. lia. Qed.

Lemma trim_length (s : jsstring) : List.length (trim s) <= List.length s.
Proof.
  unfold trim. destruct (trimEnd_firstn (trimStart s)) as [k ->].
  rewrite length_firstn. pose proof (trimStart_length s). lia.
Qed.

Lemma minifyCSS_length (css : jsstring) :
  List.length (minifyCSS css) <= List.length css.
Proof.
  unfold minifyCSS.
  eapply Nat.le_trans; [apply trim_length|].
  repeat (eapply Nat.le_trans; [apply replaceAll_length; short_const|]).
  apply Nat.le_refl.
Qed.

Lemma minifyStyle_length (style : jsstring) :
  List.length (minifyStyle style) <= List.length style.
Proof.
  unfold minifyStyle.
  eapply Nat.le_trans; [apply trim_length|].
  eapply Nat.le_trans; [apply replaceAll_length; short_const|].
  eapply Nat.le_trans; [apply replaceFirstFrom_length; short_const|].
  repeat (eapply Nat.le_trans; [apply replaceAll_length; short_const|]).
  apply Nat.le_refl.
Qed.

Lemma styleTag_short (s : jsstring) (i e : nat) (caps : list nat) :
  matchAt reStyleTag s i = Some (e, caps) ->
  List.length (styleTagReplacer (firstn (e - i) s) (groups s i caps)) <= e - i.
Proof.
  intros H.
  pose proof (group_shorter anyChar 0 false
                (litNoCase "<style" ++ [Rep (noneOf [62%N]) 0 true] ++ litNoCase ">")
                (litNoCase "</style>") s i e caps
                ltac:(vm_compute; exact I) ltac:(vm_compute; exact I) H) as Hg.
  change (minLen (litNoCase "<style" ++ [Rep (noneOf [62%N]) 0 true] ++ litNoCase ">"))
    with 7 in Hg.
  change (minLen (litNoCase "</style>")) with 8 in Hg.
  unfold styleTagReplacer. rewrite !length_app.
  pose proof (minifyCSS_length (group1 (groups s i caps))).
  change (List.length (str "<style>")) with 7.
  change (List.length (str "</style>")) with 8. lia.
Qed.

Lemma styleAttr_short (s : jsstring) (i e : nat) (caps : list nat) :
  matchAt reStyleAttr s i = Some (e, caps) ->
  List.length (styleAttrReplacer (firstn (e - i) s) (groups s i caps)) <= e - i.
Proof.
  intros H.
  pose proof (group_shorter (noneOf [QUOT; APOS]) 0 false
                (litNoCase "style" ++ [Rep isSpace 0 true] ++ litNoCase "="
                 ++ [Rep isSpace 0 true; Chr (oneOf [QUOT; APOS])])
                [Chr (oneOf [QUOT; APOS])] s i e caps
                ltac:(vm_compute; exact I) ltac:(vm_compute; exact I) H) as Hg.
  change (minLen (litNoCase "style" ++ [Rep isSpace 0 true] ++ litNoCase "="
                  ++ [Rep isSpace 0 true; Chr (oneOf [QUOT; APOS])]))
    with 7 in Hg.
  change (minLen [Chr (oneOf [QUOT; APOS])]) with 1 in Hg.
  unfold styleAttrReplacer. rewrite !length_app.
  pose proof (minifyStyle_length (group1 (groups s i caps))).
  change (List.length (str "style=")) with 6.
  change (List.length [QUOT]) with 1. lia.
Qed.

Lemma unquote_short (s : jsstring) (i e : nat) (caps : list nat) :
  matchAt reQuoted s i = Some (e, caps) ->
  List.length (unquoteReplacer (firstn (e - i) s) (groups s i caps)) <= e - i.
Proof.
  intros H.
  pose proof (group_shorter isSimple 1 true
                (lit "=" ++ [Chr (oneOf [QUOT; APOS])])
                [Chr (oneOf [QUOT; APOS])] s i e caps
                ltac:(vm_compute; exact I) ltac:(vm_compute; exact I) H) as Hg.
  change (minLen (lit "=" ++ [Chr (oneOf [QUOT; APOS])])) with 2 in Hg.
  change (minLen [Chr (oneOf [QUOT; APOS])]) with 1 in Hg.
  unfold unquoteReplacer. rewrite !length_app.
  change (List.length (str "=")) with 1. lia.
Qed.

(** X11 (never longer).  For every input, the normalized text is at most as
    long as the input: every replacement, the two style callbacks included,
    is at most as long as the text it replaces. *)
Theorem X11_minifyHTML_never_lengthens (html : jsstring) :
  List.length (minifyHTML html) <= List.length html.
Proof.
  unfold minifyHTML.
  eapply Nat.le_trans; [apply trim_length|].
  eapply Nat.le_trans; [apply replaceAll_length; short_const|].
  eapply Nat.le_trans; [apply replaceAll_length; apply unquote_short|].
  eapply Nat.le_trans; [apply replaceAll_length; apply styleAttr_short|].
  eapply Nat.le_trans; [apply replaceAll_length; apply styleTag_short|].
  repeat (eapply Nat.le_trans; [apply replaceAll_length; short_const|]).
  apply Nat.le_refl.
Qed.

(** ** Text without markup *)

Lemma ink_app (a b : jsstring) : ink (a ++ b) = ink a ++ ink b.
Proof. apply filter_app. Qed.

Lemma ink_spaces (s : jsstring) :
  Forall (fun c => isSpace c = true) s -> ink s = [].
Proof.
  induction 1 as [|c s Hc _ IH]; [reflexivity|].
  unfold ink in *. simpl. rewrite Hc. exact IH.
Qed.

Lemma ink_nil_spaces (s : jsstring) :
  ink s = [] -> Forall (fun c => isSpace c = true) s.
Proof.
  induction s as [|c s IH]; [constructor|].
  unfold ink in *. simpl. destruct (isSpace c) eqn:E; simpl; [|discriminate].
  intros H. constructor; auto.
Qed.

Section ReplaceSpaces.

Variable re : Regex.
Variable f : Replacer.
Hypothesis spaces_only :
  forall s i e caps,
    matchAt re s i = Some (e, caps) ->
    Forall (fun c => isSpace c = true) (firstn (e - i) s) /\
    Forall (fun c => isSpace c = true) (f (firstn (e - i) s) (groups s i caps)).

(** A step that replaces whitespace by whitespace keeps the other
    characters, in order. *)
Lemma Replaced_ink :
  forall i s out, Replaced re f i s out -> ink out = ink s.
Proof.
  induction 1 as [ i | i e caps Hm | i c s out Hm _ IH
                 | i e caps c s out Hm Hle _ IH
                 | i e caps c s out Hm Hlt _ IH ].
  - reflexivity.
  - destruct (spaces_only _ _ _ _ Hm) as [_ Hf]. rewrite firstn_nil in Hf.
    apply ink_spaces. exact Hf.
  - unfold ink in *. simpl. rewrite IH. reflexivity.
  - destruct (spaces_only _ _ _ _ Hm) as [_ Hf].
    replace (e - i) with 0 in Hf by lia. simpl firstn in Hf.
    rewrite ink_app, (ink_spaces _ Hf). unfold ink in *. simpl. rewrite IH. reflexivity.
  - destruct (spaces_only _ _ _ _ Hm) as [Hs Hf].
    rewrite ink_app, (ink_spaces _ Hf), IH.
    transitivity (ink (firstn (e - i) (c :: s) ++ skipn (e - i) (c :: s))).
    + rewrite ink_app, (ink_spaces _ Hs). reflexivity.
    + rewrite firstn_skipn. reflexivity.
Qed.

Lemma replaceAll_ink (s : jsstring) : ink (replaceAll re f s) = ink s.
Proof. apply (Replaced_ink 0). apply replaceAll_Replaced. Qed.

End ReplaceSpaces.

Lemma span_firstn (p : char -> bool) (s : jsstring) :
  Forall (fun c => p c = true) (firstn (span p s) s).
Proof.
  induction s as [|c s IH]; simpl; [constructor|].
  destruct (p c) eqn:E; simpl; [constructor; assumption | constructor].
Qed.

(** The matches of a pattern that is one quantified class of whitespace. *)
Lemma run_of_spaces (p : char -> bool) (min : nat) (r : string) :
  (forall c, p c = true -> isSpace c = true) ->
  Forall (fun c => isSpace c = true) (str r) ->
  forall s i e caps,
    matchAt [[Rep p min true]] s i = Some (e, caps) ->
    Forall (fun c => isSpace c = true) (firstn (e - i) s) /\
    Forall (fun c => isSpace c = true) (const r (firstn (e - i) s) (groups s i caps)).
Proof.
  intros Hp Hr s i e caps H. rewrite matchAt_run_of in H.
  destruct (min <=? span p s); [|discriminate].
  assert (He : e - i = span p s).
  { assert (e = i + span p s) by congruence. lia. }
  rewrite He. split; [|exact Hr].
  eapply Forall_impl; [|apply span_firstn]. exact Hp.
Qed.

Lemma one_of_spaces (p : char -> bool) :
  (forall c, p c = true -> isSpace c = true) ->
  forall s i e caps,
    matchAt [[Chr p]] s i = Some (e, caps) ->
    Forall (fun c => isSpace c = true) (firstn (e - i) s) /\
    Forall (fun c => isSpace c = true) (const "" (firstn (e - i) s) (groups s i caps)).
Proof.
  intros Hp [|c s] i e caps H; [discriminate|].
  rewrite matchAt_one_of in H. destruct (p c) eqn:E; [|discriminate].
  assert (He : e - i = 1).
  { assert (e = S i) by congruence. lia. }
  rewrite He. split; [|constructor].
  simpl. constructor; [apply Hp; exact E | constructor].
Qed.

Lemma edges_spaces :
  forall s i e caps,
    matchAt reEdges s i = Some (e, caps) ->
    Forall (fun c => isSpace c = true) (firstn (e - i) s) /\
    Forall (fun c => isSpace c = true) (const "" (firstn (e - i) s) (groups s i caps)).
Proof.
  intros s i e caps H. split; [|constructor].
  unfold reEdges in H. cbn [matchAt] in H.
  destruct (run [Bos; Rep isSpace 1 true] s i []) as [[e1 c1]|] eqn:H1.
  - injection H as -> ->. cbn [run] in H1.
    destruct (i =? 0); [|discriminate].
    apply rep_sound in H1. destruct H1 as (n & _ & _ & Hall & Hk).
    assert (He : e - i = n).
    { assert (e = i + n) by congruence. lia. }
    rewrite He. exact Hall.
  - destruct (run [Rep isSpace 1 true; Eos] s i []) as [[e2 c2]|] eqn:H2; [|discriminate].
    injection H as -> ->. cbn [run] in H2.
    apply rep_sound in H2. destruct H2 as (n & _ & _ & Hall & Hk).
    destruct (skipn n s); [|discriminate].
    assert (He : e - i = n).
    { assert (e = i + n) by congruence. lia. }
    rewrite He. exact Hall.
Qed.

Lemma ink_trimStart (s : jsstring) : ink (trimStart s) = ink s.
Proof.
  induction s as [|c s IH]; [reflexivity|].
  cbn [trimStart]. destruct (isSpace c) eqn:E; [|reflexivity].
  rewrite IH. unfold ink. cbn [filter]. rewrite E. reflexivity.
Qed.

Lemma ink_rev (s : jsstring) : ink (rev s) = rev (ink s).
Proof.
  induction s as [|c s IH]; [reflexivity|].
  cbn [rev]. rewrite ink_app, IH. unfold ink. cbn [filter].
  destruct (isSpace c); simpl; [apply app_nil_r | reflexivity].
Qed.

Lemma ink_trim (s : jsstring) : ink (trim s) = ink s.
Proof.
  unfold trim, trimEnd.
  rewrite ink_rev, ink_trimStart, ink_rev, rev_involutive. apply ink_trimStart.
Qed.

(** Without [<], [>] and [=], only the whitespace steps change the text. *)
Lemma minifyHTML_on_plain (x : jsstring) :
  plainText x ->
  minifyHTML x =
  trim (replaceAll reSpaces (const " ")
          (replaceAll reEdges (const "")
             (replaceAll reTab (const "")
                (replaceAll reNewlines (const "") x)))).
Proof.
  intros Hx. unfold minifyHTML.
  assert (H0 : Forall (fun c => True /\ isMarkup c = false) x).
  { eapply Forall_impl; [|exact Hx]. auto. }
  rewrite (replaceAll_absent reComment) by (unfold reComment; some_atom_rejects H0).
  set (s3 := replaceAll reTab (const "") (replaceAll reNewlines (const "") x)).
  assert (H3 : Forall (fun c => True /\ isMarkup c = false) s3).
  { unfold s3.
    do 2 (apply replaceAll_Forall; [apply Keeps_const; constructor|]). exact H0. }
  rewrite (replaceAll_absent reBetweenTags) by (unfold reBetweenTags; some_atom_rejects H3).
  set (s6 := replaceAll reSpaces (const " ") (replaceAll reEdges (const "") s3)).
  assert (H6 : Forall (fun c => True /\ isMarkup c = false) s6).
  { unfold s6.
    apply replaceAll_Forall; [apply Keeps_const; repeat constructor|].
    apply replaceAll_Forall; [apply Keeps_const; constructor | exact H3]. }
  rewrite (replaceAll_absent (spacesAround "=")) by (unfold spacesAround; some_atom_rejects H6).
  rewrite (replaceAll_absent (spacesAround "<")) by (unfold spacesAround; some_atom_rejects H6).
  rewrite (replaceAll_absent (spacesAround ">")) by (unfold spacesAround; some_atom_rejects H6).
  rewrite (replaceAll_absent reStyleTag) by (unfold reStyleTag; some_atom_rejects H6).
  rewrite (replaceAll_absent reStyleAttr) by (unfold reStyleAttr; some_atom_rejects H6).
  rewrite (replaceAll_absent reQuoted) by (unfold reQuoted; some_atom_rejects H6).
  rewrite (replaceAll_absent reSelfClose) by (unfold reSelfClose; some_atom_rejects H6).
  reflexivity.
Qed.

Lemma class_is_space (cs : list char) :
  Forall (fun c => isSpace c = true) cs ->
  forall c, oneOf cs c = true -> isSpace c = true.
Proof.
  intros H c Hc. unfold oneOf in Hc. apply existsb_exists in Hc.
  destruct Hc as (x & Hx & E). apply N.eqb_eq in E. subst x.
  rewrite Forall_forall in H. auto.
Qed.

Lemma ink_plain (x : jsstring) :
  plainText x -> ink (minifyHTML x) = ink x.
Proof.
  intros Hx. rewrite (minifyHTML_on_plain x Hx), ink_trim.
  rewrite replaceAll_ink
    by (unfold reSpaces; apply run_of_spaces; [auto | repeat constructor]).
  rewrite replaceAll_ink by (apply edges_spaces).
  rewrite replaceAll_ink
    by (unfold reTab; apply one_of_spaces;
        intros c Hc; apply N.eqb_eq in Hc; subst c; reflexivity).
  apply replaceAll_ink.
  unfold reNewlines. apply run_of_spaces; [|constructor].
  apply class_is_space. repeat constructor.
Qed.

(** X12 (text without markup keeps its characters).  For an input without
    [<], [>] and [=], the normalized text holds exactly the non-whitespace
    characters of the input, in the same order: only whitespace is removed
    or replaced. *)
Theorem X12_plain_text_keeps_its_characters (x : jsstring) :
  plainText x -> ink (minifyHTML x) = ink x.
Proof. exact (ink_plain x). Qed.

Lemma X12_witness :
  ink (minifyHTML (str "  two   words " ++ [LF; TAB] ++ str " more "))
  = ink (str "  two   words " ++ [LF; TAB] ++ str " more ").
Proof.
  apply (X12_plain_text_keeps_its_characters
           (str "  two   words " ++ [LF; TAB] ++ str " more ")).
  vm_compute. repeat constructor.
Defined.

Lemma space_not_markup (c : char) : isSpace c = true -> isMarkup c = false.
Proof.
  intros H. unfold isMarkup, oneOf. simpl.
  repeat match goal with
         | |- context [N.eqb ?a ?b] =>
             destruct (N.eqb_spec a b); [subst; discriminate H|]
         end.
  reflexivity.
Qed.

(** X13 (whitespace only).  An input made of whitespace characters only is
    normalized to the empty string. *)
Theorem X13_whitespace_only_gives_empty (x : jsstring) :
  Forall (fun c => isSpace c = true) x -> minifyHTML x = [].
Proof.
  intros Hx.
  assert (Hp : plainText x).
  { eapply Forall_impl; [|exact Hx]. apply space_not_markup. }
  pose proof (ink_plain x Hp) as Hi. rewrite (ink_spaces x Hx) in Hi.
  apply ink_nil_spaces in Hi.
  destruct (minifyHTML_normal x) as (_ & [Hs _] & _).
  destruct (minifyHTML x) as [|c y]; [reflexivity|].
  inversion Hi; subst. simpl in Hs. congruence.
Qed.

Lemma X13_witness :
  minifyHTML ([SPACE; LF; TAB; 160%N; CR; SPACE]) = [].
Proof.
  apply (X13_whitespace_only_gives_empty [SPACE; LF; TAB; 160%N; CR; SPACE]).
  repeat constructor.
Defined.

(** ** Line breaks *)

(** Removing every match of a pattern whose matches are exactly the
    characters of a class is filtering the class out. *)
Lemma Replaced_filter (p : char -> bool) (re : Regex) :
  (forall c s i, matchAt re (c :: s) i = None -> p c = false) ->
  (forall s i e caps, matchAt re s i = Some (e, caps) ->
                      i < e /\ Forall (fun c => p c = true) (firstn (e - i) s)) ->
  forall i s out,
    Replaced re (const "") i s out -> out = filter (fun c => negb (p c)) s.
Proof.
  intros Hcov Hm. induction 1 as [ i | i e caps H | i c s out H _ IH
                                   | i e caps c s out H Hle _ IH
                                   | i e caps c s out H Hlt _ IH ].
  - reflexivity.
  - pose proof (matchAt_bounds _ _ _ _ _ H) as Hb. apply Hm in H. simpl in Hb. lia.
  - simpl. rewrite (Hcov _ _ _ H). simpl. rewrite IH. reflexivity.
  - apply Hm in H. lia.
  - destruct (Hm _ _ _ _ H) as [_ Hall].
    change (const "" (firstn (e - i) (c :: s)) (groups (c :: s) i caps) ++ out) with out.
    rewrite IH.
    rewrite <- (firstn_skipn (e - i) (c :: s)) at 2.
    rewrite filter_app.
    assert (E : filter (fun c => negb (p c)) (firstn (e - i) (c :: s)) = []).
    { induction Hall as [|x l Hx _ IHl]; [reflexivity|].
      simpl. rewrite Hx. exact IHl. }
    rewrite E. reflexivity.
Qed.

Lemma strip_runs_filter (p : char -> bool) (s : jsstring) :
  replaceAll [[Rep p 1 true]] (const "") s = filter (fun c => negb (p c)) s.
Proof.
  apply (Replaced_filter p [[Rep p 1 true]]) with (i := 0).
  - intros c s' i. rewrite matchAt_run_of. simpl.
    destruct (p c); simpl; [discriminate | reflexivity].
  - intros s' i e caps. rewrite matchAt_run_of.
    destruct (Nat.leb_spec 1 (span p s')) as [Hsp | Hsp]; [|discriminate].
    intros Hm. assert (He : e = i + span p s') by congruence.
    split; [lia|]. replace (e - i) with (span p s') by lia. apply span_firstn.
  - apply replaceAll_Replaced.
Qed.

Lemma strip_chars_filter (p : char -> bool) (s : jsstring) :
  replaceAll [[Chr p]] (const "") s = filter (fun c => negb (p c)) s.
Proof.
  apply (Replaced_filter p [[Chr p]]) with (i := 0).
  - intros c s' i. rewrite matchAt_one_of.
    destruct (p c); [discriminate | reflexivity].
  - intros [|c s'] i e caps; [discriminate|].
    rewrite matchAt_one_of. destruct (p c) eqn:E; [|discriminate].
    intros Hm. assert (He : e = S i) by congruence.
    split; [lia|]. replace (e - i) with 1 by lia.
    simpl. constructor; [exact E | constructor].
  - apply replaceAll_Replaced.
Qed.

Lemma filter_both (f g : char -> bool) (s : jsstring) :
  filter f (filter g s) = filter (fun c => g c && f c) s.
Proof.
  induction s as [|c s IH]; [reflexivity|].
  simpl. destruct (g c); simpl; [destruct (f c)|]; rewrite IH; reflexivity.
Qed.

(** The two stripping steps together. *)
Lemma strip_breaks (s : jsstring) :
  replaceAll reTab (const "") (replaceAll reNewlines (const "") s) = withoutBreaks s.
Proof.
  unfold reTab, reNewlines. rewrite strip_chars_filter, strip_runs_filter.
  unfold withoutBreaks. rewrite filter_both. apply filter_ext.
  intros c. unfold oneOf, only, existsb. rewrite (N.eqb_sym TAB c).
  destruct (c =? CR)%N, (c =? LF)%N, (c =? TAB)%N; reflexivity.
Qed.

Lemma withoutBreaks_twice (s : jsstring) :
  withoutBreaks (withoutBreaks s) = withoutBreaks s.
Proof.
  unfold withoutBreaks. rewrite filter_both. apply filter_ext.
  intros c. apply andb_diag.
Qed.

Lemma no_comment_without_opener (f : Replacer) (s : jsstring) :
  Forall (fun c => c <> 60%N) s -> replaceAll reComment f s = s.
Proof.
  intros H. apply replaceAll_absent.
  apply Forall_cons; [|apply Forall_nil].
  unfold reComment. cbv [lit str map list_ascii_of_string app].
  apply Exists_cons_hd. cbv [rejects].
  eapply Forall_impl; [|exact H].
  intros c Hc. eval_class. apply N.eqb_neq. congruence.
Qed.

(** X14 (line breaks are deleted, not replaced).  For an input without
    [<], the normalized text is that of the input with its newlines,
    carriage returns and tabs taken out: two words separated only by a line
    break come out joined. *)
Theorem X14_breaks_are_deleted (x : jsstring) :
  Forall (fun c => c <> 60%N) x ->
  minifyHTML x = minifyHTML (withoutBreaks x).
Proof.
  intros Hx.
  assert (Hx' : Forall (fun c => c <> 60%N) (withoutBreaks x)).
  { unfold withoutBreaks. apply Forall_forall. intros c Hc.
    apply filter_In in Hc. rewrite Forall_forall in Hx. apply Hx. tauto. }
  unfold minifyHTML.
  rewrite (no_comment_without_opener _ x Hx).
  rewrite (no_comment_without_opener _ (withoutBreaks x) Hx').
  rewrite !strip_breaks, withoutBreaks_twice. reflexivity.
Qed.

Lemma X14_witness :
  minifyHTML (str "one" ++ [LF] ++ str "two") = str "onetwo".
Proof.
  rewrite (X14_breaks_are_deleted (str "one" ++ [LF] ++ str "two")).
  - vm_compute. reflexivity.
  - repeat constructor; discriminate.
Defined.

(** ** Whitespace next to punctuation *)

Lemma clearOf_tail (P : char -> bool) (c : char) (s : jsstring) :
  clearOf P (c :: s) -> clearOf P s.
Proof. simpl. tauto. Qed.

Lemma clearOf_skipn (P : char -> bool) (n : nat) :
  forall s : jsstring, clearOf P s -> clearOf P (skipn n s).
Proof.
  induction n as [|n IH]; intros [|c s] H; simpl; auto.
  apply IH. eapply clearOf_tail. eassumption.
Qed.

Lemma startsWith_firstn (P : char -> bool) (n : nat) (s : jsstring) :
  startsWith P s = false -> startsWith P (firstn n s) = false.
Proof. destruct n, s; simpl; auto. Qed.

Lemma clearOf_firstn (P : char -> bool) (n : nat) :
  forall s : jsstring, clearOf P s -> clearOf P (firstn n s).
Proof.
  induction n as [|n IH]; intros [|c s] H; simpl; auto.
  destruct H as (H1 & H2 & H3). repeat split; [| |apply IH; exact H3].
  - intros Hc. apply startsSpace_firstn. auto.
  - intros Hc. apply startsWith_firstn. auto.
Qed.

Lemma clearOf_ext (P Q : char -> bool) (s : jsstring) :
  (forall c, P c = Q c) -> clearOf P s -> clearOf Q s.
Proof.
  intros E. induction s as [|c s IH]; simpl; [auto|].
  intros (H1 & H2 & H3). repeat split; [| |auto].
  - rewrite <- E. exact H1.
  - intros Hc. specialize (H2 Hc). destruct s; simpl in *; [reflexivity|].
    rewrite <- E. exact H2.
Qed.

Lemma clearOf_or (P Q : char -> bool) (s : jsstring) :
  clearOf P s -> clearOf Q s -> clearOf (fun c => P c || Q c) s.
Proof.
  induction s as [|c s IH]; simpl; [auto|].
  intros (H1 & H2 & H3) (K1 & K2 & K3). repeat split; [| |auto].
  - intros Hc. apply orb_true_iff in Hc. tauto.
  - intros Hc. specialize (H2 Hc). specialize (K2 Hc).
    destruct s; simpl in *; [reflexivity|]. rewrite H2, K2. reflexivity.
Qed.

Lemma clearOf_none (s : jsstring) : clearOf (oneOf []) s.
Proof.
  induction s as [|c s IH]; simpl; [exact I|].
  repeat split; [discriminate | | exact IH].
  intros _. destruct s; reflexivity.
Qed.

Lemma trim_clearOf (P : char -> bool) (s : jsstring) :
  clearOf P s -> clearOf P (trim s).
Proof.
  intros H. unfold trim.
  destruct (trimEnd_firstn (trimStart s)) as [k ->].
  destruct (trimStart_skipn s) as [j ->].
  apply clearOf_firstn, clearOf_skipn, H.
Qed.

(** After a whitespace character of a clear text comes no character of the
    class. *)
Lemma clearOf_after_space (P : char -> bool) :
  forall (n : nat) (s : jsstring),
    clearOf P s ->
    Forall (fun c => isSpace c = true) (firstn (S n) s) ->
    S n <= List.length s ->
    startsWith P (skipn (S n) s) = false.
Proof.
  induction n as [|n IH]; intros s Hs Hall Hlen.
  - destruct s as [|c s]; [simpl in Hlen; lia|].
    simpl in Hall. apply Forall_inv in Hall. destruct Hs as (_ & K & _). auto.
  - destruct s as [|c s]; [simpl in Hlen; lia|].
    change (skipn (S (S n)) (c :: s)) with (skipn (S n) s).
    apply IH.
    + eapply clearOf_tail; eassumption.
    + change (firstn (S (S n)) (c :: s)) with (c :: firstn (S n) s) in Hall.
      inversion Hall; assumption.
    + simpl in Hlen. lia.
Qed.

Section ReplaceClear.

Variable P : char -> bool.
Variable re : Regex.
Variable f : Replacer.

Hypothesis matches_nonempty :
  forall s i e caps, matchAt re s i = Some (e, caps) -> i < e.
Hypothesis match_step :
  forall s i e caps out',
    clearOf P s -> matchAt re s i = Some (e, caps) ->
    keepsClear P (skipn (e - i) s) out' ->
    keepsClear P s (f (firstn (e - i) s) (groups s i caps) ++ out').

Lemma Replaced_clear :
  forall i s out, Replaced re f i s out -> clearOf P s -> keepsClear P s out.
Proof.
  induction 1 as [ i | i e caps Hm | i c s out Hm _ IH
                 | i e caps c s out Hm Hle _ IH
                 | i e caps c s out Hm Hlt _ IH ]; intros Hs.
  - unfold keepsClear. simpl. auto.
  - pose proof (matchAt_bounds _ _ _ _ _ Hm) as Hb.
    apply matches_nonempty in Hm. simpl in Hb. lia.
  - destruct (IH (clearOf_tail _ _ _ Hs)) as (I1 & I2 & I3).
    destruct Hs as (S1 & S2 & _).
    unfold keepsClear. simpl. repeat split; auto.
    + intros Hc. destruct (startsSpace out) eqn:E; [|reflexivity].
      rewrite (S1 Hc) in I2. symmetry. auto.
    + intros Hc. destruct (startsWith P out) eqn:E; [|reflexivity].
      rewrite (S2 Hc) in I3. symmetry. auto.
  - apply matches_nonempty in Hm. lia.
  - apply (match_step _ _ _ _ _ Hs Hm). apply IH. apply clearOf_skipn. exact Hs.
Qed.

Lemma replaceAll_clear (s : jsstring) :
  clearOf P s -> clearOf P (replaceAll re f s).
Proof.
  intros Hs.
  destruct (Replaced_clear 0 s _ (replaceAll_Replaced re f s) Hs) as [H _]. exact H.
Qed.

End ReplaceClear.

(** A greedy repetition whose continuation refuses every character of the
    class takes the whole run. *)
Lemma rep_greedy_then (p : char -> bool) (k : jsstring -> nat -> Outcome) :
  (forall c s i, p c = true -> k (c :: s) i = None) ->
  forall (s : jsstring) (i : nat),
    rep p true k s i 0 = k (skipn (span p s) s) (i + span p s).
Proof.
  intros Hk. induction s as [|c s IH]; intros i.
  - simpl. rewrite Nat.add_0_r. reflexivity.
  - simpl. destruct (p c) eqn:E.
    + rewrite IH. cbn [skipn]. rewrite <- Nat.add_succ_comm.
      destruct (k (skipn (span p s) s) (S i + span p s)) eqn:Ek;
        [reflexivity | apply Hk, E].
    + simpl. rewrite Nat.add_0_r. reflexivity.
Qed.

(** The pattern [\s*c\s*] at the start of [s]: the whitespace run, the
    character [c0], and the whitespace run after it. *)
Lemma matchAt_around (c0 : char) (s : jsstring) (i : nat) :
  isSpace c0 = false ->
  matchAt [[Rep isSpace 0 true; Chr (only c0); Rep isSpace 0 true]] s i =
  match skipn (span isSpace s) s with
  | c :: t =>
      if only c0 c then Some (S (i + span isSpace s) + span isSpace t, []) else None
  | [] => None
  end.
Proof.
  intros Hc0. cbn [matchAt run].
  rewrite rep_greedy_then.
  - destruct (skipn (span isSpace s) s) as [|c t]; [reflexivity|].
    destruct (only c0 c); [|reflexivity].
    rewrite rep_greedy_all. reflexivity.
  - intros c s' i' Hc. destruct (only c0 c) eqn:E; [|reflexivity].
    apply N.eqb_eq in E. subst c. congruence.
Qed.

Section CloseUp.

Variable c0 : char.
Variable f : Replacer.
Hypothesis c0_not_space : isSpace c0 = false.
Hypothesis f_gives_c0 : forall m gs, f m gs = [c0].

Let re : Regex := [[Rep isSpace 0 true; Chr (only c0); Rep isSpace 0 true]].

(** [c0] is the first character after the leading whitespace. *)
Let leads (s : jsstring) : bool := startsWith (only c0) (skipn (span isSpace s) s).

Lemma leads_match (s : jsstring) (i : nat) :
  matchAt re s i = None -> leads s = false.
Proof.
  unfold re, leads. rewrite (matchAt_around c0 s i c0_not_space).
  destruct (skipn (span isSpace s) s) as [|c t]; [reflexivity|].
  simpl. destruct (only c0 c); [discriminate | reflexivity].
Qed.

Lemma Replaced_closes :
  forall i s out,
    Replaced re f i s out ->
    clearOf (only c0) out /\
    (startsSpace out = true -> startsSpace s = true) /\
    (startsWith (only c0) out = true -> leads s = true).
Proof.
  induction 1 as [ i | i e caps Hm | i c s out Hm _ IH
                 | i e caps c s out Hm Hle _ IH
                 | i e caps c s out Hm Hlt _ IH ].
  - simpl. auto.
  - unfold re in Hm. rewrite (matchAt_around c0 [] i c0_not_space) in Hm.
    discriminate.
  - apply leads_match in Hm. destruct IH as (I1 & I2 & I3).
    assert (Hnot : only c0 c = false).
    { destruct (only c0 c) eqn:E; [|reflexivity].
      apply N.eqb_eq in E. subst c.
      unfold leads in Hm. cbn [span] in Hm. rewrite c0_not_space in Hm.
      simpl in Hm. rewrite N.eqb_refl in Hm. discriminate. }
    simpl. repeat split; auto.
    + rewrite Hnot. discriminate.
    + intros Hc. destruct (startsWith (only c0) out) eqn:E; [|reflexivity].
      specialize (I3 eq_refl). unfold leads in Hm. cbn [span] in Hm.
      rewrite Hc in Hm. simpl in Hm. unfold leads in I3. congruence.
    + rewrite Hnot. discriminate.
  - exfalso. unfold re in Hm. rewrite (matchAt_around c0 _ i c0_not_space) in Hm.
    destruct (skipn (span isSpace (c :: s)) (c :: s)) as [|c' t]; [discriminate|].
    destruct (only c0 c'); [|discriminate].
    assert (e = S (i + span isSpace (c :: s)) + span isSpace t) by congruence. lia.
  - rewrite f_gives_c0.
    unfold re in Hm. rewrite (matchAt_around c0 _ i c0_not_space) in Hm.
    remember (c :: s) as s0 eqn:Es0.
    destruct (skipn (span isSpace s0) s0) as [|c' t] eqn:Esk; [discriminate|].
    destruct (only c0 c') eqn:Ec'; [|discriminate].
    assert (He : e - i = S (span isSpace s0) + span isSpace t).
    { assert (e = S (i + span isSpace s0) + span isSpace t) by congruence. lia. }
    assert (Hrest : skipn (e - i) s0 = skipn (span isSpace t) t).
    { rewrite He.
      replace (S (span isSpace s0) + span isSpace t)
        with (span isSpace t + 1 + span isSpace s0) by lia.
      rewrite <- skipn_skipn, Esk. rewrite <- skipn_skipn. reflexivity. }
    rewrite Hrest in IH. destruct IH as (I1 & I2 & I3).
    assert (Ho : startsSpace out = false).
    { destruct (startsSpace out); [|reflexivity].
      rewrite span_skipn in I2. symmetry. auto. }
    simpl. repeat split; auto.
    + rewrite c0_not_space. discriminate.
    + rewrite c0_not_space. discriminate.
    + intros _. unfold leads. rewrite Esk. simpl. exact Ec'.
Qed.

Lemma closes (s : jsstring) : clearOf (only c0) (replaceAll re f s).
Proof.
  destruct (Replaced_closes 0 s _ (replaceAll_Replaced re f s)) as [H _]. exact H.
Qed.

End CloseUp.

(** A replacement that is one character outside the class, not whitespace. *)
Lemma keepsClear_solid (P : char -> bool) (c0 : char) (s out : jsstring) :
  isSpace c0 = false -> P c0 = false -> clearOf P out ->
  keepsClear P s ([c0] ++ out).
Proof.
  intros Hs HP Ho. unfold keepsClear. simpl. rewrite Hs, HP.
  repeat split; auto; discriminate.
Qed.

(** Closing up around [c0] keeps a text clear of a class without [c0]. *)
Lemma around_keeps (P : char -> bool) (c0 : char) (f : Replacer) (s : jsstring) :
  isSpace c0 = false -> P c0 = false -> (forall m gs, f m gs = [c0]) ->
  clearOf P s ->
  clearOf P (replaceAll [[Rep isSpace 0 true; Chr (only c0); Rep isSpace 0 true]] f s).
Proof.
  intros Hs HP Hf. apply replaceAll_clear.
  - intros s' i e caps Hm. rewrite (matchAt_around c0 s' i Hs) in Hm.
    destruct (skipn (span isSpace s') s') as [|c t]; [discriminate|].
    destruct (only c0 c); [|discriminate].
    assert (e = S (i + span isSpace s') + span isSpace t) by congruence. lia.
  - intros s' i e caps out' _ _ (Ho & _). rewrite Hf.
    apply keepsClear_solid; assumption.
Qed.

(** Each closing-up step adds its character to the class the text is
    clear of. *)
Lemma around_adds (cs : list char) (c0 : char) (f : Replacer) (s : jsstring) :
  isSpace c0 = false -> oneOf cs c0 = false -> (forall m gs, f m gs = [c0]) ->
  clearOf (oneOf cs) s ->
  clearOf (oneOf (c0 :: cs))
          (replaceAll [[Rep isSpace 0 true; Chr (only c0); Rep isSpace 0 true]] f s).
Proof.
  intros Hs Hcs Hf H.
  apply (clearOf_ext (fun c => only c0 c || oneOf cs c)).
  - intros c. unfold oneOf, only. simpl. rewrite (N.eqb_sym c0 c). reflexivity.
  - apply clearOf_or.
    + apply closes; assumption.
    + apply around_keeps; assumption.
Qed.

(** Whitespace put before a clear text that does not start with the class. *)
Lemma clearOf_spaces_app (P : char -> bool) (r out : jsstring) :
  (forall c, P c = true -> isSpace c = false) ->
  Forall (fun c => isSpace c = true) r ->
  startsWith P out = false -> clearOf P out ->
  clearOf P (r ++ out) /\ startsWith P (r ++ out) = false.
Proof.
  intros HP Hr Hst Ho. induction Hr as [|c r Hc Hr IH]; [simpl; auto|].
  destruct IH as [IH1 IH2].
  assert (HPc : P c = false).
  { destruct (P c) eqn:E; [|reflexivity]. rewrite (HP c E) in Hc. discriminate. }
  simpl. rewrite HPc. repeat split; auto. discriminate.
Qed.

(** Replacing a run of whitespace by whitespace. *)
Lemma keepsClear_space (P : char -> bool) (s r out : jsstring) (n : nat) :
  (forall c, P c = true -> isSpace c = false) ->
  clearOf P s -> 0 < n <= List.length s ->
  Forall (fun c => isSpace c = true) (firstn n s) ->
  Forall (fun c => isSpace c = true) r ->
  keepsClear P (skipn n s) out ->
  keepsClear P s (r ++ out).
Proof.
  intros HP Hs Hn Hall Hr (I1 & I2 & I3).
  destruct n as [|n]; [lia|].
  pose proof (clearOf_after_space P n s Hs Hall (proj2 Hn)) as Hafter.
  assert (Hst : startsWith P out = false).
  { destruct (startsWith P out); [|reflexivity]. rewrite <- I3; auto. }
  destruct (clearOf_spaces_app P r out HP Hr Hst I1) as [H1 H2].
  unfold keepsClear. repeat split.
  - exact H1.
  - intros _. destruct s as [|c s]; [simpl in Hn; lia|].
    simpl in Hall. apply Forall_inv in Hall. exact Hall.
  - rewrite H2. discriminate.
Qed.

Lemma spaces_clear (P : char -> bool) (re : Regex) (r : string) (s : jsstring) :
  (forall c, P c = true -> isSpace c = false) ->
  (forall s i e caps, matchAt re s i = Some (e, caps) -> i < e) ->
  (forall s i e caps,
      matchAt re s i = Some (e, caps) ->
      Forall (fun c => isSpace c = true) (firstn (e - i) s) /\
      Forall (fun c => isSpace c = true) (const r (firstn (e - i) s) (groups s i caps))) ->
  clearOf P s -> clearOf P (replaceAll re (const r) s).
Proof.
  intros HP Hne Hsp. apply replaceAll_clear; [exact Hne|].
  intros s' i e caps out' Hs' Hm Hinv.
  destruct (Hsp _ _ _ _ Hm) as [Ha Hb].
  pose proof (Hne _ _ _ _ Hm). pose proof (matchAt_bounds _ _ _ _ _ Hm).
  apply (keepsClear_space P s' _ out' (e - i)); auto. lia.
Qed.

Lemma ctl_clear (P : char -> bool) (s : jsstring) :
  (forall c, P c = true -> isSpace c = false) ->
  clearOf P s -> clearOf P (replaceAll reCtl (const "") s).
Proof.
  intros HP. apply spaces_clear; [exact HP | |].
  - intros [|c s'] i e caps H; [discriminate|].
    unfold reCtl in H. rewrite matchAt_one_of in H.
    destruct (oneOf [CR; LF; TAB] c); [|discriminate].
    assert (e = S i) by congruence. lia.
  - apply one_of_spaces. intros c Hc.
    unfold oneOf, existsb, CR, LF, TAB in Hc.
    repeat (apply orb_true_iff in Hc; destruct Hc as [Hc|Hc]);
      try discriminate; apply N.eqb_eq in Hc; subst c; reflexivity.
Qed.

Lemma collapse_clear (P : char -> bool) (s : jsstring) :
  (forall c, P c = true -> isSpace c = false) ->
  clearOf P s -> clearOf P (replaceAll reSpaces (const " ") s).
Proof.
  intros HP. apply spaces_clear; [exact HP | |].
  - intros s' i e caps H. unfold reSpaces in H. rewrite matchAt_run_of in H.
    destruct (2 <=? span isSpace s') eqn:E; [|discriminate].
    apply Nat.leb_le in E.
    assert (e = i + span isSpace s') by congruence. lia.
  - apply run_of_spaces; [auto|]. repeat constructor.
Qed.

(** A match of [;\s*}]: the semicolon, whitespace, the brace. *)
Lemma semiBrace_shape (s : jsstring) (i e : nat) (caps : list nat) :
  matchAt reSemiBrace s i = Some (e, caps) ->
  exists s1 n rest,
    s = 59%N :: s1 /\ skipn n s1 = 125%N :: rest /\ e - i = S (S n).
Proof.
  unfold reSemiBrace. cbv [lit str map list_ascii_of_string app].
  cbn [matchAt run]. destruct s as [|c s1]; [discriminate|].
  destruct (only _ c) eqn:Ec; [|discriminate].
  revert Ec. eval_class. intros Ec. apply N.eqb_eq in Ec. subst c.
  destruct (rep _ _ _ _ _ _) as [r|] eqn:Hr; [|discriminate].
  intros H. assert (r = (e, caps)) by congruence. subst r.
  apply rep_sound in Hr. destruct Hr as (n & _ & _ & _ & Hk).
  destruct (skipn n s1) as [|c' rest] eqn:Esk; [discriminate|].
  revert Hk. eval_class. destruct (N.eqb_spec 125 c') as [<-|]; [|discriminate].
  cbn [run]. intros Hk.
  exists s1, n, rest. repeat split; auto.
  assert (e = S (S i + n)) by congruence. lia.
Qed.

Lemma semiBrace_clear (P : char -> bool) (s : jsstring) :
  P 59%N = true -> P 125%N = true ->
  clearOf P s -> clearOf P (replaceAll reSemiBrace (const "}") s).
Proof.
  intros Hsemi Hbrace. apply replaceAll_clear.
  - intros s' i e caps Hm.
    destruct (semiBrace_shape _ _ _ _ Hm) as (s1 & n & rest & _ & _ & He). lia.
  - intros s' i e caps out' Hs' Hm (I1 & I2 & I3).
    destruct (semiBrace_shape _ _ _ _ Hm) as (s1 & n & rest & Es & Hsk & He).
    assert (Hrest : skipn (e - i) s' = rest).
    { rewrite He, Es. change (skipn (S (S n)) (59%N :: s1)) with (skipn (1 + n) s1).
      rewrite <- skipn_skipn, Hsk. reflexivity. }
    rewrite Hrest in I2, I3.
    pose proof (clearOf_skipn P (S n) _ Hs') as Hc.
    rewrite Es in Hc. cbn [skipn] in Hc.
    unfold jsstring, char in *. rewrite Hsk in Hc. destruct Hc as (Hc & _).
    unfold const. change (str "}") with [125%N].
    unfold keepsClear. rewrite Es. simpl. repeat split; auto.
    + intros _. destruct (startsSpace out'); [|reflexivity].
      rewrite <- (Hc Hbrace). symmetry. auto.
    + discriminate.
Qed.

Lemma punct_not_space (cs : list char) :
  Forall (fun c => isSpace c = false) cs ->
  forall c, oneOf cs c = true -> isSpace c = false.
Proof.
  intros H c Hc. unfold oneOf in Hc. apply existsb_exists in Hc.
  destruct Hc as (x & Hin & Hx). apply N.eqb_eq in Hx. subst x.
  rewrite Forall_forall in H. auto.
Qed.

Lemma minifyCSS_clear (css : jsstring) : clearOf cssPunct (minifyCSS css).
Proof.
  assert (Hns : forall c, cssPunct c = true -> isSpace c = false).
  { apply punct_not_space. repeat constructor. }
  unfold minifyCSS.
  apply trim_clearOf, collapse_clear; [exact Hns|].
  apply ctl_clear; [exact Hns|].
  apply semiBrace_clear; [reflexivity | reflexivity |].
  apply (clearOf_ext (oneOf [44; 58; 59; 125; 123]%N)).
  { intros c. unfold cssPunct, oneOf, existsb.
    destruct (c =? 44)%N, (c =? 58)%N, (c =? 59)%N, (c =? 125)%N, (c =? 123)%N;
      reflexivity. }
  change (spacesAround ",")
    with [[Rep isSpace 0 true; Chr (only 44%N); Rep isSpace 0 true]].
  change (spacesAround ":")
    with [[Rep isSpace 0 true; Chr (only 58%N); Rep isSpace 0 true]].
  change (spacesAround ";")
    with [[Rep isSpace 0 true; Chr (only 59%N); Rep isSpace 0 true]].
  change (spacesAround "}")
    with [[Rep isSpace 0 true; Chr (only 125%N); Rep isSpace 0 true]].
  change (spacesAround "{")
    with [[Rep isSpace 0 true; Chr (only 123%N); Rep isSpace 0 true]].
  do 5 (apply around_adds; [reflexivity | reflexivity | reflexivity |]).
  apply clearOf_none.
Qed.

Lemma minifyCSS_always_singleLine (css : jsstring) : singleLine (minifyCSS css).
Proof.
  unfold minifyCSS, singleLine.
  apply (Forall_impl (P := fun c => oneOf [CR; LF; TAB] c = false)).
  { intros c Hc. unfold oneOf, existsb in Hc.
    repeat (apply orb_false_iff in Hc; destruct Hc as [? Hc]).
    unfold noCtl. repeat split; intros ->; discriminate. }
  apply trim_Forall, replaceAll_Forall.
  - intros m gs _ _. repeat constructor.
  - apply (strip_chars (oneOf [CR; LF; TAB])).
Qed.

(** A match of [;\s*$] reaches the end of the text. *)
Lemma semiEnd_shape (s : jsstring) (i e : nat) (caps : list nat) :
  matchAt reSemiEnd s i = Some (e, caps) -> skipn (e - i) s = [].
Proof.
  unfold reSemiEnd. cbv [lit str map list_ascii_of_string app].
  cbn [matchAt run]. destruct s as [|c s1]; [discriminate|].
  destruct (only _ c); [|discriminate].
  destruct (rep _ _ _ _ _ _) as [r|] eqn:Hr; [|discriminate].
  intros H. assert (r = (e, caps)) by congruence. subst r.
  apply rep_sound in Hr. destruct Hr as (n & _ & _ & _ & Hk).
  destruct (skipn n s1) as [|c' rest] eqn:Esk; [|discriminate].
  cbn [run] in Hk.
  assert (He : e - i = S n).
  { assert (e = S i + n) by congruence. lia. }
  rewrite He. exact Esk.
Qed.

Lemma semiEnd_prefix :
  forall (s : jsstring) (i : nat),
    exists k, replaceFirstFrom reSemiEnd (const "") s i = firstn k s.
Proof.
  induction s as [|c s IH]; intros i; cbn [replaceFirstFrom].
  - destruct (matchAt reSemiEnd [] i) as [[e caps]|] eqn:Hm; [discriminate|].
    exists 0. reflexivity.
  - destruct (matchAt reSemiEnd (c :: s) i) as [[e caps]|] eqn:Hm.
    + rewrite (semiEnd_shape _ _ _ _ Hm). exists 0. reflexivity.
    + destruct (IH (S i)) as [k Hk]. exists (S k). rewrite Hk. reflexivity.
Qed.

Lemma minifyStyle_clear (style : jsstring) : clearOf stylePunct (minifyStyle style).
Proof.
  assert (Hns : forall c, stylePunct c = true -> isSpace c = false).
  { apply punct_not_space. repeat constructor. }
  unfold minifyStyle.
  apply trim_clearOf, collapse_clear; [exact Hns|].
  unfold replaceFirst.
  destruct (semiEnd_prefix
              (replaceAll (spacesAround ":") (const ":")
                 (replaceAll (spacesAround ";") (const ";") style)) 0) as [k ->].
  apply clearOf_firstn.
  apply (clearOf_ext (oneOf [58; 59]%N)).
  { intros c. unfold stylePunct, oneOf, existsb.
    destruct (c =? 58)%N, (c =? 59)%N; reflexivity. }
  change (spacesAround ":")
    with [[Rep isSpace 0 true; Chr (only 58%N); Rep isSpace 0 true]].
  change (spacesAround ";")
    with [[Rep isSpace 0 true; Chr (only 59%N); Rep isSpace 0 true]].
  do 2 (apply around_adds; [reflexivity | reflexivity | reflexivity |]).
  apply clearOf_none.
Qed.

(** X15.  The style sheet rewriter of the [<style>] callback (lines 28-38 of
    livePreview.ts) returns, for every text, a text on one line (no line
    feed, carriage return or tab), without leading or trailing whitespace,
    without two adjacent whitespace characters, and with no whitespace
    character directly before or after any of the characters
    [{], [}], [;], [:] and [,]. *)
Theorem X15_style_sheet_normal_form (css : jsstring) :
  singleLine (minifyCSS css) /\ trimmed (minifyCSS css) /\
  packed (minifyCSS css) /\ clearOf cssPunct (minifyCSS css).
Proof.
  repeat split.
  - apply minifyCSS_always_singleLine.
  - apply trim_trimmed.
  - apply trim_trimmed.
  - apply minifyCSS_packed.
  - apply minifyCSS_clear.
Qed.

(** X16.  The inline style rewriter of the [style=] callback (lines 43-48 of
    livePreview.ts) returns, for every text, a text without leading or
    trailing whitespace, without two adjacent whitespace characters, and
    with no whitespace character directly before or after a [;] or
    a [:]. *)
Theorem X16_inline_style_normal_form (style : jsstring) :
  trimmed (minifyStyle style) /\ packed (minifyStyle style) /\
  clearOf stylePunct (minifyStyle style).
Proof.
  repeat split.
  - apply trim_trimmed.
  - apply trim_trimmed.
  - apply minifyStyle_packed.
  - apply minifyStyle_clear.
Qed.

(* ================================================================== *)
(** * The fixed points of the normalizer *)

(** ** Patterns that start with a word *)

Lemma run_startsLike (ps : list (char -> bool)) (k : Seq) :
  forall (s : jsstring) (i : nat) (caps : list nat) (r : nat * list nat),
    run (map Chr ps ++ k) s i caps = Some r -> startsLike ps s = true.
Proof.
  induction ps as [|p ps IH]; intros s i caps r H; [reflexivity|].
  destruct s as [|c s]; simpl in H; [discriminate|].
  simpl. destruct (p c); [|discriminate].
  simpl. eapply IH. eassumption.
Qed.

Lemma startsLike_occurs (ps : list (char -> bool)) (s : jsstring) :
  startsLike ps s = true -> occurs ps s = true.
Proof. intros H. destruct s; simpl in *; rewrite H; reflexivity. Qed.

Lemma occurs_tail (ps : list (char -> bool)) (c : char) (s : jsstring) :
  occurs ps (c :: s) = false -> occurs ps s = false.
Proof. cbn [occurs]. intros H. apply orb_false_iff in H. tauto. Qed.

Lemma occurs_cons (ps : list (char -> bool)) (c : char) (s : jsstring) :
  occurs ps s = true -> occurs ps (c :: s) = true.
Proof. intros H. cbn [occurs]. rewrite H. apply orb_true_r. Qed.

(** A one-alternative pattern that starts with the classes [qs] cannot
    match in a text where the classes [ps], a part of [qs], do not occur. *)
Lemma replaceAll_unlike (ps qs : list (char -> bool)) (k : Seq) (f : Replacer)
      (s : jsstring) :
  (forall s', startsLike qs s' = true -> occurs ps s' = true) ->
  occurs ps s = false ->
  replaceAll [map Chr qs ++ k] f s = s.
Proof.
  intros Hq Hs. unfold replaceAll.
  apply (replaceFrom_nomatch _ f (fun _ s' => occurs ps s' = false)).
  - intros i s' Hs'. cbn [matchAt].
    destruct (run (map Chr qs ++ k) s' i []) as [r|] eqn:Hr; [|reflexivity].
    apply run_startsLike in Hr. apply Hq in Hr. congruence.
  - intros i c s'. apply occurs_tail.
  - exact Hs.
Qed.

(** ** Replacements that put the match back *)

Section ReplaceSame.

Variable re : Regex.
Variable f : Replacer.
Variable Q : jsstring -> Prop.
Hypothesis Q_tail : forall c s, Q (c :: s) -> Q s.
Hypothesis same :
  forall s i e caps,
    Q s -> matchAt re s i = Some (e, caps) ->
    i < e /\ f (firstn (e - i) s) (groups s i caps) = firstn (e - i) s.

Lemma Q_skipn (n : nat) : forall s, Q s -> Q (skipn n s).
Proof.
  induction n as [|n IH]; intros [|c s] H; simpl; auto.
  apply IH. eapply Q_tail. eassumption.
Qed.



End ReplaceSame.


(** ** The whitespace steps on a text without whitespace next to markup *)






(** ** The quoted values *)

Lemma simple_not_quote (c : char) : isSimple c = true -> isQuote c = false.
Proof.
  unfold isSimple, isQuote, oneOf, existsb, between, only, QUOT, APOS. intros H.
  repeat (apply orb_true_iff in H; destruct H as [H | H]);
    repeat match goal with
           | H : (_ && _)%bool = true |- _ => apply andb_true_iff in H; destruct H
           | H : (_ <=? _)%N = true |- _ => apply N.leb_le in H
           | H : (_ =? _)%N = true |- _ => apply N.eqb_eq in H
           end;
    repeat match goal with
           | |- (_ || _)%bool = false => apply orb_false_iff; split
           | |- (_ =? _)%N = false => apply N.eqb_neq; lia
           end; reflexivity.
Qed.

Lemma simple_not_eq (c : char) : isSimple c = true -> only 61%N c = false.
Proof.
  intros H. unfold only. apply N.eqb_neq. intros <-. vm_compute in H. discriminate.
Qed.

Lemma closesQuote_span :
  forall s : jsstring,
    closesQuote s = startsWith isQuote (skipn (span isSimple s) s).
Proof.
  induction s as [|c s IH]; [reflexivity|].
  cbn [closesQuote span]. destruct (isSimple c) eqn:Ec.
  - rewrite (simple_not_quote c Ec). cbn [orb andb skipn]. exact IH.
  - cbn [skipn startsWith andb]. apply orb_false_r.
Qed.

(** The matches of the pattern of the quoted values. *)
Lemma matchAt_quoted (s : jsstring) (i : nat) :
  matchAt reQuoted s i =
  match s with
  | c1 :: c2 :: c3 :: s3 =>
      if only 61%N c1 && isQuote c2 && isSimple c3 && closesQuote s3
      then Some (i + 4 + span isSimple s3, [i + 2; i + 3 + span isSimple s3])
      else None
  | _ => None
  end.
Proof.
  unfold reQuoted. cbv [lit str map list_ascii_of_string app].
  change (N_of_ascii "=") with 61%N.
  destruct s as [|c1 [|c2 [|c3 s3]]]; cbn [matchAt run rep].
  - reflexivity.
  - destruct (only 61%N c1); reflexivity.
  - destruct (only 61%N c1); [|reflexivity]. destruct (oneOf [QUOT; APOS] c2); reflexivity.
  - fold isQuote. rewrite closesQuote_span.
    destruct (only 61%N c1); [|reflexivity].
    destruct (isQuote c2); [|reflexivity].
    destruct (isSimple c3); [|reflexivity]. cbn [andb].
    rewrite rep_greedy_then.
    + cbn [run app]. destruct (skipn (span isSimple s3) s3) as [|q r]; [reflexivity|].
      cbn [startsWith]. destruct (isQuote q); [|reflexivity].
      repeat f_equal; lia.
    + intros c s' i' Hc. cbn [run]. rewrite (simple_not_quote c Hc). reflexivity.
Qed.

Lemma matchAt_quotedAt (s : jsstring) (i : nat) :
  matchAt reQuoted s i = None <-> quotedAt s = false.
Proof.
  rewrite matchAt_quoted. unfold quotedAt, quoteSimpleQuote, simpleQuote.
  destruct s as [|c1 [|c2 [|c3 s3]]].
  - tauto.
  - rewrite andb_false_r. tauto.
  - rewrite !andb_false_r. tauto.
  - rewrite <- !andb_assoc.
    destruct (only 61%N c1 && (isQuote c2 && (isSimple c3 && closesQuote s3)));
      split; congruence.
Qed.

Lemma firstn_exact {A : Type} (m rest : list A) :
  firstn (List.length m) (m ++ rest) = m.
Proof.
  rewrite firstn_app, Nat.sub_diag, firstn_all. simpl. apply app_nil_r.
Qed.

Lemma skipn_exact {A : Type} (m rest : list A) :
  skipn (List.length m) (m ++ rest) = rest.
Proof.
  rewrite skipn_app, Nat.sub_diag, skipn_all. reflexivity.
Qed.

Lemma span_split (p : char -> bool) (s : jsstring) :
  s = firstn (span p s) s ++ skipn (span p s) s /\
  List.length (firstn (span p s) s) = span p s.
Proof.
  split; [symmetry; apply firstn_skipn|].
  induction s as [|c s IH]; [reflexivity|].
  simpl. destruct (p c); simpl; [f_equal; exact IH | reflexivity].
Qed.

(** A match of the pattern is [=], a quote, simple characters and a quote;
    it is replaced by [=] and the simple characters. *)
Lemma quoted_shape (s : jsstring) (i e : nat) (caps : list nat) :
  matchAt reQuoted s i = Some (e, caps) ->
  exists q g q' rest,
    s = (61%N :: q :: g ++ [q']) ++ rest /\
    e - i = List.length (61%N :: q :: g ++ [q']) /\
    isQuote q = true /\ isQuote q' = true /\
    g <> [] /\ Forall (fun c => isSimple c = true) g /\
    unquoteReplacer (firstn (e - i) s) (groups s i caps) = 61%N :: g.
Proof.
  rewrite matchAt_quoted.
  destruct s as [|c1 [|c2 [|c3 s3]]]; try discriminate.
  destruct (only 61%N c1) eqn:E1; [|discriminate].
  destruct (isQuote c2) eqn:E2; [|discriminate].
  destruct (isSimple c3) eqn:E3; [|discriminate].
  destruct (closesQuote s3) eqn:E4; [|discriminate].
  cbn [andb]. intros H.
  assert (He : e = i + 4 + span isSimple s3) by congruence.
  assert (Hc : caps = [i + 2; i + 3 + span isSimple s3]) by congruence.
  clear H. apply N.eqb_eq in E1. subst c1.
  rewrite closesQuote_span in E4.
  destruct (span_split isSimple s3) as [Hs3 Hlen].
  destruct (skipn (span isSimple s3) s3) as [|q' rest] eqn:Esk; [discriminate|].
  cbn [startsWith] in E4.
  exists c2, (c3 :: firstn (span isSimple s3) s3), q', rest.
  repeat split.
  - cbn [app]. do 3 f_equal. rewrite <- app_assoc. exact Hs3.
  - unfold jsstring, char in *. cbn [List.length app].
    rewrite length_app, Hlen. cbn [List.length]. lia.
  - exact E2.
  - exact E4.
  - discriminate.
  - constructor; [exact E3 | apply span_firstn].
  - subst caps. unfold unquoteReplacer.
    replace (i + 3 + span isSimple s3) with (i + 2 + S (span isSimple s3)) by lia.
    rewrite groups_one. reflexivity.
Qed.


Lemma simple_not_markup (c : char) : isSimple c = true -> isMarkup c = false.
Proof.
  intros H. unfold isMarkup, oneOf, existsb.
  repeat (apply orb_false_iff; split); try reflexivity;
    apply N.eqb_neq; intros ->; vm_compute in H; discriminate.
Qed.

(** Characters that are neither whitespace nor of the class, put before a
    clear text. *)
Lemma clearOf_app_neutral (P : char -> bool) (g out : jsstring) :
  Forall (fun c => isSpace c = false /\ P c = false) g ->
  clearOf P out -> clearOf P (g ++ out).
Proof.
  intros Hg Ho. induction Hg as [|c g [H1 H2] _ IH]; [exact Ho|].
  simpl. rewrite H1, H2. repeat split; try discriminate. exact IH.
Qed.

(** Taking the quotes off keeps a text clear of whitespace next to markup. *)
Lemma quoted_clear (s : jsstring) :
  clearOf isMarkup s -> clearOf isMarkup (replaceAll reQuoted unquoteReplacer s).
Proof.
  apply replaceAll_clear.
  - intros s' i e caps Hm.
    destruct (quoted_shape _ _ _ _ Hm) as (q & g & q' & rest & _ & He & _).
    cbn [List.length] in He. lia.
  - intros s' i e caps out' _ Hm (I1 & _ & _).
    destruct (quoted_shape _ _ _ _ Hm)
      as (q & g & q' & rest & Es & _ & _ & _ & Hne & Hg & ->).
    unfold keepsClear. rewrite Es. cbn [app clearOf startsSpace startsWith].
    destruct g as [|c3 g]; [contradiction|].
    pose proof (Forall_inv Hg) as H3.
    split; [split; [|split] | split].
    + intros _. cbn [app startsSpace]. apply simple_not_space. exact H3.
    + discriminate.
    + apply clearOf_app_neutral; [|exact I1].
      eapply Forall_impl; [|exact Hg].
      intros c Hc. split; [apply simple_not_space | apply simple_not_markup]; exact Hc.
    + discriminate.
    + reflexivity.
Qed.

(** ** The self-closing tags *)

(** The matches of [\s*/\s*>]. *)
Lemma matchAt_selfClose (s : jsstring) (i : nat) :
  matchAt reSelfClose s i =
  match skipn (span isSpace s) s with
  | c :: t =>
      if only 47%N c then
        match skipn (span isSpace t) t with
        | c' :: u =>
            if only 62%N c' then Some (S (S (i + span isSpace s) + span isSpace t), [])
            else None
        | [] => None
        end
      else None
  | [] => None
  end.
Proof.
  unfold reSelfClose. cbv [lit str map list_ascii_of_string app].
  change (N_of_ascii "/") with 47%N. change (N_of_ascii ">") with 62%N.
  cbn [matchAt run].
  rewrite rep_greedy_then.
  - destruct (skipn (span isSpace s) s) as [|c t]; [reflexivity|].
    destruct (only 47%N c); [|reflexivity].
    rewrite rep_greedy_then.
    + destruct (skipn (span isSpace t) t) as [|c' u]; [reflexivity|].
      cbn [run]. destruct (only 62%N c'); reflexivity.
    + intros c' s' i' Hc. cbn [run]. destruct (only 62%N c') eqn:E; [|reflexivity].
      apply N.eqb_eq in E. subst c'. discriminate.
  - intros c s' i' Hc. destruct (only 47%N c) eqn:E; [|reflexivity].
    apply N.eqb_eq in E. subst c. discriminate.
Qed.

Lemma matchAt_selfCloseAt (s : jsstring) (i : nat) :
  matchAt reSelfClose s i = None <-> selfCloseAt s = false.
Proof.
  rewrite matchAt_selfClose. unfold selfCloseAt, closeAhead.
  destruct (skipn (span isSpace s) s) as [|c t]; [tauto|].
  destruct (only 47%N c); [|tauto]. cbn [andb].
  destruct (skipn (span isSpace t) t) as [|c' u]; [tauto|].
  cbn [startsWith]. destruct (only 62%N c'); split; congruence.
Qed.

(** A match is whitespace, [/], whitespace and [>]. *)
Lemma selfClose_shape (s : jsstring) (i e : nat) (caps : list nat) :
  matchAt reSelfClose s i = Some (e, caps) ->
  exists a b rest,
    s = (a ++ 47%N :: b ++ [62%N]) ++ rest /\
    e - i = List.length (a ++ 47%N :: b ++ [62%N]) /\
    Forall (fun c => isSpace c = true) a /\
    Forall (fun c => isSpace c = true) b.
Proof.
  rewrite matchAt_selfClose.
  destruct (span_split isSpace s) as [Hs Hla].
  destruct (skipn (span isSpace s) s) as [|c t] eqn:Esk; [discriminate|].
  destruct (only 47%N c) eqn:Ec; [|discriminate].
  destruct (span_split isSpace t) as [Ht Hlb].
  destruct (skipn (span isSpace t) t) as [|c' u] eqn:Esk'; [discriminate|].
  destruct (only 62%N c') eqn:Ec'; [|discriminate].
  intros H. assert (He : e = S (S (i + span isSpace s) + span isSpace t)) by congruence.
  apply N.eqb_eq in Ec, Ec'. subst c c'.
  exists (firstn (span isSpace s) s), (firstn (span isSpace t) t), u.
  repeat split.
  - rewrite Hs at 1. rewrite <- app_assoc. f_equal. cbn [app]. f_equal.
    rewrite <- app_assoc. exact Ht.
  - unfold jsstring, char in *.
    rewrite length_app. cbn [List.length]. rewrite length_app, Hla, Hlb.
    cbn [List.length]. lia.
  - apply span_firstn.
  - apply span_firstn.
Qed.

Lemma selfClose_clear (s : jsstring) :
  clearOf isMarkup s -> clearOf isMarkup (replaceAll reSelfClose (const "/>") s).
Proof.
  apply replaceAll_clear.
  - intros s' i e caps Hm.
    destruct (selfClose_shape _ _ _ _ Hm) as (a & b & rest & _ & He & _).
    unfold jsstring, char in *.
    rewrite length_app in He. cbn [List.length] in He. lia.
  - intros s' i e caps out' Hs' Hm (I1 & I2 & _).
    destruct (selfClose_shape _ _ _ _ Hm) as (a & b & rest & Es & He & _ & _).
    assert (Hrest : skipn (e - i) s' = rest).
    { rewrite He, Es. apply skipn_exact. }
    rewrite Hrest in I2.
    assert (Hafter : startsSpace rest = false).
    { pose proof (clearOf_skipn isMarkup (List.length (a ++ 47%N :: b)) _ Hs') as Hc.
      rewrite Es in Hc.
      replace ((a ++ 47%N :: b ++ [62%N]) ++ rest)
        with ((a ++ 47%N :: b) ++ 62%N :: rest) in Hc
        by (rewrite <- !app_assoc; cbn [app]; rewrite <- app_assoc; reflexivity).
      rewrite skipn_exact in Hc. destruct Hc as (Hc & _). apply Hc. reflexivity. }
    unfold const. change (str "/>") with [47%N; 62%N].
    unfold keepsClear. cbn [app clearOf startsSpace startsWith].
    split; [split; [|split; [|split; [|split]]] | split]; try discriminate.
    + intros _. destruct (startsSpace out'); [|reflexivity].
      rewrite <- Hafter. symmetry. auto.
    + exact I1.
Qed.

(** ** Characters left out *)

Lemma Dropped_refl (D : char -> bool) (s : jsstring) : Dropped D s s.
Proof. induction s; constructor; assumption. Qed.

Lemma Dropped_app (D : char -> bool) (s1 o1 s2 o2 : jsstring) :
  Dropped D s1 o1 -> Dropped D s2 o2 -> Dropped D (s1 ++ s2) (o1 ++ o2).
Proof.
  intros H1 H2. induction H1; simpl; [exact H2 | |];
    [apply Dropped_keep | apply Dropped_drop]; assumption.
Qed.

Lemma Dropped_all (D : char -> bool) (s : jsstring) :
  Forall (fun c => D c = true) s -> Dropped D s [].
Proof. induction 1; [constructor | apply Dropped_drop; assumption]. Qed.

Lemma Dropped_rev (D : char -> bool) (s out : jsstring) :
  Dropped D s out -> Dropped D (rev s) (rev out).
Proof.
  induction 1 as [|c s out _ IH | c s out Hc _ IH]; simpl.
  - constructor.
  - apply Dropped_app; [exact IH | apply Dropped_refl].
  - rewrite <- (app_nil_r (rev out)).
    apply Dropped_app; [exact IH | apply Dropped_drop; [exact Hc | constructor]].
Qed.

Lemma Dropped_trans (D : char -> bool) (a b : jsstring) :
  Dropped D a b -> forall c, Dropped D b c -> Dropped D a c.
Proof.
  induction 1 as [|x s out _ IH | x s out Hx _ IH]; intros c Hc.
  - exact Hc.
  - inversion Hc; subst; [apply Dropped_keep | apply Dropped_drop]; auto.
  - apply Dropped_drop; auto.
Qed.

Lemma trimStart_Dropped (s : jsstring) : Dropped isSpace s (trimStart s).
Proof.
  induction s as [|c s IH]; simpl; [constructor|].
  destruct (isSpace c) eqn:E; [apply Dropped_drop; assumption | apply Dropped_refl].
Qed.

Lemma trim_Dropped (s : jsstring) : Dropped isSpace s (trim s).
Proof.
  unfold trim, trimEnd.
  apply (Dropped_trans _ _ _ (trimStart_Dropped s)).
  rewrite <- (rev_involutive (trimStart s)) at 1.
  apply Dropped_rev. apply trimStart_Dropped.
Qed.

(** A word none of whose characters can be left out stays where it is. *)
Lemma Dropped_startsLike (D : char -> bool) (ps : list (char -> bool)) :
  Forall (fun p => forall c, D c = true -> p c = false) ps ->
  forall s out, Dropped D s out -> startsLike ps s = true -> startsLike ps out = true.
Proof.
  intros Hps. induction Hps as [|p ps Hp _ IH]; intros s out Hd H; [reflexivity|].
  induction Hd as [|c s out Hd _ | c s out Hc Hd IHd].
  - discriminate.
  - simpl in *. apply andb_true_iff in H. destruct H as [H1 H2].
    rewrite H1. simpl. eapply IH; eassumption.
  - simpl in H. rewrite (Hp c Hc) in H. discriminate.
Qed.

Lemma Dropped_occurs (D : char -> bool) (ps : list (char -> bool)) :
  Forall (fun p => forall c, D c = true -> p c = false) ps -> ps <> [] ->
  forall s out, Dropped D s out -> occurs ps s = true -> occurs ps out = true.
Proof.
  intros Hps Hne s out Hd. induction Hd as [|c s out Hd IH | c s out Hc Hd IH]; intros H.
  - exact H.
  - cbn [occurs] in H. apply orb_true_iff in H. destruct H as [H | H].
    + apply startsLike_occurs.
      apply (Dropped_startsLike D ps Hps (c :: s) (c :: out)); [|exact H].
      apply Dropped_keep. exact Hd.
    + apply occurs_cons. apply IH. exact H.
  - apply IH. cbn [occurs] in H. apply orb_true_iff in H. destruct H as [H | H]; [|exact H].
    destruct ps as [|p ps]; [contradiction|].
    simpl in H. rewrite (Forall_inv Hps c Hc) in H. discriminate.
Qed.

Section ReplaceDrops.

Variable D : char -> bool.
Variable re : Regex.
Variable f : Replacer.
Hypothesis drops :
  forall s i e caps,
    matchAt re s i = Some (e, caps) ->
    i < e /\ Dropped D (firstn (e - i) s) (f (firstn (e - i) s) (groups s i caps)).

Lemma Replaced_Dropped :
  forall i s out, Replaced re f i s out -> Dropped D s out.
Proof.
  induction 1 as [ i | i e caps Hm | i c s out Hm _ IH
                 | i e caps c s out Hm Hle _ IH
                 | i e caps c s out Hm Hlt _ IH ].
  - constructor.
  - pose proof (matchAt_bounds _ _ _ _ _ Hm) as Hb.
    destruct (drops _ _ _ _ Hm) as [Hlt _]. simpl in Hb. lia.
  - apply Dropped_keep. exact IH.
  - destruct (drops _ _ _ _ Hm) as [Hlt _]. lia.
  - destruct (drops _ _ _ _ Hm) as [_ Hd].
    rewrite <- (firstn_skipn (e - i) (c :: s)) at 1.
    apply Dropped_app; assumption.
Qed.

Lemma replaceAll_Dropped (s : jsstring) : Dropped D s (replaceAll re f s).
Proof. apply (Replaced_Dropped 0). apply replaceAll_Replaced. Qed.

End ReplaceDrops.

(** Taking the quotes off leaves out quotes only. *)
Lemma quoted_Dropped (s : jsstring) :
  Dropped isQuote s (replaceAll reQuoted unquoteReplacer s).
Proof.
  apply replaceAll_Dropped. intros s' i e caps Hm.
  destruct (quoted_shape _ _ _ _ Hm)
    as (q & g & q' & rest & Es & He & Hq & Hq' & _ & _ & ->).
  split; [cbn [List.length] in He; lia|].
  rewrite He, Es, firstn_exact.
  apply Dropped_keep, Dropped_drop; [exact Hq|].
  rewrite <- (app_nil_r g) at 2.
  apply Dropped_app; [apply Dropped_refl|].
  apply Dropped_drop; [exact Hq' | constructor].
Qed.

(** Closing up the self-closing tags leaves out whitespace only. *)
Lemma selfClose_Dropped (s : jsstring) :
  Dropped isSpace s (replaceAll reSelfClose (const "/>") s).
Proof.
  apply replaceAll_Dropped. intros s' i e caps Hm.
  destruct (selfClose_shape _ _ _ _ Hm) as (a & b & rest & Es & He & Ha & Hb).
  split.
  { unfold jsstring, char in *. rewrite length_app in He. cbn [List.length] in He. lia. }
  rewrite He, Es, firstn_exact.
  unfold const. change (str "/>") with ([] ++ 47%N :: [] ++ [62%N]).
  apply Dropped_app; [apply Dropped_all; exact Ha|].
  apply Dropped_keep. apply Dropped_app; [apply Dropped_all; exact Hb | apply Dropped_refl].
Qed.

(** ** A word that every replacement holds *)

Lemma startsLike_app (ps : list (char -> bool)) :
  forall a b : jsstring, startsLike ps a = true -> startsLike ps (a ++ b) = true.
Proof.
  induction ps as [|p ps IH]; intros a b H; [reflexivity|].
  destruct a as [|c a]; [discriminate|].
  simpl in *. apply andb_true_iff in H. destruct H as [H1 H2].
  rewrite H1. simpl. apply IH. exact H2.
Qed.

Lemma occurs_app_l (ps : list (char -> bool)) :
  forall a b : jsstring, occurs ps a = true -> occurs ps (a ++ b) = true.
Proof.
  induction a as [|c a IH]; intros b H.
  - simpl in H. rewrite orb_false_r in H.
    apply startsLike_occurs. apply (startsLike_app ps [] b H).
  - cbn [occurs] in H. apply orb_true_iff in H. destruct H as [H | H].
    + apply startsLike_occurs. apply (startsLike_app ps (c :: a) b H).
    + cbn [app]. apply occurs_cons. apply IH. exact H.
Qed.

Lemma occurs_app_r (ps : list (char -> bool)) :
  forall a b : jsstring, occurs ps b = true -> occurs ps (a ++ b) = true.
Proof.
  induction a as [|c a IH]; intros b H; [exact H|].
  cbn [app]. apply occurs_cons. apply IH. exact H.
Qed.

Section ReplaceHolds.

Variable ps : list (char -> bool).
Variable re : Regex.
Variable f : Replacer.
Hypothesis holds : forall m gs, occurs ps (f m gs) = true.

Lemma Replaced_occurs :
  forall i s out, Replaced re f i s out -> out = s \/ occurs ps out = true.
Proof.
  induction 1 as [ i | i e caps Hm | i c s out Hm _ IH
                 | i e caps c s out Hm Hle _ IH
                 | i e caps c s out Hm Hlt _ IH ].
  - left. reflexivity.
  - right. apply holds.
  - destruct IH as [-> | IH]; [left; reflexivity | right; apply occurs_cons; exact IH].
  - right. apply occurs_app_l. apply holds.
  - right. apply occurs_app_l. apply holds.
Qed.

Lemma replaceAll_occurs (s : jsstring) :
  occurs ps s = true -> occurs ps (replaceAll re f s) = true.
Proof.
  intros H.
  destruct (Replaced_occurs 0 s _ (replaceAll_Replaced re f s)) as [-> | H']; assumption.
Qed.

End ReplaceHolds.


(** ** No quoted value left *)

Lemma nowhere_tail (P : jsstring -> bool) (c : char) (s : jsstring) :
  nowhere P (c :: s) -> nowhere P s.
Proof. simpl. tauto. Qed.


Lemma nowhere_skipn (P : jsstring -> bool) (n : nat) :
  forall s : jsstring, nowhere P s -> nowhere P (skipn n s).
Proof.
  induction n as [|n IH]; intros [|c s] H; simpl; auto.
  apply IH. eapply nowhere_tail. eassumption.
Qed.

Lemma nowhere_firstn (P : jsstring -> bool) :
  (forall k s, P s = false -> P (firstn k s) = false) ->
  forall (k : nat) (s : jsstring), nowhere P s -> nowhere P (firstn k s).
Proof.
  intros HP. induction k as [|k IH]; intros s H.
  - simpl. split; [|exact I]. destruct s; [exact (proj1 H)|].
    apply (HP 0 (c :: s)). exact (proj1 H).
  - destruct s as [|c s]; [exact H|].
    split; [apply (HP (S k) (c :: s)); exact (proj1 H)|].
    apply IH. eapply nowhere_tail. eassumption.
Qed.

Lemma closesQuote_firstn :
  forall (k : nat) (s : jsstring), closesQuote s = false -> closesQuote (firstn k s) = false.
Proof.
  induction k as [|k IH]; intros [|c s] H; try reflexivity.
  cbn [firstn closesQuote] in *. apply orb_false_iff in H. destruct H as [H1 H2].
  rewrite H1. cbn [orb]. destruct (isSimple c); [|reflexivity].
  cbn [andb] in *. apply IH. exact H2.
Qed.

Lemma quotedAt_firstn (k : nat) (s : jsstring) :
  quotedAt s = false -> quotedAt (firstn k s) = false.
Proof.
  destruct k as [|k]; [reflexivity|]. destruct s as [|c1 s]; [reflexivity|].
  cbn [firstn quotedAt]. destruct (only 61%N c1); [|reflexivity]. cbn [andb].
  destruct k as [|k]; [reflexivity|]. destruct s as [|c2 s]; [reflexivity|].
  cbn [firstn quoteSimpleQuote]. destruct (isQuote c2); [|reflexivity]. cbn [andb].
  destruct k as [|k]; [reflexivity|]. destruct s as [|c3 s]; [reflexivity|].
  cbn [firstn simpleQuote]. destruct (isSimple c3); [|reflexivity]. cbn [andb].
  apply closesQuote_firstn.
Qed.

Lemma trim_unquoted (s : jsstring) :
  nowhere quotedAt s -> nowhere quotedAt (trim s).
Proof.
  intros H. unfold trim.
  destruct (trimEnd_firstn (trimStart s)) as [k ->].
  destruct (trimStart_skipn s) as [j ->].
  apply (nowhere_firstn quotedAt quotedAt_firstn), nowhere_skipn, H.
Qed.

(** Simple characters before a text without quoted value. *)
Lemma unquoted_app_simple (g out : jsstring) :
  Forall (fun c => isSimple c = true) g ->
  nowhere quotedAt out -> nowhere quotedAt (g ++ out).
Proof.
  intros Hg Ho. induction Hg as [|c g Hc _ IH]; [exact Ho|].
  cbn [app]. split; [|exact IH].
  cbn [quotedAt]. rewrite (simple_not_eq c Hc). reflexivity.
Qed.

Section ReplaceUnquoted.

Variable re : Regex.
Variable f : Replacer.
Variable Q : jsstring -> Prop.
Hypothesis Q_tail : forall c s, Q (c :: s) -> Q s.
Hypothesis copy_unquoted :
  forall i c s, Q (c :: s) -> matchAt re (c :: s) i = None -> quotedAt (c :: s) = false.
Hypothesis step :
  forall s i e caps,
    matchAt re s i = Some (e, caps) ->
    i < e /\
    exists c r,
      f (firstn (e - i) s) (groups s i caps) = c :: r /\
      isQuote c = false /\ isSimple c = false /\
      forall out, nowhere quotedAt out -> nowhere quotedAt ((c :: r) ++ out).

Lemma Replaced_unquoted :
  forall i s out,
    Replaced re f i s out -> Q s ->
    nowhere quotedAt out /\
    (quoteSimpleQuote out = true -> quoteSimpleQuote s = true) /\
    (simpleQuote out = true -> simpleQuote s = true) /\
    (closesQuote out = true -> closesQuote s = true).
Proof.
  induction 1 as [ i | i e caps Hm | i c s out Hm _ IH
                 | i e caps c s out Hm Hle _ IH
                 | i e caps c s out Hm Hlt _ IH ]; intros HQ.
  - simpl. auto.
  - pose proof (matchAt_bounds _ _ _ _ _ Hm) as Hb.
    destruct (step _ _ _ _ Hm) as [Hlt _]. simpl in Hb. lia.
  - destruct (IH (Q_tail _ _ HQ)) as (N1 & R1 & R2 & R3).
    pose proof (copy_unquoted _ _ _ HQ Hm) as Hq.
    repeat split.
    + cbn [quotedAt] in *. destruct (only 61%N c); [|reflexivity]. cbn [andb] in *.
      destruct (quoteSimpleQuote out); [|reflexivity]. symmetry. rewrite <- Hq. auto.
    + exact N1.
    + cbn [quoteSimpleQuote]. intros H. apply andb_true_iff in H. destruct H as [H1 H2].
      rewrite H1, (R2 H2). reflexivity.
    + cbn [simpleQuote]. intros H. apply andb_true_iff in H. destruct H as [H1 H2].
      rewrite H1, (R3 H2). reflexivity.
    + cbn [closesQuote]. intros H. apply orb_true_iff in H. destruct H as [H | H].
      * rewrite H. reflexivity.
      * apply andb_true_iff in H. destruct H as [H1 H2].
        rewrite H1, (R3 H2). apply orb_true_r.
  - destruct (step _ _ _ _ Hm) as [Hlt' _]. lia.
  - destruct (step _ _ _ _ Hm) as [_ (c0 & r & -> & Hq & Hs & Hno)].
    destruct (IH (Q_skipn Q Q_tail _ _ HQ)) as (N1 & _).
    split; [apply Hno; exact N1|].
    cbn [app quoteSimpleQuote simpleQuote closesQuote]. rewrite Hq, Hs.
    repeat split; discriminate.
Qed.

End ReplaceUnquoted.

(** After the quotes are taken off, no quoted value is left. *)
Lemma quoted_unquoted (s : jsstring) :
  nowhere quotedAt (replaceAll reQuoted unquoteReplacer s).
Proof.
  assert (Hcopy : forall i c s', True -> matchAt reQuoted (c :: s') i = None ->
                                 quotedAt (c :: s') = false).
  { intros i c s' _ Hm. apply (matchAt_quotedAt _ i). exact Hm. }
  assert (Hstep : forall s' i e caps,
             matchAt reQuoted s' i = Some (e, caps) ->
             i < e /\
             exists c r,
               unquoteReplacer (firstn (e - i) s') (groups s' i caps) = c :: r /\
               isQuote c = false /\ isSimple c = false /\
               forall o, nowhere quotedAt o -> nowhere quotedAt ((c :: r) ++ o)).
  { intros s' i e caps Hm.
    destruct (quoted_shape _ _ _ _ Hm)
      as (q & g & q' & rest & _ & He & _ & _ & Hne & Hg & ->).
    split; [cbn [List.length] in He; lia|].
    exists 61%N, g. split; [reflexivity|]. split; [reflexivity|]. split; [reflexivity|].
    intros o Ho. cbn [app]. split.
    + destruct g as [|c3 g]; [contradiction|].
      cbn [quotedAt app quoteSimpleQuote].
      rewrite (simple_not_quote c3 (Forall_inv Hg)). reflexivity.
    + apply unquoted_app_simple; assumption. }
  destruct (Replaced_unquoted reQuoted unquoteReplacer (fun _ => True)
              (fun _ _ _ => I) Hcopy Hstep 0 s _
              (replaceAll_Replaced reQuoted unquoteReplacer s) I) as [H _].
  exact H.
Qed.

(** Closing up the self-closing tags brings no quoted value together. *)
Lemma selfClose_unquoted (s : jsstring) :
  nowhere quotedAt s ->
  nowhere quotedAt (replaceAll reSelfClose (const "/>") s).
Proof.
  intros Hs.
  assert (Hcopy : forall i c s', nowhere quotedAt (c :: s') ->
                                 matchAt reSelfClose (c :: s') i = None ->
                                 quotedAt (c :: s') = false).
  { intros i c s' Hq _. exact (proj1 Hq). }
  assert (Hstep : forall s' i e caps,
             matchAt reSelfClose s' i = Some (e, caps) ->
             i < e /\
             exists c r,
               const "/>" (firstn (e - i) s') (groups s' i caps) = c :: r /\
               isQuote c = false /\ isSimple c = false /\
               forall o, nowhere quotedAt o -> nowhere quotedAt ((c :: r) ++ o)).
  { intros s' i e caps Hm.
    destruct (selfClose_shape _ _ _ _ Hm) as (a & b & rest & _ & He & _).
    split.
    { unfold jsstring, char in *. rewrite length_app in He. cbn [List.length] in He. lia. }
    exists 47%N, [62%N]. split; [reflexivity|]. split; [reflexivity|]. split; [reflexivity|].
    intros o Ho. cbn [app]. split; [reflexivity|]. split; [reflexivity | exact Ho]. }
  destruct (Replaced_unquoted reSelfClose (const "/>") (nowhere quotedAt)
              (nowhere_tail quotedAt) Hcopy Hstep 0 s _
              (replaceAll_Replaced reSelfClose (const "/>") s) Hs) as [H _].
  exact H.
Qed.


(** ** No whitespace before a self-closing tag *)

Lemma selfCloseAt_space (c : char) (s : jsstring) :
  isSpace c = true ->
  selfCloseAt (c :: s) = selfCloseAt s /\ closeAhead (c :: s) = closeAhead s.
Proof.
  intros H. unfold selfCloseAt, closeAhead. cbn [span]. rewrite H. auto.
Qed.

Lemma selfCloseAt_solid (c : char) (s : jsstring) :
  isSpace c = false ->
  selfCloseAt (c :: s) = only 47%N c && closeAhead s /\
  closeAhead (c :: s) = only 62%N c.
Proof.
  intros H. unfold selfCloseAt, closeAhead. cbn [span]. rewrite H. auto.
Qed.

Lemma Replaced_gapFree :
  forall i s out,
    Replaced reSelfClose (const "/>") i s out ->
    gapFree out /\
    (selfClosed out = true -> selfCloseAt s = true) /\
    (startsWith (only 62%N) out = true -> closeAhead s = true).
Proof.
  induction 1 as [ i | i e caps Hm | i c s out Hm _ IH
                 | i e caps c s out Hm Hle _ IH
                 | i e caps c s out Hm Hlt _ IH ].
  - simpl. repeat split; discriminate.
  - rewrite matchAt_selfClose in Hm. discriminate.
  - destruct IH as (G & S1 & S2).
    apply (matchAt_selfCloseAt _ i) in Hm.
    destruct (isSpace c) eqn:Ec.
    + destruct (selfCloseAt_space c s Ec) as [E1 E2]. rewrite E1 in Hm.
      repeat split.
      * intros _. destruct (selfClosed out); [|reflexivity].
        rewrite <- Hm. symmetry. auto.
      * exact G.
      * cbn [selfClosed]. intros H. apply andb_true_iff in H. destruct H as [H _].
        apply N.eqb_eq in H. subst c. discriminate.
      * cbn [startsWith]. intros H. apply N.eqb_eq in H. subst c. discriminate.
    + destruct (selfCloseAt_solid c s Ec) as [E1 E2]. rewrite E1, E2.
      repeat split.
      * rewrite Ec. discriminate.
      * exact G.
      * cbn [selfClosed]. intros H. apply andb_true_iff in H. destruct H as [H1 H2].
        rewrite H1, (S2 H2). reflexivity.
      * cbn [startsWith]. auto.
  - exfalso. destruct (selfClose_shape _ _ _ _ Hm) as (a & b & rest & _ & He & _).
    unfold jsstring, char in *. rewrite length_app in He. cbn [List.length] in He. lia.
  - destruct IH as (G & _).
    unfold const. change (str "/>") with [47%N; 62%N].
    cbn [app gapFree selfClosed startsWith].
    repeat split; try discriminate; try exact G.
    intros _. destruct (selfCloseAt (c :: s)) eqn:E; [reflexivity|].
    apply (matchAt_selfCloseAt _ i) in E. congruence.
Qed.

Lemma selfClose_gapFree (s : jsstring) :
  gapFree (replaceAll reSelfClose (const "/>") s).
Proof.
  destruct (Replaced_gapFree 0 s _ (replaceAll_Replaced _ _ s)) as [H _]. exact H.
Qed.

Lemma gapFree_tail (c : char) (s : jsstring) : gapFree (c :: s) -> gapFree s.
Proof. simpl. tauto. Qed.

Lemma gapFree_skipn (n : nat) : forall s : jsstring, gapFree s -> gapFree (skipn n s).
Proof.
  induction n as [|n IH]; intros [|c s] H; simpl; auto.
  apply IH. eapply gapFree_tail. eassumption.
Qed.

Lemma selfClosed_firstn (k : nat) (s : jsstring) :
  selfClosed s = false -> selfClosed (firstn k s) = false.
Proof.
  destruct k as [|k]; [reflexivity|]. destruct s as [|c1 s]; [reflexivity|].
  cbn [firstn selfClosed]. destruct (only 47%N c1); [|reflexivity]. cbn [andb].
  destruct k as [|k]; [reflexivity|]. destruct s as [|c2 s]; [reflexivity|].
  cbn [firstn startsWith]. auto.
Qed.

Lemma gapFree_firstn (k : nat) : forall s : jsstring, gapFree s -> gapFree (firstn k s).
Proof.
  induction k as [|k IH]; intros [|c s] H; simpl; auto.
  destruct H as [H1 H2]. split; [|apply IH; exact H2].
  intros Hc. apply selfClosed_firstn. auto.
Qed.

Lemma trim_gapFree (s : jsstring) : gapFree s -> gapFree (trim s).
Proof.
  intros H. unfold trim.
  destruct (trimEnd_firstn (trimStart s)) as [k ->].
  destruct (trimStart_skipn s) as [j ->].
  apply gapFree_firstn, gapFree_skipn, H.
Qed.




(** ** The text after the steps that close up around markup *)

Lemma closed_up_clear (s : jsstring) :
  clearOf isMarkup
          (replaceAll (spacesAround ">") (const ">")
             (replaceAll (spacesAround "<") (const "<")
                (replaceAll (spacesAround "=") (const "=") s))).
Proof.
  apply (clearOf_ext (oneOf [62; 60; 61]%N)).
  { intros c. unfold isMarkup, oneOf, existsb.
    destruct (c =? 62)%N, (c =? 60)%N, (c =? 61)%N; reflexivity. }
  change (spacesAround ">")
    with [[Rep isSpace 0 true; Chr (only 62%N); Rep isSpace 0 true]].
  change (spacesAround "<")
    with [[Rep isSpace 0 true; Chr (only 60%N); Rep isSpace 0 true]].
  change (spacesAround "=")
    with [[Rep isSpace 0 true; Chr (only 61%N); Rep isSpace 0 true]].
  do 3 (apply around_adds; [reflexivity | reflexivity | reflexivity |]).
  apply clearOf_none.
Qed.

(** ** The word [style] *)

Lemma styleWord_not (D : char -> bool) :
  (forall c, D c = true ->
             Forall (fun x => c <> x) [115; 83; 116; 84; 121; 89; 108; 76; 101; 69]%N) ->
  Forall (fun p => forall c, D c = true -> p c = false) (map isNoCase (str "style")).
Proof.
  intros HD.
  repeat constructor; intros c Hc; specialize (HD c Hc);
    repeat match goal with
           | H : Forall _ (_ :: _) |- _ =>
               let H1 := fresh in let H2 := fresh in
               inversion H as [|? ? H1 H2]; subst; clear H
           end;
    vm_compute N_of_ascii; unfold isNoCase; vm_compute between; cbv iota;
    apply orb_false_iff; split; apply N.eqb_neq; vm_compute N.sub; assumption.
Qed.

Lemma styleWord_not_space :
  Forall (fun p => forall c, isSpace c = true -> p c = false) (map isNoCase (str "style")).
Proof.
  apply styleWord_not. intros c Hc.
  repeat constructor; intros ->; discriminate.
Qed.

Lemma styleWord_not_quote :
  Forall (fun p => forall c, isQuote c = true -> p c = false) (map isNoCase (str "style")).
Proof.
  apply styleWord_not. intros c Hc.
  repeat constructor; intros ->; discriminate.
Qed.

(** Once the word is in the text before the two style steps, it is in the
    normalized text. *)
Lemma style_persists (t : jsstring) :
  hasStyleWord t = true ->
  hasStyleWord
    (trim (replaceAll reSelfClose (const "/>")
             (replaceAll reQuoted unquoteReplacer
                (replaceAll reStyleAttr styleAttrReplacer
                   (replaceAll reStyleTag styleTagReplacer t))))) = true.
Proof.
  unfold hasStyleWord. intros H.
  apply (Dropped_occurs isSpace _ styleWord_not_space ltac:(discriminate) _ _
                        (trim_Dropped _)).
  apply (Dropped_occurs isSpace _ styleWord_not_space ltac:(discriminate) _ _
                        (selfClose_Dropped _)).
  apply (Dropped_occurs isQuote _ styleWord_not_quote ltac:(discriminate) _ _
                        (quoted_Dropped _)).
  apply replaceAll_occurs.
  { intros m gs. unfold styleAttrReplacer. apply occurs_app_l. reflexivity. }
  apply replaceAll_occurs.
  { intros m gs. unfold styleTagReplacer. apply occurs_app_l. reflexivity. }
  exact H.
Qed.

(** Without the word, the two style steps change nothing. *)
Lemma style_steps_fixed (t : jsstring) :
  hasStyleWord t = false ->
  replaceAll reStyleAttr styleAttrReplacer
             (replaceAll reStyleTag styleTagReplacer t) = t.
Proof.
  unfold hasStyleWord. intros H.
  assert (Htag : replaceAll reStyleTag styleTagReplacer t = t).
  { change reStyleTag
      with [map Chr (map isNoCase (str "<style"))
            ++ ([Rep (noneOf [62%N]) 0 true] ++ litNoCase ">"
                ++ [GroupOpen; Rep anyChar 0 false; GroupClose] ++ litNoCase "</style>")].
    apply (replaceAll_unlike (map isNoCase (str "style"))); [|exact H].
    intros [|c s'] Hs; [discriminate|].
    cbn [str map list_ascii_of_string startsLike] in Hs.
    apply andb_true_iff in Hs. destruct Hs as [_ Hs].
    apply occurs_cons, startsLike_occurs. exact Hs. }
  rewrite Htag.
  change reStyleAttr
    with [map Chr (map isNoCase (str "style"))
          ++ ([Rep isSpace 0 true] ++ litNoCase "="
              ++ [Rep isSpace 0 true; Chr (oneOf [QUOT; APOS]);
                  GroupOpen; Rep (noneOf [QUOT; APOS]) 0 false; GroupClose;
                  Chr (oneOf [QUOT; APOS])])].
  apply (replaceAll_unlike (map isNoCase (str "style"))); [|exact H].
  intros s' Hs. apply startsLike_occurs. exact Hs.
Qed.

(** ** Fixed points with markup *)


(** The normalized text never holds a quoted simple value, nor whitespace
    before [/>]. *)
Lemma minifyHTML_unquoted (x : jsstring) : nowhere quotedAt (minifyHTML x).
Proof.
  unfold minifyHTML. apply trim_unquoted, selfClose_unquoted, quoted_unquoted.
Qed.

Lemma minifyHTML_gapFree (x : jsstring) : gapFree (minifyHTML x).
Proof. unfold minifyHTML. apply trim_gapFree, selfClose_gapFree. Qed.

(** A normalized text without the word [style] has no whitespace next to
    [<], [>] and [=]. *)
Lemma minifyHTML_clear (x : jsstring) :
  hasStyleWord (minifyHTML x) = false -> clearOf isMarkup (minifyHTML x).
Proof.
  unfold minifyHTML.
  set (t6 := replaceAll reSpaces (const " ") _).
  set (t9 := replaceAll (spacesAround ">") (const ">") _).
  intros Hs.
  destruct (hasStyleWord t9) eqn:E.
  - rewrite (style_persists t9 E) in Hs. discriminate.
  - rewrite (style_steps_fixed t9 E).
    apply trim_clearOf, selfClose_clear, quoted_clear.
    unfold t9. apply closed_up_clear.
Qed.




(** X19 (quotes and self-closing tags).  For every input, the normalized
    text holds no simple attribute value in quotes (a [=], a quote, one or
    more of the characters [a-zA-Z0-9_-], a quote) and no whitespace
    character directly before a [/>]. *)
Theorem X19_no_quoted_simple_value_no_space_before_self_close (x : jsstring) :
  nowhere quotedAt (minifyHTML x) /\ gapFree (minifyHTML x).
Proof. split; [apply minifyHTML_unquoted | apply minifyHTML_gapFree]. Qed.

(** X20 (no whitespace next to markup).  When the normalized text does not
    hold the word [style] (in any letter case), it has no whitespace
    character directly before or after a [<], a [>] or a [=]. *)
Theorem X20_no_space_next_to_markup (x : jsstring) :
  hasStyleWord (minifyHTML x) = false -> clearOf isMarkup (minifyHTML x).
Proof. exact (minifyHTML_clear x). Qed.

Lemma X20_witness :
  clearOf isMarkup (minifyHTML (str "<p > a = b </p >")).
Proof.
  apply (X20_no_space_next_to_markup (str "<p > a = b </p >")).
  vm_compute. reflexivity.
Defined.
